(** * The job queue of the github-helper server (queue.ts)

    A shallow embedding of the SQLite-backed job queue: the [jobs] table,
    the statements the module sends to the engine, and the five exported
    functions [initQueueDb], [addJobToQueue], [getNextJob], [completeJob]
    and [failJob].  The JSON text that [addJobToQueue] stores and
    [getNextJob] reads back is modelled by a printer and a parser for the
    integer fragment of JSON.

    After the queue come its two users: the tool server that fills it
    (index.ts: the schema of the cherry-pick tool, [enqueueCherryPickJob],
    the handlers of the tool list and of a tool call, the port), and the
    web agent that calls the tool server (agent.ts: the request handler,
    [callMcpServerTool] and its [finishWith]). *)

From Stdlib Require Import ZArith NArith List String Ascii Bool Lia.
From Stdlib Require Import DecimalString DecimalN.
Import ListNotations.
Local Open Scope string_scope.
Local Open Scope Z_scope.
Set Warnings "-register-all".

(** ** JSON values, [JSON.stringify] and [JSON.parse]

    The two functions belong to the JavaScript runtime; they are written
    out here after ECMA-262 (SerializeJSONProperty, QuoteJSONString and
    the JSON grammar) for the values the model has. *)

Module JSON.

(** Numbers are the integers (fractions and exponents are outside the
    model); strings are over the 8-bit alphabet of [ascii]; an object is
    the list of its members in enumeration order. *)
Inductive value : Type :=
| Null
| Bool (b : bool)
| Num (z : Z)
| Str (s : string)
| Arr (l : list value)
| Obj (l : list (string * value)).

Definition dquote : ascii := ascii_of_nat 34.
Definition backslash : ascii := ascii_of_nat 92.

(** *** Printing *)

Definition hex_char (n : N) : ascii :=
  if (n <? 10)%N then ascii_of_N (48 + n) else ascii_of_N (87 + n).

(** QuoteJSONString, one character at a time. *)
Definition escape_char (c : ascii) : string :=
  if Ascii.eqb c dquote then String backslash (String dquote "")
  else if Ascii.eqb c backslash then String backslash (String backslash "")
  else if Ascii.eqb c (ascii_of_nat 8) then String backslash "b"
  else if Ascii.eqb c (ascii_of_nat 12) then String backslash "f"
  else if Ascii.eqb c (ascii_of_nat 10) then String backslash "n"
  else if Ascii.eqb c (ascii_of_nat 13) then String backslash "r"
  else if Ascii.eqb c (ascii_of_nat 9) then String backslash "t"
  else if (N_of_ascii c <? 32)%N then
    String backslash
      (String "u" (String "0" (String "0"
        (String (hex_char (N_of_ascii c / 16))
          (String (hex_char (N_of_ascii c mod 16)) "")))))
  else String c "".

Fixpoint escape (s : string) : string :=
  match s with
  | EmptyString => ""
  | String c r => escape_char c ++ escape r
  end.

Definition quote (s : string) : string :=
  String dquote (escape s ++ String dquote "").

Definition digits (n : N) : string := NilEmpty.string_of_uint (N.to_uint n).

Definition number_text (z : Z) : string :=
  if z <? 0 then String "-" (digits (Z.to_N (- z))) else digits (Z.to_N z).

Section Lists.
Context {A : Type} (show : A -> string).

(** The elements after the opening bracket, up to and including the
    closing one. *)
Fixpoint items (close : ascii) (l : list A) : string :=
  match l with
  | [] => String close ""
  | [x] => show x ++ String close ""
  | x :: l' => show x ++ String "," (items close l')
  end.

End Lists.

Fixpoint stringify (v : value) : string :=
  match v with
  | Null => "null"
  | Bool true => "true"
  | Bool false => "false"
  | Num z => number_text z
  | Str s => quote s
  | Arr l => String "[" (items stringify "]" l)
  | Obj l =>
      String "{"
        (items (fun kv => quote (fst kv) ++ String ":" (stringify (snd kv)))
               "}" l)
  end.

(** *** Parsing *)

Definition is_ws (c : ascii) : bool :=
  Ascii.eqb c " " || Ascii.eqb c (ascii_of_nat 9)
  || Ascii.eqb c (ascii_of_nat 10) || Ascii.eqb c (ascii_of_nat 13).

Fixpoint skip_ws (s : string) : string :=
  match s with
  | String c r => if is_ws c then skip_ws r else s
  | EmptyString => s
  end.

Fixpoint strip_prefix (p s : string) : option string :=
  match p, s with
  | EmptyString, _ => Some s
  | String a p', String b s' =>
      if Ascii.eqb a b then strip_prefix p' s' else None
  | String _ _, EmptyString => None
  end.

Definition hex_val (c : ascii) : option N :=
  let n := N_of_ascii c in
  if (48 <=? n)%N && (n <=? 57)%N then Some (n - 48)%N
  else if (97 <=? n)%N && (n <=? 102)%N then Some (n - 87)%N
  else if (65 <=? n)%N && (n <=? 70)%N then Some (n - 55)%N
  else None.

(** The code unit named by [\uXXXX]; units above [0xFF] have no
    counterpart in [ascii] and are refused. *)
Definition code_unit (a b c d : ascii) : option ascii :=
  match hex_val a, hex_val b, hex_val c, hex_val d with
  | Some x, Some y, Some z, Some w =>
      let n := (4096 * x + 256 * y + 16 * z + w)%N in
      if (n <? 256)%N then Some (ascii_of_N n) else None
  | _, _, _, _ => None
  end.

Definition unescape (e : ascii) : option ascii :=
  if Ascii.eqb e dquote then Some dquote
  else if Ascii.eqb e backslash then Some backslash
  else if Ascii.eqb e "/" then Some "/"%char
  else if Ascii.eqb e "b" then Some (ascii_of_nat 8)
  else if Ascii.eqb e "f" then Some (ascii_of_nat 12)
  else if Ascii.eqb e "n" then Some (ascii_of_nat 10)
  else if Ascii.eqb e "r" then Some (ascii_of_nat 13)
  else if Ascii.eqb e "t" then Some (ascii_of_nat 9)
  else None.

Definition push (c : ascii) (r : option (string * string)) :
  option (string * string) :=
  match r with
  | Some (s, rest) => Some (String c s, rest)
  | None => None
  end.

(** The characters of a string literal after its opening quote, and the
    text after the closing quote. *)
Fixpoint parse_chars (s : string) : option (string * string) :=
  match s with
  | EmptyString => None
  | String c r =>
      if Ascii.eqb c dquote then Some ("", r)
      else if Ascii.eqb c backslash then
        match r with
        | EmptyString => None
        | String e r1 =>
            if Ascii.eqb e "u" then
              match r1 with
              | String h1 (String h2 (String h3 (String h4 r2))) =>
                  match code_unit h1 h2 h3 h4 with
                  | Some ch => push ch (parse_chars r2)
                  | None => None
                  end
              | _ => None
              end
            else
              match unescape e with
              | Some ch => push ch (parse_chars r1)
              | None => None
              end
        end
      else if (N_of_ascii c <? 32)%N then None
      else push c (parse_chars r)
  end.

Definition is_digit (c : ascii) : bool :=
  (48 <=? N_of_ascii c)%N && (N_of_ascii c <=? 57)%N.

Definition starts_digit (s : string) : bool :=
  match s with
  | String c _ => is_digit c
  | EmptyString => false
  end.

(** The longest prefix of digits, and what follows it. *)
Fixpoint span_digits (s : string) : string * string :=
  match s with
  | String c r =>
      if is_digit c then
        let (ds, rest) := span_digits r in (String c ds, rest)
      else ("", s)
  | EmptyString => ("", s)
  end.

(** An unsigned integer literal: at least one digit, no leading zero. *)
Definition parse_nat (s : string) : option (N * string) :=
  let (ds, rest) := span_digits s in
  match NilEmpty.uint_of_string ds with
  | Some d =>
      if Decimal.uint_eq_dec (Decimal.unorm d) d
      then Some (N.of_uint d, rest) else None
  | None => None
  end.

Definition parse_number (s : string) : option (Z * string) :=
  match s with
  | String c r =>
      if Ascii.eqb c "-" then
        match parse_nat r with
        | Some (n, rest) => Some (- Z.of_N n, rest)
        | None => None
        end
      else
        match parse_nat s with
        | Some (n, rest) => Some (Z.of_N n, rest)
        | None => None
        end
  | EmptyString => None
  end.

Fixpoint lookup (k : string) (l : list (string * value)) : option value :=
  match l with
  | [] => None
  | (k', v) :: l' => if String.eqb k k' then Some v else lookup k l'
  end.

Fixpoint remove (k : string) (l : list (string * value)) :
  list (string * value) :=
  match l with
  | [] => []
  | (k', v) :: l' =>
      if String.eqb k k' then remove k l' else (k', v) :: remove k l'
  end.

(** A member in front of the members that follow it in the text: a later
    member of the same name wins, at the place of the first. *)
Definition member (k : string) (v : value) (later : list (string * value)) :
  list (string * value) :=
  match lookup k later with
  | Some v' => (k, v') :: remove k later
  | None => (k, v) :: later
  end.

Fixpoint parse_value (fuel : nat) (s : string) {struct fuel} :
  option (value * string) :=
  match fuel with
  | O => None
  | S fuel' =>
      match skip_ws s with
      | EmptyString => None
      | String c r =>
          if Ascii.eqb c "[" then
            match skip_ws r with
            | String c' r' =>
                if Ascii.eqb c' "]" then Some (Arr [], r')
                else
                  match parse_elements fuel' r with
                  | Some (l, rest) => Some (Arr l, rest)
                  | None => None
                  end
            | EmptyString => None
            end
          else if Ascii.eqb c "{" then
            match skip_ws r with
            | String c' r' =>
                if Ascii.eqb c' "}" then Some (Obj [], r')
                else
                  match parse_members fuel' r with
                  | Some (l, rest) => Some (Obj l, rest)
                  | None => None
                  end
            | EmptyString => None
            end
          else if Ascii.eqb c dquote then
            match parse_chars r with
            | Some (str, rest) => Some (Str str, rest)
            | None => None
            end
          else
            match strip_prefix "null" (String c r) with
            | Some rest => Some (Null, rest)
            | None =>
            match strip_prefix "true" (String c r) with
            | Some rest => Some (Bool true, rest)
            | None =>
            match strip_prefix "false" (String c r) with
            | Some rest => Some (Bool false, rest)
            | None =>
            match parse_number (String c r) with
            | Some (z, rest) => Some (Num z, rest)
            | None => None
            end end end end
      end
  end

with parse_elements (fuel : nat) (s : string) {struct fuel} :
  option (list value * string) :=
  match fuel with
  | O => None
  | S fuel' =>
      match parse_value fuel' s with
      | Some (v, r) =>
          match skip_ws r with
          | String c r' =>
              if Ascii.eqb c "," then
                match parse_elements fuel' r' with
                | Some (l, rest) => Some (v :: l, rest)
                | None => None
                end
              else if Ascii.eqb c "]" then Some ([v], r')
              else None
          | EmptyString => None
          end
      | None => None
      end
  end

with parse_members (fuel : nat) (s : string) {struct fuel} :
  option (list (string * value) * string) :=
  match fuel with
  | O => None
  | S fuel' =>
      match skip_ws s with
      | String q r =>
          if Ascii.eqb q dquote then
            match parse_chars r with
            | Some (k, r1) =>
                match skip_ws r1 with
                | String c r2 =>
                    if Ascii.eqb c ":" then
                      match parse_value fuel' r2 with
                      | Some (v, r3) =>
                          match skip_ws r3 with
                          | String c' r4 =>
                              if Ascii.eqb c' "," then
                                match parse_members fuel' r4 with
                                | Some (l, rest) => Some (member k v l, rest)
                                | None => None
                                end
                              else if Ascii.eqb c' "}" then Some ([(k, v)], r4)
                              else None
                          | EmptyString => None
                          end
                      | None => None
                      end
                    else None
                | EmptyString => None
                end
            | None => None
            end
          else None
      | EmptyString => None
      end
  end.

(** [JSON.parse]: one value, with nothing but white space around it;
    [None] stands for the SyntaxError.  This parser reads the integer
    fragment: on a JSON text with a fraction, an exponent or a code unit
    above [0xFF] it answers [None] too, where JavaScript parses; the texts
    that are not JSON at all are those that [valid], below, refuses. *)
Definition parse (s : string) : option value :=
  match parse_value (S (String.length s)) s with
  | Some (v, rest) =>
      match skip_ws rest with
      | EmptyString => Some v
      | String _ _ => None
      end
  | None => None
  end.

(** *** The values that survive a round trip *)

Fixpoint fresh (k : string) (l : list (string * value)) : bool :=
  match l with
  | [] => true
  | (k', _) :: l' => negb (String.eqb k k') && fresh k l'
  end.

Fixpoint distinct_keys (l : list (string * value)) : bool :=
  match l with
  | [] => true
  | (k, _) :: l' => fresh k l' && distinct_keys l'
  end.

Definition max_safe_integer : Z := 9007199254740991.

(** Integers that a JS number holds exactly, and objects whose members
    have distinct names (as every JS object has). *)
Fixpoint plain (v : value) : bool :=
  match v with
  | Null | Bool _ | Str _ => true
  | Num z => (- max_safe_integer <=? z) && (z <=? max_safe_integer)
  | Arr l => forallb plain l
  | Obj l => distinct_keys l && forallb (fun kv => plain (snd kv)) l
  end.

(** The fuel that parsing the text of a value takes. *)
Fixpoint size (v : value) : nat :=
  match v with
  | Null | Bool _ | Num _ | Str _ => 1
  | Arr l => S (fold_right (fun x n => S (size x + n))%nat O l)
  | Obj l => S (fold_right (fun kv n => S (size (snd kv) + n))%nat O l)
  end.

Definition elements_size (l : list value) : nat :=
  fold_right (fun x n => S (size x + n))%nat O l.

Definition members_size (l : list (string * value)) : nat :=
  fold_right (fun kv n => S (size (snd kv) + n))%nat O l.

Definition member_text (kv : string * value) : string :=
  quote (fst kv) ++ String ":" (stringify (snd kv)).

(** The characters a printed value can begin with. *)
Definition value_start (c : ascii) : bool :=
  is_digit c || Ascii.eqb c "-" || Ascii.eqb c "n" || Ascii.eqb c "t"
  || Ascii.eqb c "f" || Ascii.eqb c "[" || Ascii.eqb c "{"
  || Ascii.eqb c dquote.

(** *** Where the model and JavaScript agree

    A JavaScript number holds the integers up to [max_safe_integer]
    exactly and prints them in plain decimal, as [number_text] does; and
    JavaScript lists the members of an object whose names are integer
    indices before the others, in ascending order, whatever the order
    they were written in, where this model keeps the written order.  So
    the printer and the parser agree with JavaScript on the values that
    are [plain] and none of whose member names is made of digits only. *)

Definition all_digits (k : string) : bool :=
  match k with
  | EmptyString => false
  | String _ _ => forallb is_digit (list_ascii_of_string k)
  end.

Fixpoint index_free (v : value) : bool :=
  match v with
  | Null | Bool _ | Num _ | Str _ => true
  | Arr l => forallb index_free l
  | Obj l =>
      forallb (fun kv => negb (all_digits (fst kv)) && index_free (snd kv)) l
  end.

(** *** The texts that [JSON.parse] accepts

    [parse] reads the integer fragment; [valid] recognises all of the
    JSON grammar over the 8-bit alphabet, with fractions, exponents and
    every [\uXXXX] escape, so that [valid s = false] says that
    [JSON.parse] throws its SyntaxError on [s]. *)

Definition is_hex (c : ascii) : bool :=
  match hex_val c with
  | Some _ => true
  | None => false
  end.

Definition is_escape (e : ascii) : bool :=
  match unescape e with
  | Some _ => true
  | None => false
  end.

(** The text after the closing quote of a string literal. *)
Fixpoint string_end (s : string) : option string :=
  match s with
  | EmptyString => None
  | String c r =>
      if Ascii.eqb c dquote then Some r
      else if Ascii.eqb c backslash then
        match r with
        | EmptyString => None
        | String e r1 =>
            if Ascii.eqb e "u" then
              match r1 with
              | String h1 (String h2 (String h3 (String h4 r2))) =>
                  if is_hex h1 && is_hex h2 && is_hex h3 && is_hex h4
                  then string_end r2 else None
              | _ => None
              end
            else if is_escape e then string_end r1 else None
        end
      else if (N_of_ascii c <? 32)%N then None
      else string_end r
  end.

(** One digit or more. *)
Definition digits_end (s : string) : option string :=
  if starts_digit s then Some (snd (span_digits s)) else None.

Definition fraction_end (s : string) : option string :=
  match s with
  | String c r => if Ascii.eqb c "." then digits_end r else Some s
  | EmptyString => Some s
  end.

Definition exponent_end (s : string) : option string :=
  match s with
  | String c r =>
      if Ascii.eqb c "e" || Ascii.eqb c "E" then
        match r with
        | String g r' =>
            if Ascii.eqb g "+" || Ascii.eqb g "-" then digits_end r'
            else digits_end r
        | EmptyString => None
        end
      else Some s
  | EmptyString => Some s
  end.

(** A number literal: the integer part as [parse_number] reads it, then
    a fraction and an exponent if there are any. *)
Definition number_end (s : string) : option string :=
  match parse_number s with
  | Some (_, rest) =>
      match fraction_end rest with
      | Some r => exponent_end r
      | None => None
      end
  | None => None
  end.

Fixpoint valid_value (fuel : nat) (s : string) {struct fuel} :
  option string :=
  match fuel with
  | O => None
  | S fuel' =>
      match skip_ws s with
      | EmptyString => None
      | String c r =>
          if Ascii.eqb c "[" then
            match skip_ws r with
            | String c' r' =>
                if Ascii.eqb c' "]" then Some r'
                else valid_elements fuel' r
            | EmptyString => None
            end
          else if Ascii.eqb c "{" then
            match skip_ws r with
            | String c' r' =>
                if Ascii.eqb c' "}" then Some r'
                else valid_members fuel' r
            | EmptyString => None
            end
          else if Ascii.eqb c dquote then string_end r
          else
            match strip_prefix "null" (String c r) with
            | Some rest => Some rest
            | None =>
            match strip_prefix "true" (String c r) with
            | Some rest => Some rest
            | None =>
            match strip_prefix "false" (String c r) with
            | Some rest => Some rest
            | None => number_end (String c r)
            end end end
      end
  end

with valid_elements (fuel : nat) (s : string) {struct fuel} :
  option string :=
  match fuel with
  | O => None
  | S fuel' =>
      match valid_value fuel' s with
      | Some r =>
          match skip_ws r with
          | String c r' =>
              if Ascii.eqb c "," then valid_elements fuel' r'
              else if Ascii.eqb c "]" then Some r'
              else None
          | EmptyString => None
          end
      | None => None
      end
  end

with valid_members (fuel : nat) (s : string) {struct fuel} :
  option string :=
  match fuel with
  | O => None
  | S fuel' =>
      match skip_ws s with
      | String q r =>
          if Ascii.eqb q dquote then
            match string_end r with
            | Some r1 =>
                match skip_ws r1 with
                | String c r2 =>
                    if Ascii.eqb c ":" then
                      match valid_value fuel' r2 with
                      | Some r3 =>
                          match skip_ws r3 with
                          | String c' r4 =>
                              if Ascii.eqb c' "," then valid_members fuel' r4
                              else if Ascii.eqb c' "}" then Some r4
                              else None
                          | EmptyString => None
                          end
                      | None => None
                      end
                    else None
                | EmptyString => None
                end
            | None => None
            end
          else None
      | EmptyString => None
      end
  end.

Definition valid (s : string) : bool :=
  match valid_value (S (String.length s)) s with
  | Some rest =>
      match skip_ws rest with
      | EmptyString => true
      | String _ _ => false
      end
  | None => false
  end.


End JSON.

(** ** The jobs table

    [CREATE TABLE jobs (id TEXT PRIMARY KEY, params TEXT NOT NULL,
    status TEXT NOT NULL DEFAULT 'queued',
    createdAt DATETIME DEFAULT CURRENT_TIMESTAMP, processedAt DATETIME,
    error TEXT)].  A table is the list of its rows in rowid order, which
    is the order of insertion since no row is ever deleted.  A timestamp
    is the reading of the clock in whole seconds, the resolution of
    [CURRENT_TIMESTAMP]. *)

(** The texts that the module writes to the [status] column. *)
Inductive Status : Type := queued | running | completed | failed.

Record Job : Type := mkJob {
  id : string;
  params : string;
  status : Status;
  createdAt : Z;
  processedAt : option Z;
  error : option string
}.

Definition Table : Type := list Job.

Definition is_queued (r : Job) : bool :=
  match status r with queued => true | _ => false end.

Definition has_id (i : string) (r : Job) : bool := String.eqb (id r) i.

(** [INSERT INTO jobs (id, params) VALUES (?, ?)]: the primary key refuses
    an id that is already there; the other columns take their defaults. *)
Definition sql_insert (now : Z) (p1 p2 : string) (t : Table) : option Table :=
  if existsb (has_id p1) t then None
  else Some (t ++ [mkJob p1 p2 queued now None None])%list.

(** The older of two rows; the earlier row wins a tie. *)
Definition older (r m : Job) : Job :=
  if createdAt r <=? createdAt m then r else m.

Fixpoint first_by_createdAt (l : list Job) : option Job :=
  match l with
  | [] => None
  | r :: l' =>
      match first_by_createdAt l' with
      | None => Some r
      | Some m => Some (older r m)
      end
  end.

(** [SELECT id, params FROM jobs WHERE status = 'queued'
    ORDER BY createdAt LIMIT 1].  Among rows of equal [createdAt] the one
    met first in the scan of the table is returned. *)
Definition sql_select_oldest_queued (t : Table) : option Job :=
  first_by_createdAt (filter is_queued t).

(** [UPDATE jobs SET status = 'running', processedAt = CURRENT_TIMESTAMP
    WHERE id = ?]. *)
Definition sql_update_running (now : Z) (p1 : string) (t : Table) : Table :=
  map (fun r =>
         if has_id p1 r
         then mkJob (id r) (params r) running (createdAt r) (Some now) (error r)
         else r) t.

(** [UPDATE jobs SET status = 'completed' WHERE id = ?]. *)
Definition sql_update_completed (p1 : string) (t : Table) : Table :=
  map (fun r =>
         if has_id p1 r
         then mkJob (id r) (params r) completed (createdAt r) (processedAt r)
                    (error r)
         else r) t.

(** [UPDATE jobs SET status = 'failed', error = ? WHERE id = ?]: the first
    bound value goes to the [error] column, the second selects the row. *)
Definition sql_update_failed (p1 p2 : string) (t : Table) : Table :=
  map (fun r =>
         if has_id p2 r
         then mkJob (id r) (params r) failed (createdAt r) (processedAt r)
                    (Some p1)
         else r) t.

(** ** The storage engine

    The database file holds the committed table.  At most one connection
    is inside a write transaction; it works on a private copy that
    [COMMIT] publishes and [ROLLBACK] drops.  Under WAL the other
    connections keep reading the committed table. *)

Definition Conn : Type := nat.

Record Db : Type := mkDb {
  jobs : Table;
  writer : option (Conn * Table)
}.

Inductive Error : Type :=
| SQLITE_BUSY        (* database is locked *)
| SQLITE_CONSTRAINT  (* UNIQUE constraint failed: jobs.id *)
| SQLITE_ERROR       (* no transaction is active; or one is already open *)
| SQLITE_IOERR       (* the engine could not carry the statement out *)
| SyntaxError.       (* JSON.parse *)

Inductive Result (A : Type) : Type :=
| Ok (a : A)
| Throw (e : Error).
Arguments Ok {A} a.
Arguments Throw {A} e.

(** An awaited call: the database after it, and its value or the error
    it rejects with. *)
Definition M (A : Type) : Type := Db -> Db * Result A.

Definition ret {A} (a : A) : M A := fun db => (db, Ok a).

Definition throw {A} (e : Error) : M A := fun db => (db, Throw e).

Definition bind {A B} (c : M A) (k : A -> M B) : M B :=
  fun db =>
    match c db with
    | (db', Ok a) => k a db'
    | (db', Throw e) => (db', Throw e)
    end.

Definition try_catch {A} (c : M A) (handler : Error -> M A) : M A :=
  fun db =>
    match c db with
    | (db', Ok a) => (db', Ok a)
    | (db', Throw e) => handler e db'
    end.

Notation "x <- c ;; k" := (bind c (fun x => k))
  (at level 61, c at next level, right associativity).
Notation "c ;; k" := (bind c (fun _ => k))
  (at level 61, right associativity).

Inductive Stmt : Type := BEGIN | SELECT | UPDATE | COMMIT | ROLLBACK | INSERT.

(** What the engine refuses for reasons of its own (disk, memory), per
    kind of statement. *)
Definition Faults : Type := Stmt -> option Error.

Definition no_faults : Faults := fun _ => None.

Definition view (k : Conn) (db : Db) : Table :=
  match writer db with
  | Some (k', t) => if Nat.eqb k k' then t else jobs db
  | None => jobs db
  end.

(** [db.exec('BEGIN IMMEDIATE TRANSACTION')]. *)
Definition exec_begin (fault : option Error) (k : Conn) : M unit :=
  fun db =>
    match fault with
    | Some e => (db, Throw e)
    | None =>
        match writer db with
        | Some (k', _) =>
            (db, Throw (if Nat.eqb k k' then SQLITE_ERROR else SQLITE_BUSY))
        | None => (mkDb (jobs db) (Some (k, jobs db)), Ok tt)
        end
    end.

(** [db.exec('COMMIT')]. *)
Definition exec_commit (fault : option Error) (k : Conn) : M unit :=
  fun db =>
    match fault with
    | Some e => (db, Throw e)
    | None =>
        match writer db with
        | Some (k', t) =>
            if Nat.eqb k k' then (mkDb t None, Ok tt)
            else (db, Throw SQLITE_ERROR)
        | None => (db, Throw SQLITE_ERROR)
        end
    end.

(** [db.exec('ROLLBACK')]. *)
Definition exec_rollback (fault : option Error) (k : Conn) : M unit :=
  fun db =>
    match fault with
    | Some e => (db, Throw e)
    | None =>
        match writer db with
        | Some (k', _) =>
            if Nat.eqb k k' then (mkDb (jobs db) None, Ok tt)
            else (db, Throw SQLITE_ERROR)
        | None => (db, Throw SQLITE_ERROR)
        end
    end.

(** [db.get] of the SELECT. *)
Definition get_oldest_queued (fault : option Error) (k : Conn) :
  M (option Job) :=
  fun db =>
    match fault with
    | Some e => (db, Throw e)
    | None => (db, Ok (sql_select_oldest_queued (view k db)))
    end.

(** [db.run] of a writing statement [f]: inside the connection's own
    transaction it changes the private copy, outside any transaction it
    commits at once, and it is refused while another connection writes. *)
Definition run (fault : option Error) (k : Conn)
           (f : Table -> Result Table) : M unit :=
  fun db =>
    match fault with
    | Some e => (db, Throw e)
    | None =>
        match writer db with
        | Some (k', t) =>
            if Nat.eqb k k' then
              match f t with
              | Ok t' => (mkDb (jobs db) (Some (k, t')), Ok tt)
              | Throw e => (db, Throw e)
              end
            else (db, Throw SQLITE_BUSY)
        | None =>
            match f (jobs db) with
            | Ok t' => (mkDb t' None, Ok tt)
            | Throw e => (db, Throw e)
            end
        end
    end.

(** ** The exported functions

    Every function first awaits [initQueueDb] for the handle of its
    process, here the connection [k].  [F] says what the engine refuses
    and [now] is what [CURRENT_TIMESTAMP] reads during the call. *)

(** [initQueueDb] (lines 12-37) on a file that may not exist yet:
    [CREATE TABLE IF NOT EXISTS] leaves an existing table as it is. *)
Definition initQueueDb (file : option Db) : Db :=
  match file with
  | Some db => db
  | None => mkDb [] None
  end.

(** [addJobToQueue] (lines 43-50): the INSERT, with the params object
    stored as its JSON text; no error is caught. *)
Definition addJobToQueue (F : Faults) (k : Conn) (now : Z)
           (id : string) (params : JSON.value) : M unit :=
  run (F INSERT) k
      (fun t =>
         match sql_insert now id (JSON.stringify params) t with
         | Some t' => Ok t'
         | None => Throw SQLITE_CONSTRAINT
         end).

(** [JSON.parse] as a call that may throw. *)
Definition JSON_parse (s : string) : M JSON.value :=
  match JSON.parse s with
  | Some v => ret v
  | None => throw SyntaxError
  end.

(** [getNextJob] (lines 57-94).  The [try] block holds BEGIN, SELECT,
    UPDATE, COMMIT and, after the COMMIT, [JSON.parse]; the [catch] block
    issues ROLLBACK, logs, and returns [null]. *)
Definition getNextJob (F : Faults) (k : Conn) (now : Z) :
  M (option (string * JSON.value)) :=
  try_catch
    (exec_begin (F BEGIN) k ;;
     job <- get_oldest_queued (F SELECT) k ;;
     match job with
     | None =>
         exec_commit (F COMMIT) k ;;
         ret None
     | Some job =>
         run (F UPDATE) k (fun t => Ok (sql_update_running now (id job) t)) ;;
         exec_commit (F COMMIT) k ;;
         p <- JSON_parse (params job) ;;
         ret (Some (id job, p))
     end)
    (fun e =>
       exec_rollback (F ROLLBACK) k ;;
       ret None).

(** [completeJob] (lines 99-105). *)
Definition completeJob (F : Faults) (k : Conn) (id : string) : M unit :=
  run (F UPDATE) k (fun t => Ok (sql_update_completed id t)).

(** [failJob] (lines 110-117): [db.run(sql, id, error)] binds [id] to the
    first placeholder and [error] to the second. *)
Definition failJob (F : Faults) (k : Conn) (id : string) (error : string) :
  M unit :=
  run (F UPDATE) k (fun t => Ok (sql_update_failed id error t)).

(** ** [getNextJob], one awaited call at a time

    Between two awaits other callers may run.  A call in progress is at
    one of these points; [AtUpdate] and [AtCommit] remember the row that
    the SELECT returned, [AtRollback] the error that was caught. *)

Inductive Pc : Type :=
| AtBegin
| AtSelect
| AtCommitEmpty
| AtUpdate (job : Job)
| AtCommit (job : Job)
| AtRollback (e : Error)
| Finished (r : Result (option (string * JSON.value))).

Definition next_stmt (pc : Pc) : Stmt :=
  match pc with
  | AtBegin => BEGIN
  | AtSelect => SELECT
  | AtUpdate _ => UPDATE
  | AtCommitEmpty | AtCommit _ => COMMIT
  | AtRollback _ | Finished _ => ROLLBACK
  end.

Definition step (fault : option Error) (k : Conn) (now : Z) (pc : Pc)
           (db : Db) : Db * Pc :=
  match pc with
  | AtBegin =>
      match exec_begin fault k db with
      | (db', Ok _) => (db', AtSelect)
      | (db', Throw e) => (db', AtRollback e)
      end
  | AtSelect =>
      match get_oldest_queued fault k db with
      | (db', Ok None) => (db', AtCommitEmpty)
      | (db', Ok (Some job)) => (db', AtUpdate job)
      | (db', Throw e) => (db', AtRollback e)
      end
  | AtCommitEmpty =>
      match exec_commit fault k db with
      | (db', Ok _) => (db', Finished (Ok None))
      | (db', Throw e) => (db', AtRollback e)
      end
  | AtUpdate job =>
      match run fault k (fun t => Ok (sql_update_running now (id job) t)) db
      with
      | (db', Ok _) => (db', AtCommit job)
      | (db', Throw e) => (db', AtRollback e)
      end
  | AtCommit job =>
      match exec_commit fault k db with
      | (db', Ok _) =>
          match JSON.parse (params job) with
          | Some p => (db', Finished (Ok (Some (id job, p))))
          | None => (db', AtRollback SyntaxError)
          end
      | (db', Throw e) => (db', AtRollback e)
      end
  | AtRollback _ =>
      match exec_rollback fault k db with
      | (db', Ok _) => (db', Finished (Ok None))
      | (db', Throw e) => (db', Finished (Throw e))
      end
  | Finished r => (db, Finished r)
  end.

(** A call that nobody interrupts. *)
Fixpoint run_alone (F : Faults) (k : Conn) (now : Z) (n : nat) (pc : Pc)
         (db : Db) : Db * Pc :=
  match n with
  | O => (db, pc)
  | S n' =>
      let (db', pc') := step (F (next_stmt pc)) k now pc db in
      run_alone F k now n' pc' db'
  end.

(** Callers in flight, each on the connection of its process. *)
Record Caller : Type := mkCaller { conn : Conn; pc : Pc }.

(** The scheduler lets caller number [who] make its next awaited call, at
    clock reading [clock], and the engine answers with [fault]. *)
Record Event : Type := mkEvent {
  who : nat;
  clock : Z;
  fault : option Error
}.

Fixpoint resume (ev : Event) (i : nat) (cs : list Caller) (db : Db)
         {struct cs} : Db * list Caller :=
  match cs with
  | [] => (db, [])
  | c :: cs' =>
      match i with
      | O =>
          let (db', pc') := step (fault ev) (conn c) (clock ev) (pc c) db in
          (db', mkCaller (conn c) pc' :: cs')
      | S i' =>
          let (db', cs'') := resume ev i' cs' db in
          (db', c :: cs'')
      end
  end.

Fixpoint interleave (evs : list Event) (db : Db) (cs : list Caller) :
  Db * list Caller :=
  match evs with
  | [] => (db, cs)
  | ev :: evs' =>
      let (db', cs') := resume ev (who ev) cs db in
      interleave evs' db' cs'
  end.

(** The id of the job a finished call handed to its caller. *)
Definition result_id (pc : Pc) : option string :=
  match pc with
  | Finished (Ok (Some (i, _))) => Some i
  | _ => None
  end.

Definition returned (c : Caller) : option string := result_id (pc c).

(** Inside the transaction: between a BEGIN that succeeded and the
    COMMIT. *)
Definition in_body (pc : Pc) : bool :=
  match pc with
  | AtSelect | AtCommitEmpty | AtUpdate _ | AtCommit _ => true
  | _ => false
  end.

(** The id of the row a call has selected and not yet committed. *)
Definition pending (pc : Pc) : option string :=
  match pc with
  | AtUpdate j | AtCommit j => Some (id j)
  | _ => None
  end.

Definition nonqueued (i : string) (t : Table) : Prop :=
  forall r, In r t -> id r = i -> status r <> queued.

(** No row of that id is queued, neither in the committed table nor in
    the writer's copy. *)
Definition safe_in (i : string) (db : Db) : Prop :=
  nonqueued i (jobs db)
  /\ forall k t, writer db = Some (k, t) -> nonqueued i t.

Definition free_for (k : Conn) (db : Db) : Prop :=
  writer db = None \/ exists t, writer db = Some (k, t).

(** What holds of the database and the callers at every moment, when
    each caller has a connection of its own. *)
Record Inv (db : Db) (cs : list Caller) : Prop := mkInv {
  inv_conns : NoDup (map conn cs);
  inv_body : forall c, In c cs -> in_body (pc c) = true ->
                       exists t, writer db = Some (conn c, t);
  inv_ret : forall c i, In c cs -> result_id (pc c) = Some i -> safe_in i db;
  inv_pending : forall c c' i, In c cs -> In c' cs ->
                               pending (pc c) = Some i ->
                               result_id (pc c') <> Some i;
  inv_commit : forall c j t, In c cs -> pc c = AtCommit j ->
                             writer db = Some (conn c, t) ->
                             nonqueued (id j) t;
  inv_distinct : forall c c' i, In c cs -> In c' cs -> conn c <> conn c' ->
                                result_id (pc c) = Some i ->
                                result_id (pc c') <> Some i
}.

(** ** Sequences of calls from one process *)

Inductive Op : Type :=
| Enqueue (now : Z) (id : string) (params : JSON.value)
| ClaimNext (now : Z)
| Complete (id : string)
| Fail (id : string) (error : string).

Inductive Reply : Type :=
| Settled (r : Result unit)
| Claimed (r : Result (option (string * JSON.value))).

Definition run_op (k : Conn) (op : Op) (db : Db) : Db * Reply :=
  match op with
  | Enqueue now i p =>
      let (db', r) := addJobToQueue no_faults k now i p db in (db', Settled r)
  | ClaimNext now =>
      let (db', r) := getNextJob no_faults k now db in (db', Claimed r)
  | Complete i =>
      let (db', r) := completeJob no_faults k i db in (db', Settled r)
  | Fail i e =>
      let (db', r) := failJob no_faults k i e db in (db', Settled r)
  end.

Fixpoint run_ops (k : Conn) (ops : list Op) (db : Db) : Db * list Reply :=
  match ops with
  | [] => (db, [])
  | op :: ops' =>
      let (db1, r) := run_op k op db in
      let (db2, rs) := run_ops k ops' db1 in
      (db2, r :: rs)
  end.

(** The ids that the claims among the replies handed out, in order. *)
Fixpoint claimed_ids (rs : list Reply) : list string :=
  match rs with
  | [] => []
  | Claimed (Ok (Some (i, _))) :: rs' => i :: claimed_ids rs'
  | _ :: rs' => claimed_ids rs'
  end.

(** The status column of the first row with the given id. *)
Definition status_of (i : string) (t : Table) : option Status :=
  option_map status (find (has_id i) t).

Definition error_of (i : string) (t : Table) : option (option string) :=
  option_map error (find (has_id i) t).

Definition ids (t : Table) : list string := map id t.

(** The primary key: no two rows with the same id. *)
Fixpoint distinct (l : list string) : bool :=
  match l with
  | [] => true
  | x :: l' => negb (existsb (String.eqb x) l') && distinct l'
  end.

Definition unique_ids (t : Table) : bool := distinct (ids t).

Definition none_queued (t : Table) : bool :=
  forallb (fun r => negb (is_queued r)) t.

(** Connections that are pairwise different: one process per caller. *)
Fixpoint separate (l : list Conn) : bool :=
  match l with
  | [] => true
  | k :: l' => negb (existsb (Nat.eqb k) l') && separate l'
  end.

Definition at_begin (c : Caller) : bool :=
  match pc c with AtBegin => true | _ => false end.

(** Clock readings that never go back. *)
Fixpoint nondecreasing (l : list Z) : bool :=
  match l with
  | [] => true
  | x :: l' => forallb (Z.leb x) l' && nondecreasing l'
  end.

(** A producer's request: the clock reading at the INSERT, the id and the
    params object. *)
Record Request : Type := mkRequest {
  at_time : Z;
  job_id : string;
  payload : JSON.value
}.

Definition enqueue_op (q : Request) : Op :=
  Enqueue (at_time q) (job_id q) (payload q).

(** The row that a request becomes. *)
Definition row_of (q : Request) : Job :=
  mkJob (job_id q) (JSON.stringify (payload q)) queued (at_time q) None None.

(** What the spec expects of claims that follow the requests [l]: one
    request per claim, in the order of insertion, then the sentinel. *)
Fixpoint in_insertion_order (l : list Request) (claims : list Z) :
  list Reply :=
  match claims with
  | [] => []
  | _ :: claims' =>
      match l with
      | [] => Claimed (Ok None) :: in_insertion_order [] claims'
      | q :: l' =>
          Claimed (Ok (Some (job_id q, payload q)))
          :: in_insertion_order l' claims'
      end
  end.

(** The requests in the order of their clock readings, those of equal
    reading in the order of insertion: what ORDER BY createdAt makes of
    them. *)
Fixpoint insert_by_createdAt (q : Request) (l : list Request) :
  list Request :=
  match l with
  | [] => [q]
  | x :: l' =>
      if at_time q <=? at_time x then q :: l
      else x :: insert_by_createdAt q l'
  end.

Fixpoint by_createdAt (l : list Request) : list Request :=
  match l with
  | [] => []
  | q :: l' => insert_by_createdAt q (by_createdAt l')
  end.

(** The oldest of the requests, the first of them among equals, and the
    others. *)
Fixpoint oldest (l : list Request) : option (Request * list Request) :=
  match l with
  | [] => None
  | q :: l' =>
      match oldest l' with
      | None => Some (q, [])
      | Some (m, rest) =>
          if at_time q <=? at_time m then Some (q, l')
          else Some (m, q :: rest)
      end
  end.

(** The row as [getNextJob] leaves it. *)
Definition claimed_row (now : Z) (r : Job) : Job :=
  mkJob (id r) (params r) running (createdAt r) (Some now) (error r).

(** The transitions of the lifecycle
    [queued -> running -> {completed, failed}], each status also staying
    as it is. *)
Definition forward (s s' : Status) : bool :=
  match s, s' with
  | queued, queued | queued, running => true
  | running, running | running, completed | running, failed => true
  | completed, completed | failed, failed => true
  | _, _ => false
  end.

(** What the store does keep to: nothing returns to [queued], and only a
    [queued] job becomes [running]. *)
Definition lenient (s s' : Status) : bool :=
  match s', s with
  | queued, queued => true
  | queued, _ => false
  | running, queued | running, running => true
  | running, _ => false
  | _, _ => true
  end.

(** A row and what a call made of it. *)
Definition evolves (r r' : Job) : Prop :=
  id r' = id r /\ params r' = params r /\ createdAt r' = createdAt r
  /\ lenient (status r) (status r') = true.

(** A table and what calls made of it: the rows it had, each evolved,
    then the rows inserted since. *)
Definition grows (t t' : Table) : Prop :=
  exists t1 ext, t' = (t1 ++ ext)%list /\ Forall2 evolves t t1.

(** Some row of that id is past [queued]. *)
Definition taken (i : string) (t : Table) : Prop :=
  exists r, In r t /\ id r = i /\ status r <> queued.

(** ** Sample data *)

Definition cherry_pick : JSON.value :=
  JSON.Obj [("repository", JSON.Str "octo/repo");
            ("targetBranch", JSON.Str "release-1");
            ("prFilterQuery", JSON.Str "label:backport")].

Definition other_pick : JSON.value :=
  JSON.Obj [("repository", JSON.Str "octo/site");
            ("targetBranch", JSON.Str "main");
            ("prFilterQuery", JSON.Str "is:merged");
            ("retries", JSON.Arr [JSON.Num 3; JSON.Null])].

Definition fresh_db : Db := initQueueDb None.

Definition worker : Conn := 1%nat.
Definition other_worker : Conn := 2%nat.

(** One queued job ["j1"]. *)
Definition db_j1 : Db :=
  fst (run_ops worker [Enqueue 0 "j1" cherry_pick] fresh_db).

(** Jobs ["j1"] (claimed) and ["j2"] (queued). *)
Definition db_j1_j2 : Db :=
  fst (run_ops worker
         [Enqueue 0 "j1" cherry_pick; Enqueue 1 "j2" other_pick; ClaimNext 2]
         fresh_db).

(** The other worker is inside its write transaction. *)
Definition db_locked : Db :=
  mkDb (jobs db_j1) (Some (other_worker, jobs db_j1)).


Definition at_clock (now : Z) (w : nat) : Event := mkEvent w now None.

(** Two workers, each on its own connection, ask for a job; the second
    one's BEGIN comes while the first is inside its transaction. *)
Definition two_workers : list Caller :=
  [mkCaller worker AtBegin; mkCaller other_worker AtBegin].

Definition contended : list Event :=
  map (at_clock 9) [0; 1; 1; 0; 0; 0]%nat.

(** Four overlapping calls in one process, all on its one handle. *)
Definition one_handle : list Caller := repeat (mkCaller worker AtBegin) 4.

Definition overlapping : list Event :=
  map (at_clock 9) [0; 0; 1; 1; 2; 2; 0; 0; 3; 2; 2; 3; 3; 3]%nat.

(** A job is enqueued, claimed and failed with its own id as the error
    text. *)
Definition failed_history : list Op :=
  [Enqueue 0 "j1" cherry_pick; ClaimNext 1; Fail "j1" "j1"].

Definition two_requests : list Request :=
  [mkRequest 0 "A" cherry_pick; mkRequest 1 "B" other_pick].

(** Two requests of which the second has the earlier clock reading. *)
Definition late_first : list Request :=
  [mkRequest 5 "A" cherry_pick; mkRequest 3 "B" other_pick].

(** Jobs ["A"] and ["B"], both queued. *)
Definition db_A_B : Db :=
  fst (run_ops worker (map enqueue_op two_requests) fresh_db).

(** Two jobs are enqueued and claimed, the first one is failed and then
    completed, and a third claim finds nothing. *)
Definition full_history : list Op :=
  (map enqueue_op two_requests
   ++ [ClaimNext 2; Fail "A" "A"; ClaimNext 3; Complete "A"; ClaimNext 4])%list.

(** The first worker's call runs to its end, then the second one's. *)
Definition in_turn : list Event :=
  map (at_clock 9) [0; 0; 0; 0; 1; 1; 1; 1]%nat.

(** ** What every call leaves of a row *)

(** A row and what later calls made of it: the id, the params text and the
    time of insertion are kept, and once the row is past [queued] it stays
    so and keeps its [processedAt]. *)
Definition ages (r r' : Job) : Prop :=
  id r' = id r /\ params r' = params r /\ createdAt r' = createdAt r
  /\ (status r <> queued ->
      status r' <> queued /\ processedAt r' = processedAt r).

(** The rows of [t] are all in [t'], at their places. *)
Definition persists (t t' : Table) : Prop :=
  exists t1 ext, t' = (t1 ++ ext)%list /\ Forall2 ages t t1.

(** The row as [completeJob] leaves it. *)
Definition completed_row (r : Job) : Job :=
  mkJob (id r) (params r) completed (createdAt r) (processedAt r) (error r).

(** The engine refuses the UPDATE of [getNextJob]. *)
Definition update_fails : Faults :=
  fun s => match s with UPDATE => Some SQLITE_IOERR | _ => None end.

(** ** The tool server (index.ts)

    The server that puts jobs into the queue: the schema of the
    cherry-pick tool, [enqueueCherryPickJob], the handlers for the list
    of tools and for a tool call, and the port of [runServer]. *)

(** [JSON.stringify(value, null, 2)]: members and elements on lines of
    their own, two more spaces at every level. *)
Definition newline : string := String (ascii_of_nat 10) "".

Fixpoint join (sep : string) (l : list string) : string :=
  match l with
  | [] => ""
  | [x] => x
  | x :: l' => x ++ sep ++ join sep l'
  end.

Fixpoint stringify_indented (indent : string) (v : JSON.value) : string :=
  match v with
  | JSON.Arr [] => "[]"
  | JSON.Arr l =>
      "[" ++ newline ++ indent ++ "  "
      ++ join ("," ++ newline ++ indent ++ "  ")
              (map (stringify_indented (indent ++ "  ")) l)
      ++ newline ++ indent ++ "]"
  | JSON.Obj [] => "{}"
  | JSON.Obj l =>
      "{" ++ newline ++ indent ++ "  "
      ++ join ("," ++ newline ++ indent ++ "  ")
              (map (fun kv =>
                      JSON.quote (fst kv) ++ ": "
                      ++ stringify_indented (indent ++ "  ") (snd kv)) l)
      ++ newline ++ indent ++ "}"
  | _ => JSON.stringify v
  end.

(** [CherryPickParamsType]; [callbackUrl] is [None] when the property is
    undefined. *)
Record CherryPickParamsType : Type := mkCherryPick {
  repository : string;
  targetBranch : string;
  prFilterQuery : string;
  callbackUrl : option string
}.

(** [JobStatusType]. *)
Record JobStatusType : Type := mkJobStatus {
  jobId : string;
  jobStatus : Status;
  message : string
}.

(** What a handler of the server throws. *)
Inductive Failure : Type :=
| Engine (e : Error)           (* an error of the queue, not caught *)
| MissingParameters            (* Error('Missing required parameters: ...') *)
| ZodError                     (* thrown by CherryPickParams.parse *)
| UnknownTool (name : string). (* Error(`Unknown tool: ${name}`) *)

Inductive Outcome (A : Type) : Type :=
| Done (a : A)
| Failed (f : Failure).
Arguments Done {A} a.
Arguments Failed {A} f.

(** The params object as [JSON.stringify] sees it: a property whose value
    is undefined is left out. *)
Definition params_object (p : CherryPickParamsType) : JSON.value :=
  JSON.Obj
    ([("repository", JSON.Str (repository p));
      ("targetBranch", JSON.Str (targetBranch p));
      ("prFilterQuery", JSON.Str (prFilterQuery p))]
     ++ match callbackUrl p with
        | Some u => [("callbackUrl", JSON.Str u)]
        | None => []
        end)%list.

(** [!s] for a string [s]. *)
Definition is_empty (s : string) : bool :=
  match s with
  | EmptyString => true
  | String _ _ => false
  end.

(** Whether connection [k] is inside a transaction of its own. *)
Definition in_transaction (k : Conn) (db : Db) : bool :=
  match writer db with
  | Some (k', _) => Nat.eqb k k'
  | None => false
  end.

(** [enqueueCherryPickJob] (lines 140-164); [uuid] is what [randomUUID]
    returns to this call. *)
Definition enqueueCherryPickJob (F : Faults) (k : Conn) (now : Z)
           (uuid : string) (params : CherryPickParamsType) :
  Db -> Db * Outcome JobStatusType :=
  fun db =>
    if is_empty (repository params) || is_empty (targetBranch params)
       || is_empty (prFilterQuery params)
    then (db, Failed MissingParameters)
    else
      match addJobToQueue F k now uuid (params_object params) db with
      | (db', Ok _) =>
          (db', Done (mkJobStatus uuid queued
                        "Cherry-pick job has been queued successfully."))
      | (db', Throw e) => (db', Failed (Engine e))
      end.

Section Schema.

(** What [z.string().url()] accepts. *)
Variable is_url : string -> bool.

Definition string_field (k : string) (l : list (string * JSON.value)) :
  option string :=
  match JSON.lookup k l with
  | Some (JSON.Str s) => Some s
  | _ => None
  end.

(** [CherryPickParams.parse] (lines 32-37): an object with three strings
    and, if it has a [callbackUrl] at all, a string that is a URL; keys
    that the schema does not name are dropped.  [None] stands for the
    ZodError. *)
Definition CherryPickParams_parse (args : option JSON.value) :
  option CherryPickParamsType :=
  match args with
  | Some (JSON.Obj l) =>
      match string_field "repository" l, string_field "targetBranch" l,
            string_field "prFilterQuery" l with
      | Some r, Some t, Some q =>
          match JSON.lookup "callbackUrl" l with
          | None => Some (mkCherryPick r t q None)
          | Some (JSON.Str u) =>
              if is_url u then Some (mkCherryPick r t q (Some u)) else None
          | Some _ => None
          end
      | _, _, _ => None
      end
  | _ => None
  end.

Definition server_info : JSON.value :=
  JSON.Obj
    [("server_name", JSON.Str "github-helper-server");
     ("version", JSON.Str "1.0.0");
     ("transport", JSON.Str "stdio");
     ("capabilities", JSON.Arr [JSON.Str "tools"]);
     ("description",
      JSON.Str "GitHub Helper MCP server using stdio transport (MCP 2025-06-18 specification)")].

(** The handler of a tool call (lines 95-133); the reply is given by the
    text of its one content item. *)
Definition callTool (F : Faults) (k : Conn) (now : Z) (uuid : string)
           (name : string) (args : option JSON.value) :
  Db -> Db * Outcome string :=
  fun db =>
    if String.eqb name "cherry-pick" then
      match CherryPickParams_parse args with
      | None => (db, Failed ZodError)
      | Some p =>
          match enqueueCherryPickJob F k now uuid p db with
          | (db', Done result) =>
              (db', Done ("Cherry-pick job enqueued with ID: "
                          ++ jobId result))
          | (db', Failed f) => (db', Failed f)
          end
      end
    else if String.eqb name "get_server_info" then
      (db, Done (stringify_indented "" server_info))
    else (db, Failed (UnknownTool name)).

End Schema.

(** A tool as the list of tools describes it. *)
Record Tool : Type := mkTool {
  tool_name : string;
  description : string;
  properties : list (string * string);
  required : list string
}.

(** The handler of the list of tools (lines 57-93). *)
Definition listTools : list Tool :=
  [mkTool "cherry-pick"
     "Cherry-pick commits from PRs based on a filter query to a target branch"
     [("repository", "Repository name");
      ("targetBranch", "Target branch for cherry-pick");
      ("prFilterQuery", "Pull request filter query");
      ("callbackUrl", "Optional callback URL")]
     ["repository"; "targetBranch"; "prFilterQuery"];
   mkTool "health" "Health check tool" [] [];
   mkTool "get_server_info" "Get information about this MCP server" [] []].

(** White space as [parseInt], [trim] and [\s] know it, within the 8-bit
    alphabet: TAB, LF, VT, FF, CR, SP and NBSP. *)
Definition is_space (c : ascii) : bool :=
  let n := N_of_ascii c in
  ((9 <=? n)%N && (n <=? 13)%N) || (n =? 32)%N || (n =? 160)%N.

Fixpoint trim_start (s : string) : string :=
  match s with
  | String c r => if is_space c then trim_start r else s
  | EmptyString => s
  end.

(** [parseInt(s, 10)]: white space, a sign, then the digits there are;
    [None] stands for NaN.  The result is the number JavaScript gives as
    long as it is a safe integer. *)
Definition parseInt10 (s : string) : option Z :=
  let digits_of (r : string) : option N :=
    match fst (JSON.span_digits r) with
    | EmptyString => None
    | ds => option_map N.of_uint (NilEmpty.uint_of_string ds)
    end in
  match trim_start s with
  | String c r =>
      if Ascii.eqb c "-" then option_map (fun n => - Z.of_N n) (digits_of r)
      else if Ascii.eqb c "+" then option_map Z.of_N (digits_of r)
      else option_map Z.of_N (digits_of (String c r))
  | EmptyString => None
  end.

(** The port of [runServer] (line 169):
    [process.env.PORT ? parseInt(process.env.PORT, 10) : 8080]. *)
Definition port (PORT : option string) : option Z :=
  match PORT with
  | None => Some 8080
  | Some s => if is_empty s then Some 8080 else parseInt10 s
  end.

(** Arguments of a cherry-pick call that carry a key the schema does not
    know. *)
Definition sample_args : JSON.value :=
  JSON.Obj [("repository", JSON.Str "octo/repo");
            ("priority", JSON.Num 9);
            ("targetBranch", JSON.Str "release-1");
            ("prFilterQuery", JSON.Str "label:backport")].

Definition any_url (u : string) : bool := true.

(** ** The web agent (agent.ts)

    [callMcpServerTool] reads the reply of the tool server from a stream:
    [finishWith] takes the text received so far apart, and the listeners
    on the stream decide which event settles the promise. *)

Definition is_newline (c : ascii) : bool := Ascii.eqb c (ascii_of_nat 10).

(** Puts [c] in front of the first segment. *)
Definition extend (c : ascii) (l : list string) : list string :=
  match l with
  | s :: l' => String c s :: l'
  | [] => [String c ""]
  end.

(** [raw.split(/\n\n+/)]: the text is cut at every run of two or more
    line feeds.  [sep] says that the characters just read belong to such
    a run. *)
Fixpoint split_from (sep : bool) (s : string) : list string :=
  match s with
  | EmptyString => [""]
  | String c r =>
      if is_newline c then
        if sep then split_from true r
        else
          match r with
          | String c' r' =>
              if is_newline c' then "" :: split_from true r'
              else extend c (split_from false r)
          | EmptyString => extend c (split_from false r)
          end
      else extend c (split_from false r)
  end.

Definition split_blank_lines (s : string) : list string :=
  split_from false s.

(** [s.trim()]. *)
Fixpoint trim_end (s : string) : string :=
  match s with
  | EmptyString => ""
  | String c r =>
      match trim_end r with
      | EmptyString => if is_space c then "" else String c ""
      | r' => String c r'
      end
  end.

Definition trim (s : string) : string := trim_end (trim_start s).

(** [seg.startsWith('data:')] and [seg.replace(/^data:\s*/, '')], for a
    segment that starts so. *)
Definition data_payload (seg : string) : option string :=
  option_map trim_start (JSON.strip_prefix "data:" seg).

Definition is_data (seg : string) : bool :=
  match data_payload seg with
  | Some _ => true
  | None => false
  end.

(** The value that [finishWith] (lines 145-159) resolves the promise
    with, when it is the first to settle it: the JSON value of the first
    segment that starts with [data:], and the raw text as a string if
    there is no such segment or its payload is not JSON.  The payload is
    read by the parser of the integer fragment. *)
Definition finishWith (raw : string) : JSON.value :=
  let segments :=
    filter (fun s => negb (is_empty s))
           (map trim (split_blank_lines raw)) in
  match find is_data segments with
  | None => JSON.Str raw
  | Some firstData =>
      match data_payload firstData with
      | Some payload =>
          match JSON.parse payload with
          | Some v => v
          | None => JSON.Str raw
          end
      | None => JSON.Str raw
      end
  end.

(** What the stream and the timer can tell the listeners. *)
Inductive StreamEvent : Type :=
| on_data (chunk : string)
| on_end
| on_error (err : string)
| on_timeout.

Inductive Promise : Type :=
| Pending
| Resolved (v : JSON.value)
| Rejected (err : string).

(** The variables of the promise's executor (lines 140-182). *)
Record Listener : Type := mkListener {
  buffer : string;
  resolved : bool;
  promise : Promise
}.

Definition listening : Listener := mkListener "" false Pending.

(** [resolve] and [reject] act on a pending promise only. *)
Definition settle (p new : Promise) : Promise :=
  match p with
  | Pending => new
  | _ => p
  end.

Definition finish (st : Listener) : Listener :=
  if resolved st then st
  else mkListener (buffer st) true
         (settle (promise st) (Resolved (finishWith (buffer st)))).

Definition timeout_text : string :=
  "[MCP tool call timeout waiting for SSE data]".

Definition handle (st : Listener) (e : StreamEvent) : Listener :=
  match e with
  | on_data chunk =>
      finish (mkListener (buffer st ++ chunk) (resolved st) (promise st))
  | on_end => finish st
  | on_error err =>
      if resolved st then st
      else mkListener (buffer st) true (settle (promise st) (Rejected err))
  | on_timeout =>
      if resolved st then st
      else mkListener (buffer st) true
             (settle (promise st) (Resolved (JSON.Str timeout_text)))
  end.

(** The promise that [callMcpServerTool] returns, after the events. *)
Definition callMcpServerTool (events : list StreamEvent) : Promise :=
  promise (fold_left handle events listening).

Definition no_newline (s : string) : bool :=
  forallb (fun c => negb (is_newline c)) (list_ascii_of_string s).

Definition blank_line : string :=
  String (ascii_of_nat 10) (String (ascii_of_nat 10) "").

(** *** The request handler

    A JavaScript value is a JSON value or [undefined], which is [None]. *)

Definition truthy (v : option JSON.value) : bool :=
  match v with
  | None => false
  | Some JSON.Null => false
  | Some (JSON.Bool b) => b
  | Some (JSON.Num z) => negb (z =? 0)
  | Some (JSON.Str s) => negb (is_empty s)
  | Some (JSON.Arr _) => true
  | Some (JSON.Obj _) => true
  end.

(** [v?.k], for the property names that the handler reads ([candidates],
    [content], [parts], [text], [functionCall], [name], [args],
    [prompt]): only an object has such a property. *)
Definition get (k : string) (v : option JSON.value) : option JSON.value :=
  match v with
  | Some (JSON.Obj l) => JSON.lookup k l
  | _ => None
  end.

(** [v?.[0]]. *)
Definition first (v : option JSON.value) : option JSON.value :=
  match v with
  | Some (JSON.Arr (x :: _)) => Some x
  | Some (JSON.Str (String c _)) => Some (JSON.Str (String c ""))
  | Some (JSON.Obj l) => JSON.lookup "0" l
  | _ => None
  end.

Inductive Thrown (A : Type) : Type :=
| Returned (a : A)
| TypeError.
Arguments Returned {A} a.
Arguments TypeError {A}.

(** The callback of [find] on line 72: [p && p.functionCall]. *)
Definition has_call (p : JSON.value) : bool :=
  truthy (Some p) && truthy (get "functionCall" (Some p)).

(** Line 72: [candidate?.content?.parts?.find(...)?.functionCall].  A
    [parts] that is neither nullish nor an array has no [find] to call. *)
Definition toolCall_of (candidate : option JSON.value) :
  Thrown (option JSON.value) :=
  match get "parts" (get "content" candidate) with
  | None => Returned None
  | Some JSON.Null => Returned None
  | Some (JSON.Arr l) =>
      Returned (get "functionCall" (find has_call l))
  | Some _ => TypeError
  end.

(** Lines 84-91: where the text of the answer is looked for. *)
Definition text_of (candidate : option JSON.value) : option JSON.value :=
  let elsewhere :=
    if truthy (get "text" (get "content" candidate))
    then get "text" (get "content" candidate)
    else option_map (fun c => JSON.Str (JSON.stringify c)) candidate in
  match get "parts" (get "content" candidate) with
  | Some (JSON.Arr (p :: _)) =>
      if truthy (get "text" (Some p)) then get "text" (Some p)
      else elsewhere
  | _ => elsewhere
  end.

(** The requests that the handler sends out. *)
Inductive Call : Type :=
| GeminiCall (prompt : JSON.value)
| McpCall (name args : option JSON.value).

(** How the handler ends: with an error response, whose [details] are
    left out here, with the response of line 185, with an exception that
    leaves the handler, or never, waiting for a promise. *)
Inductive Answer : Type :=
| Refused (code : Z) (error : string)
| Success (llmResponse : option JSON.value)
          (toolCallResult geminiRaw : JSON.value)
| Exception
| Waiting.

(** How an awaited request ends: with a value, with an exception, or not
    at all. *)
Inductive Awaited (A : Type) : Type :=
| Answers (a : A)
| Fails
| Hangs.
Arguments Answers {A} a.
Arguments Fails {A}.
Arguments Hangs {A}.

Section Handler.

(** The environment and the two services.  [gemini] is the request of
    lines 51-68, which has no timeout: it answers the prompt with the
    data of its response, fails, or never settles.  [mcp] is the request
    of lines 132-137, which has a timeout: it fails ([None]) or answers
    with a stream, given by the events that come before the timer of
    line 175. *)
Variable GEMINI_API_KEY : option string.
Variable gemini : JSON.value -> Awaited JSON.value.
Variable mcp :
  option JSON.value -> option JSON.value -> option (list StreamEvent).

Definition key_configured : bool :=
  match GEMINI_API_KEY with
  | Some k => negb (is_empty k)
  | None => false
  end.

(** The [try] block of the handler (lines 49-111) and the response of
    line 185, with the requests sent. *)
Definition answer_prompt (prompt : JSON.value) : list Call * Answer :=
  match gemini prompt with
  | Hangs => ([GeminiCall prompt], Waiting)
  | Fails => ([GeminiCall prompt], Refused 500 "Gemini API error")
  | Answers geminiRaw =>
      let candidate := first (get "candidates" (Some geminiRaw)) in
      match toolCall_of candidate with
      | TypeError => ([GeminiCall prompt], Refused 500 "Gemini API error")
      | Returned toolCall =>
          if truthy toolCall then
            let name := get "name" toolCall in
            let args := get "args" toolCall in
            let calls := [GeminiCall prompt; McpCall name args] in
            match mcp name args with
            | None => (calls, Refused 500 "Gemini API error")
            | Some events =>
                match callMcpServerTool (events ++ [on_timeout])%list with
                | Resolved v =>
                    (calls,
                     Success
                       (Some (JSON.Str
                                ("Tool call result: " ++ JSON.stringify v)))
                       v geminiRaw)
                | Rejected _ => (calls, Refused 500 "Gemini API error")
                | Pending => (calls, Waiting)
                end
            end
          else
            ([GeminiCall prompt],
             Success (text_of candidate) JSON.Null geminiRaw)
      end
  end.

(** [handler] (lines 32-186): the three guards, then the [try] block. *)
Definition handler (method : string) (body : option JSON.value) :
  list Call * Answer :=
  if negb (String.eqb method "POST") then
    ([], Refused 405 "Method not allowed")
  else
    match body with
    | None => ([], Exception)
    | Some JSON.Null => ([], Exception)
    | Some _ =>
        if negb (truthy (get "prompt" body)) then
          ([], Refused 400 "Prompt is required")
        else if negb key_configured then
          ([], Refused 500 "Gemini API key not configured in environment.")
        else
          match get "prompt" body with
          | Some prompt => answer_prompt prompt
          | None => ([], Refused 400 "Prompt is required")
          end
    end.

End Handler.

(** A response of Gemini with these parts in its first candidate. *)
Definition gemini_response (parts : list JSON.value) : JSON.value :=
  JSON.Obj
    [("candidates",
      JSON.Arr [JSON.Obj [("content", JSON.Obj [("parts", JSON.Arr parts)])]])].

Definition call_part (name : string) (args : JSON.value) : JSON.value :=
  JSON.Obj [("functionCall",
             JSON.Obj [("name", JSON.Str name); ("args", args)])].

Definition text_part (text : string) : JSON.value :=
  JSON.Obj [("text", JSON.Str text)].

(** A conversation for the examples: Gemini asks for a cherry-pick and
    the tool server answers with one frame. *)
Definition sample_body : JSON.value :=
  JSON.Obj [("prompt", JSON.Str "backport the fix")].

Definition sample_reply : JSON.value := JSON.Obj [("jobId", JSON.Str "u-1")].

Definition sample_gemini (prompt : JSON.value) : Awaited JSON.value :=
  Answers (gemini_response
          [text_part "On it."; call_part "cherry-pick" sample_args]).

Definition sample_mcp (name args : option JSON.value) :
  option (list StreamEvent) :=
  Some [on_data ("data:" ++ " " ++ JSON.stringify sample_reply
                 ++ blank_line ++ "")].

(** * Proofs *)

(** ** Facts about the JSON printer and parser *)

Section JsonFacts.
Import JSON.

Lemma append_assoc (a b c : string) : (a ++ b) ++ c = a ++ (b ++ c).
Proof. induction a as [|x a IH]; simpl; [reflexivity | now rewrite IH]. Qed.

Lemma length_append (a b : string) :
  String.length (a ++ b) = (String.length a + String.length b)%nat.
Proof. induction a as [|x a IH]; simpl; [reflexivity | now rewrite IH]. Qed.

Lemma parse_chars_escape_char (c : ascii) (tl : string) :
  parse_chars (escape_char c ++ tl) = push c (parse_chars tl).
Proof. destruct c as [[] [] [] [] [] [] [] []]; reflexivity. Qed.

Lemma parse_chars_escape (s rest : string) :
  parse_chars (escape s ++ String dquote rest) = Some (s, rest).
Proof.
  induction s as [|c s IH]; simpl.
  - reflexivity.
  - now rewrite append_assoc, parse_chars_escape_char, IH.
Qed.

Lemma span_digits_uint (d : Decimal.uint) (rest : string) :
  starts_digit rest = false ->
  span_digits (NilEmpty.string_of_uint d ++ rest)
  = (NilEmpty.string_of_uint d, rest).
Proof.
  intros Hrest.
  induction d; simpl; try (rewrite IHd; reflexivity).
  destruct rest as [|c r]; simpl in *; [reflexivity | now rewrite Hrest].
Qed.

Lemma to_uint_normal (n : N) : Decimal.unorm (N.to_uint n) = N.to_uint n.
Proof.
  rewrite <- (DecimalN.Unsigned.to_of (N.to_uint n)).
  now rewrite DecimalN.Unsigned.of_to.
Qed.

Lemma parse_nat_digits (n : N) (rest : string) :
  starts_digit rest = false ->
  parse_nat (digits n ++ rest) = Some (n, rest).
Proof.
  intros Hrest. unfold parse_nat, digits.
  rewrite (span_digits_uint _ _ Hrest), NilEmpty.usu, to_uint_normal.
  destruct (Decimal.uint_eq_dec (N.to_uint n) (N.to_uint n)) as [_|ne];
    [| now elim ne].
  now rewrite DecimalN.Unsigned.of_to.
Qed.

Lemma digits_head (n : N) :
  exists c r, digits n = String c r /\ is_digit c = true.
Proof.
  unfold digits.
  assert (Hnn : N.to_uint n <> Decimal.Nil).
  { destruct n as [|p]; [discriminate|].
    apply DecimalPos.Unsigned.to_uint_nonnil. }
  destruct (N.to_uint n); try (now elim Hnn); simpl; eauto.
Qed.

Lemma parse_number_text (z : Z) (rest : string) :
  starts_digit rest = false ->
  parse_number (number_text z ++ rest) = Some (z, rest).
Proof.
  intros Hrest. unfold number_text.
  destruct (Z.ltb_spec z 0) as [Hneg|Hpos].
  - simpl. rewrite (parse_nat_digits _ _ Hrest). f_equal. f_equal. lia.
  - destruct (digits_head (Z.to_N z)) as (c & r & Hd & Hc).
    assert (Hminus : Ascii.eqb c "-" = false).
    { destruct c as [[] [] [] [] [] [] [] []]; try discriminate; reflexivity. }
    unfold parse_number.
    rewrite Hd. simpl. rewrite Hminus.
    change (String c (r ++ rest)) with (String c r ++ rest). rewrite <- Hd.
    rewrite (parse_nat_digits _ _ Hrest). f_equal. f_equal. lia.
Qed.

Lemma stringify_head (v : value) :
  exists c r, stringify v = String c r /\ value_start c = true.
Proof.
  destruct v as [|[]|z|s|l|l]; simpl; eauto.
  - unfold number_text. destruct (z <? 0); [eauto|].
    destruct (digits_head (Z.to_N z)) as (c & r & -> & Hc).
    exists c, r. split; [reflexivity|]. unfold value_start. now rewrite Hc.
  - unfold quote. eauto.
Qed.

Lemma value_start_spec (c : ascii) :
  value_start c = true ->
  is_ws c = false /\ Ascii.eqb c "]" = false /\ Ascii.eqb c "}" = false.
Proof.
  destruct c as [[] [] [] [] [] [] [] []]; intros H; try discriminate H;
    repeat split.
Qed.

Lemma parse_value_number (fuel : nat) (c : ascii) (r : string) :
  is_digit c || Ascii.eqb c "-" = true ->
  parse_value (S fuel) (String c r)
  = match parse_number (String c r) with
    | Some (z, rest) => Some (Num z, rest)
    | None => None
    end.
Proof.
  destruct c as [[] [] [] [] [] [] [] []]; intros H; try discriminate H;
    reflexivity.
Qed.

Lemma number_text_head (z : Z) :
  exists c r, number_text z = String c r
              /\ is_digit c || Ascii.eqb c "-" = true.
Proof.
  unfold number_text. destruct (z <? 0); [eauto|].
  destruct (digits_head (Z.to_N z)) as (c & r & -> & Hc).
  exists c, r. now rewrite Hc.
Qed.

Lemma fresh_lookup (k : string) (l : list (string * value)) :
  fresh k l = true -> lookup k l = None.
Proof.
  induction l as [|[k' v] l IH]; simpl; [reflexivity|].
  destruct (String.eqb k k'); simpl; [discriminate | exact IH].
Qed.

Lemma skip_ws_start (c : ascii) (r : string) :
  is_ws c = false -> skip_ws (String c r) = String c r.
Proof. intros H. simpl. now rewrite H. Qed.

Lemma parse_value_array (fuel : nat) (r : string) :
  parse_value (S fuel) (String "[" r)
  = match skip_ws r with
    | String c' r' =>
        if Ascii.eqb c' "]" then Some (Arr [], r')
        else match parse_elements fuel r with
             | Some (l, rest) => Some (Arr l, rest)
             | None => None
             end
    | EmptyString => None
    end.
Proof. reflexivity. Qed.

Lemma parse_value_object (fuel : nat) (r : string) :
  parse_value (S fuel) (String "{" r)
  = match skip_ws r with
    | String c' r' =>
        if Ascii.eqb c' "}" then Some (Obj [], r')
        else match parse_members fuel r with
             | Some (l, rest) => Some (Obj l, rest)
             | None => None
             end
    | EmptyString => None
    end.
Proof. reflexivity. Qed.

Lemma size_Arr (l : list value) : size (Arr l) = S (elements_size l).
Proof. reflexivity. Qed.

Lemma size_Obj (l : list (string * value)) :
  size (Obj l) = S (members_size l).
Proof. reflexivity. Qed.

Lemma elements_size_cons (x : value) (l : list value) :
  elements_size (x :: l) = S (size x + elements_size l).
Proof. reflexivity. Qed.

Lemma members_size_cons (kv : string * value) (l : list (string * value)) :
  members_size (kv :: l) = S (size (snd kv) + members_size l).
Proof. reflexivity. Qed.

Lemma member_text_app (kv : string * value) (tail : string) :
  member_text kv ++ tail
  = String dquote
      (escape (fst kv)
       ++ String dquote (String ":" (stringify (snd kv) ++ tail))).
Proof.
  unfold member_text, quote. cbn [append].
  now rewrite !append_assoc.
Qed.

Lemma roundtrip_fuel (n : nat) :
  (forall v rest,
      (size v <= n)%nat -> plain v = true -> starts_digit rest = false ->
      parse_value n (stringify v ++ rest) = Some (v, rest))
  /\ (forall l rest,
         l <> [] -> (elements_size l <= n)%nat -> forallb plain l = true ->
         parse_elements n (items stringify "]" l ++ rest) = Some (l, rest))
  /\ (forall l rest,
         l <> [] -> (members_size l <= n)%nat -> distinct_keys l = true ->
         forallb (fun kv => plain (snd kv)) l = true ->
         parse_members n (items member_text "}" l ++ rest) = Some (l, rest)).
Proof.
  induction n as [|n (IHv & IHe & IHm)].
  - repeat split.
    + intros [] ? H; simpl in H; lia.
    + intros [|x l] ? Hl H; [now elim Hl | simpl in H; lia].
    + intros [|x l] ? Hl H; [now elim Hl | simpl in H; lia].
  - repeat split.
    + intros v rest Hsize Hplain Hrest.
      destruct v as [|[]|z|s|l|l]; try reflexivity.
      * destruct (number_text_head z) as (c & r & Hz & Hc).
        simpl stringify. pose proof (parse_number_text z rest Hrest) as Hp.
        rewrite Hz in *. simpl append in *.
        now rewrite (parse_value_number _ _ _ Hc), Hp.
      * simpl. unfold quote. simpl. rewrite append_assoc. simpl.
        now rewrite parse_chars_escape.
      * destruct l as [|x l]; [reflexivity|].
        destruct (stringify_head x) as (c & r & Hx & Hc).
        destruct (value_start_spec c Hc) as (Hws & Hclose & _).
        change (stringify (Arr (x :: l)) ++ rest)
          with (String "[" (items stringify "]" (x :: l) ++ rest)).
        assert (Hskip : exists r',
                   skip_ws (items stringify "]" (x :: l) ++ rest)
                   = String c r').
        { destruct l; simpl items; rewrite Hx; simpl append;
            rewrite (skip_ws_start _ _ Hws); eauto. }
        destruct Hskip as (r' & Hr').
        rewrite parse_value_array, Hr', Hclose.
        rewrite IHe;
          [reflexivity | discriminate | rewrite size_Arr in Hsize; lia
          | exact Hplain].
      * destruct l as [|[k x] l]; [reflexivity|].
        change (stringify (Obj ((k, x) :: l)) ++ rest)
          with (String "{" (items member_text "}" ((k, x) :: l) ++ rest)).
        assert (Hskip : exists r',
                   skip_ws (items member_text "}" ((k, x) :: l) ++ rest)
                   = String dquote r').
        { destruct l; simpl; eauto. }
        destruct Hskip as (r' & Hr').
        rewrite parse_value_object, Hr'.
        change (Ascii.eqb dquote "}") with false. cbv iota.
        simpl in Hplain. apply andb_prop in Hplain as [Hd Hp].
        rewrite IHm;
          [reflexivity | discriminate | rewrite size_Obj in Hsize; lia
          | exact Hd | exact Hp].
    + intros [|x l] rest Hl Hsize Hplain; [now elim Hl|].
      rewrite elements_size_cons in Hsize.
      simpl in Hplain. apply andb_prop in Hplain as [Hx Hp].
      cbn [parse_elements].
      destruct l as [|y l].
      * simpl items. rewrite append_assoc.
        rewrite IHv; [reflexivity | lia | exact Hx | reflexivity].
      * change (items stringify "]" (x :: y :: l))
          with (stringify x ++ String "," (items stringify "]" (y :: l))).
        rewrite append_assoc.
        rewrite IHv; [| lia | exact Hx | reflexivity].
        cbn [append]. rewrite skip_ws_start by reflexivity.
        change (Ascii.eqb "," ",") with true. cbv iota.
        rewrite IHe; [reflexivity | discriminate | lia | exact Hp].
    + intros [|[k x] l] rest Hl Hsize Hd Hplain; [now elim Hl|].
      rewrite members_size_cons in Hsize. simpl in Hplain, Hd, Hsize.
      apply andb_prop in Hplain as [Hx Hp]. apply andb_prop in Hd as [Hf Hd].
      cbn [parse_members].
      assert (Hitems : exists tail,
                 items member_text "}" ((k, x) :: l) ++ rest
                 = member_text (k, x) ++ tail
                 /\ ((l = [] /\ tail = String "}" rest)
                     \/ (l <> []
                         /\ tail = String ","
                                     (items member_text "}" l ++ rest)))).
      { destruct l as [|y l].
        - exists (String "}" rest). split; [|left; split; reflexivity].
          change (items member_text "}" [(k, x)])
            with (member_text (k, x) ++ String "}" "").
          now rewrite append_assoc.
        - exists (String "," (items member_text "}" (y :: l) ++ rest)).
          split; [|right; split; [discriminate|reflexivity]].
          change (items member_text "}" ((k, x) :: y :: l))
            with (member_text (k, x)
                  ++ String "," (items member_text "}" (y :: l))).
          now rewrite append_assoc. }
      destruct Hitems as (tail & -> & Htail).
      rewrite member_text_app. cbn [fst snd].
      rewrite skip_ws_start by reflexivity.
      rewrite Ascii.eqb_refl, parse_chars_escape.
      rewrite skip_ws_start by reflexivity.
      change (Ascii.eqb ":" ":") with true. cbv iota.
      rewrite IHv;
        [| lia | exact Hx | destruct Htail as [[_ ->]|[_ ->]]; reflexivity].
      destruct Htail as [[-> ->]|[Hne ->]].
      * reflexivity.
      * rewrite skip_ws_start by reflexivity.
        change (Ascii.eqb "," ",") with true. cbv iota.
        rewrite IHm; [| exact Hne | lia | exact Hd | exact Hp].
        unfold member. now rewrite (fresh_lookup _ _ Hf).
Qed.

Lemma value_induction (P : value -> Prop) :
  P Null -> (forall b, P (Bool b)) -> (forall z, P (Num z)) ->
  (forall s, P (Str s)) ->
  (forall l, Forall P l -> P (Arr l)) ->
  (forall l, Forall (fun kv => P (snd kv)) l -> P (Obj l)) ->
  forall v, P v.
Proof.
  intros HNull HBool HNum HStr HArr HObj.
  refine (fix go (v : value) : P v :=
            match v with
            | Null => HNull
            | Bool b => HBool b
            | Num z => HNum z
            | Str s => HStr s
            | Arr l =>
                HArr l ((fix all (l : list value) : Forall P l :=
                           match l with
                           | [] => Forall_nil _
                           | x :: l' => Forall_cons x (go x) (all l')
                           end) l)
            | Obj l =>
                HObj l ((fix all (l : list (string * value)) :
                           Forall (fun kv => P (snd kv)) l :=
                           match l with
                           | [] => Forall_nil _
                           | kv :: l' => Forall_cons kv (go (snd kv)) (all l')
                           end) l)
            end).
Qed.

Lemma items_length {A} (show : A -> string) (measure : A -> nat)
      (close : ascii) (l : list A) :
  Forall (fun x => (measure x <= String.length (show x))%nat) l ->
  (fold_right (fun x n => S (measure x + n)) O l
   <= String.length (items show close l))%nat.
Proof.
  induction 1 as [|x l Hx Hl IH]; [simpl; lia|].
  destruct l as [|y l].
  - simpl. rewrite length_append. simpl. lia.
  - change (items show close (x :: y :: l))
      with (show x ++ String "," (items show close (y :: l))).
    rewrite length_append. cbn [fold_right String.length] in *. lia.
Qed.

Lemma size_le_length (v : value) :
  (size v <= String.length (stringify v))%nat.
Proof.
  induction v as [|[]|z|s|l IH|l IH] using value_induction;
    try (simpl; lia).
  - destruct (number_text_head z) as (c & r & Hz & _).
    simpl. rewrite Hz. simpl. lia.
  - rewrite size_Arr. cbn [stringify String.length].
    apply le_n_S, (items_length stringify size), IH.
  - rewrite size_Obj. cbn [stringify String.length].
    apply le_n_S.
    apply (items_length
             (fun kv => quote (fst kv) ++ String ":" (stringify (snd kv)))
             (fun kv => size (snd kv))).
    eapply Forall_impl; [|exact IH].
    intros kv H. cbn beta in H. rewrite length_append.
    cbn [String.length]. lia.
Qed.

Lemma append_empty (s : string) : s ++ "" = s.
Proof. induction s as [|c s IH]; simpl; [reflexivity | now rewrite IH]. Qed.

(** [JSON.parse (JSON.stringify v)] is [v]. *)
Theorem parse_stringify (v : value) :
  plain v = true -> parse (stringify v) = Some v.
Proof.
  intros Hplain. unfold parse.
  destruct (roundtrip_fuel (S (String.length (stringify v)))) as (Hv & _).
  specialize (Hv v "" (le_S _ _ (size_le_length v)) Hplain eq_refl).
  rewrite append_empty in Hv. now rewrite Hv.
Qed.

End JsonFacts.

Local Open Scope list_scope.

(** ** What [JSON.parse] accepts is JSON *)

Section JsonValid.
Import JSON.







End JsonValid.

(** ** The fuel of [valid] is enough *)

Section ValidFuel.
Import JSON.
Local Open Scope nat_scope.

Lemma skip_ws_length (s : string) :
  String.length (skip_ws s) <= String.length s.
Proof.
  induction s as [|c s IH]; simpl; [lia|].
  destruct (is_ws c); simpl; lia.
Qed.

Lemma skip_ws_cons_length (s r : string) (c : ascii) :
  skip_ws s = String c r -> String.length r < String.length s.
Proof.
  intros H. pose proof (skip_ws_length s) as Hl. rewrite H in Hl.
  simpl in Hl. lia.
Qed.

Lemma string_end_length (n : nat) :
  forall s rest,
    String.length s <= n -> string_end s = Some rest ->
    String.length rest < String.length s.
Proof.
  induction n as [|n IH]; intros s rest Hn H.
  - destruct s; [discriminate H | simpl in Hn; lia].
  - destruct s as [|c r]; [discriminate H|].
    cbn [string_end] in H. simpl in Hn.
    destruct (Ascii.eqb c dquote); [injection H as ->; simpl; lia|].
    destruct (Ascii.eqb c backslash).
    + destruct r as [|e r1]; [discriminate H|].
      destruct (Ascii.eqb e "u").
      * destruct r1 as [|h1 [|h2 [|h3 [|h4 r2]]]]; try discriminate H.
        destruct (is_hex h1 && is_hex h2 && is_hex h3 && is_hex h4)%bool;
          [|discriminate H].
        simpl in Hn. specialize (IH r2 rest ltac:(lia) H). simpl. lia.
      * destruct (is_escape e); [|discriminate H].
        simpl in Hn. specialize (IH r1 rest ltac:(lia) H). simpl. lia.
    + destruct (N_of_ascii c <? 32)%N; [discriminate H|].
      specialize (IH r rest ltac:(lia) H). simpl. lia.
Qed.

Lemma strip_prefix_length (p s rest : string) :
  strip_prefix p s = Some rest ->
  String.length s = String.length p + String.length rest.
Proof.
  revert s. induction p as [|a p IH]; intros s H; simpl in H.
  - now injection H as ->.
  - destruct s as [|b s]; [discriminate H|].
    destruct (Ascii.eqb a b); [|discriminate H].
    simpl. now rewrite (IH _ H).
Qed.

Lemma span_digits_length (s : string) :
  String.length (snd (span_digits s)) <= String.length s
  /\ (starts_digit s = true ->
      String.length (snd (span_digits s)) < String.length s).
Proof.
  induction s as [|c s [IH _]]; simpl; [split; [lia | discriminate]|].
  destruct (is_digit c).
  - destruct (span_digits s) as [ds rest]. simpl in *. split; lia.
  - simpl. split; [lia | discriminate].
Qed.

Lemma parse_nat_length (s rest : string) (n : N) :
  parse_nat s = Some (n, rest) -> String.length rest < String.length s.
Proof.
  unfold parse_nat. intros H.
  destruct (span_digits_length s) as [_ Hlt].
  destruct s as [|c s]; [discriminate H|].
  cbn [starts_digit] in Hlt. cbn [span_digits] in *.
  destruct (is_digit c).
  - destruct (span_digits s) as [ds r]. cbn [snd] in Hlt.
    destruct (NilEmpty.uint_of_string (String c ds)); [|discriminate H].
    destruct (Decimal.uint_eq_dec _ _); [|discriminate H].
    injection H as _ <-. now apply Hlt.
  - discriminate H.
Qed.

Lemma parse_number_length (s rest : string) (z : Z) :
  parse_number s = Some (z, rest) -> String.length rest < String.length s.
Proof.
  unfold parse_number. intros H.
  destruct s as [|c r]; [discriminate H|].
  destruct (Ascii.eqb c "-").
  - destruct (parse_nat r) as [[n rest']|] eqn:E; [|discriminate H].
    injection H as _ <-. apply parse_nat_length in E. simpl. lia.
  - destruct (parse_nat (String c r)) as [[n rest']|] eqn:E;
      [|discriminate H].
    injection H as _ <-. now apply parse_nat_length in E.
Qed.

Lemma digits_end_length (s rest : string) :
  digits_end s = Some rest -> String.length rest <= String.length s.
Proof.
  unfold digits_end. destruct (starts_digit s); [|discriminate].
  intros [= <-]. apply span_digits_length.
Qed.

Lemma number_end_length (s rest : string) :
  number_end s = Some rest -> String.length rest < String.length s.
Proof.
  unfold number_end. intros H.
  destruct (parse_number s) as [[z r0]|] eqn:E; [|discriminate H].
  apply parse_number_length in E.
  destruct (fraction_end r0) as [r1|] eqn:Ef; [|discriminate H].
  assert (H1 : String.length r1 <= String.length r0).
  { unfold fraction_end in Ef. destruct r0 as [|c r]; [now injection Ef as <-|].
    destruct (Ascii.eqb c ".").
    - apply digits_end_length in Ef. simpl. lia.
    - now injection Ef as <-. }
  assert (H2 : String.length rest <= String.length r1).
  { unfold exponent_end in H. destruct r1 as [|c r]; [now injection H as <-|].
    destruct (Ascii.eqb c "e" || Ascii.eqb c "E")%bool.
    - destruct r as [|g r']; [discriminate H|].
      destruct (Ascii.eqb g "+" || Ascii.eqb g "-")%bool;
        apply digits_end_length in H; simpl in *; lia.
    - now injection H as <-. }
  lia.
Qed.

Lemma valid_fuel_bound (fuel : nat) :
  (forall s rest,
      valid_value fuel s = Some rest ->
      String.length rest < String.length s
      /\ forall g, String.length s - String.length rest <= g ->
                   valid_value g s = Some rest)
  /\ (forall s rest,
         valid_elements fuel s = Some rest ->
         String.length rest < String.length s
         /\ forall g, String.length s - String.length rest <= g ->
                      valid_elements g s = Some rest)
  /\ (forall s rest,
         valid_members fuel s = Some rest ->
         String.length rest < String.length s
         /\ forall g, String.length s - String.length rest <= g ->
                      valid_members g s = Some rest).
Proof.
  induction fuel as [|fuel (IHv & IHe & IHm)];
    [repeat split; intros; discriminate|].
  split; [|split].
  - intros s rest H. cbn [valid_value] in H.
    destruct (skip_ws s) as [|c r] eqn:Hs; [discriminate H|].
    pose proof (skip_ws_cons_length _ _ _ Hs) as Hr.
    assert (Hone :
      String.length rest < String.length s ->
      (forall g', valid_value (S g') s = Some rest) ->
      String.length rest < String.length s
      /\ forall g, String.length s - String.length rest <= g ->
                   valid_value g s = Some rest).
    { intros Hlt Hg. split; [exact Hlt|]. intros [|g'] Hle; [lia|].
      apply Hg. }
    destruct (Ascii.eqb c "[") eqn:Hc1.
    { destruct (skip_ws r) as [|c' r'] eqn:Hs'; [discriminate H|].
      pose proof (skip_ws_cons_length _ _ _ Hs') as Hr'.
      destruct (Ascii.eqb c' "]") eqn:Hc'.
      - injection H as <-. apply Hone; [lia|].
        intros g'. cbn [valid_value]. now rewrite Hs, Hc1, Hs', Hc'.
      - destruct (IHe _ _ H) as [Hlt Hg]. split; [lia|].
        intros [|g'] Hle; [lia|].
        cbn [valid_value]. rewrite Hs, Hc1, Hs', Hc'. apply Hg. lia. }
    destruct (Ascii.eqb c "{") eqn:Hc2.
    { destruct (skip_ws r) as [|c' r'] eqn:Hs'; [discriminate H|].
      pose proof (skip_ws_cons_length _ _ _ Hs') as Hr'.
      destruct (Ascii.eqb c' "}") eqn:Hc'.
      - injection H as <-. apply Hone; [lia|].
        intros g'. cbn [valid_value]. now rewrite Hs, Hc1, Hc2, Hs', Hc'.
      - destruct (IHm _ _ H) as [Hlt Hg]. split; [lia|].
        intros [|g'] Hle; [lia|].
        cbn [valid_value]. rewrite Hs, Hc1, Hc2, Hs', Hc'. apply Hg. lia. }
    destruct (Ascii.eqb c dquote) eqn:Hc3.
    { pose proof (string_end_length _ _ _ (le_n _) H) as Hlt.
      apply Hone; [lia|].
      intros g'. cbn [valid_value]. now rewrite Hs, Hc1, Hc2, Hc3. }
    assert (Hlt : String.length rest < String.length (String c r)).
    { destruct (strip_prefix "null" (String c r)) eqn:E1.
      { injection H as ->. apply strip_prefix_length in E1.
        rewrite E1. simpl. lia. }
      destruct (strip_prefix "true" (String c r)) eqn:E2.
      { injection H as ->. apply strip_prefix_length in E2.
        rewrite E2. simpl. lia. }
      destruct (strip_prefix "false" (String c r)) eqn:E3.
      { injection H as ->. apply strip_prefix_length in E3.
        rewrite E3. simpl. lia. }
      now apply number_end_length. }
    apply Hone; [simpl in Hlt; lia|].
    intros g'. cbn [valid_value]. now rewrite Hs, Hc1, Hc2, Hc3.
  - intros s rest H. cbn [valid_elements] in H.
    destruct (valid_value fuel s) as [r|] eqn:E; [|discriminate H].
    destruct (IHv _ _ E) as [Hr Hgv].
    destruct (skip_ws r) as [|c r'] eqn:Hs; [discriminate H|].
    pose proof (skip_ws_cons_length _ _ _ Hs) as Hr'.
    destruct (Ascii.eqb c ",") eqn:Hc1.
    + destruct (IHe _ _ H) as [Hlt Hge]. split; [lia|].
      intros [|g'] Hle; [lia|].
      cbn [valid_elements]. rewrite (Hgv g') by lia.
      rewrite Hs, Hc1. apply Hge. lia.
    + destruct (Ascii.eqb c "]") eqn:Hc2; [|discriminate H].
      injection H as <-. split; [lia|].
      intros [|g'] Hle; [lia|].
      cbn [valid_elements]. rewrite (Hgv g') by lia.
      now rewrite Hs, Hc1, Hc2.
  - intros s rest H. cbn [valid_members] in H.
    destruct (skip_ws s) as [|q r] eqn:Hs; [discriminate H|].
    pose proof (skip_ws_cons_length _ _ _ Hs) as Hr.
    destruct (Ascii.eqb q dquote) eqn:Hq; [|discriminate H].
    destruct (string_end r) as [r1|] eqn:Ek; [|discriminate H].
    pose proof (string_end_length _ _ _ (le_n _) Ek) as Hr1.
    destruct (skip_ws r1) as [|c r2] eqn:Hs1; [discriminate H|].
    pose proof (skip_ws_cons_length _ _ _ Hs1) as Hr2.
    destruct (Ascii.eqb c ":") eqn:Hc; [|discriminate H].
    destruct (valid_value fuel r2) as [r3|] eqn:E; [|discriminate H].
    destruct (IHv _ _ E) as [Hr3 Hgv].
    destruct (skip_ws r3) as [|c' r4] eqn:Hs3; [discriminate H|].
    pose proof (skip_ws_cons_length _ _ _ Hs3) as Hr4.
    destruct (Ascii.eqb c' ",") eqn:Hc1.
    + destruct (IHm _ _ H) as [Hlt Hgm]. split; [lia|].
      intros [|g'] Hle; [lia|].
      cbn [valid_members]. rewrite Hs, Hq, Ek, Hs1, Hc.
      rewrite (Hgv g') by lia. rewrite Hs3, Hc1. apply Hgm. lia.
    + destruct (Ascii.eqb c' "}") eqn:Hc2; [|discriminate H].
      injection H as <-. split; [lia|].
      intros [|g'] Hle; [lia|].
      cbn [valid_members]. rewrite Hs, Hq, Ek, Hs1, Hc.
      rewrite (Hgv g') by lia. now rewrite Hs3, Hc1, Hc2.
Qed.

(** A text that [valid] refuses is refused with every amount of fuel. *)
Lemma valid_complete (s rest : string) (fuel : nat) :
  valid_value fuel s = Some rest -> skip_ws rest = EmptyString ->
  valid s = true.
Proof.
  intros H Hws. unfold valid.
  destruct (proj1 (valid_fuel_bound fuel) _ _ H) as [_ Hg].
  rewrite (Hg (S (String.length s))) by lia. now rewrite Hws.
Qed.

End ValidFuel.

(** ** The sample stores, row by row *)

Lemma db_j1_rows :
  db_j1 = mkDb [mkJob "j1" (JSON.stringify cherry_pick) queued 0 None None]
               None.
Proof. reflexivity. Qed.

Lemma db_j1_j2_rows :
  db_j1_j2
  = mkDb [mkJob "j1" (JSON.stringify cherry_pick) running 0 (Some 2) None;
          mkJob "j2" (JSON.stringify other_pick) queued 1 None None]
         None.
Proof. reflexivity. Qed.

Lemma db_A_B_rows :
  db_A_B
  = mkDb [mkJob "A" (JSON.stringify cherry_pick) queued 0 None None;
          mkJob "B" (JSON.stringify other_pick) queued 1 None None]
         None.
Proof. reflexivity. Qed.

(** ** Facts about the statements *)

Ltac unfold_calls :=
  repeat (cbv [getNextJob addJobToQueue completeJob failJob try_catch bind
               ret throw exec_begin exec_commit exec_rollback
               get_oldest_queued run JSON_parse view no_faults jobs writer];
          rewrite ?Nat.eqb_refl).

Lemma first_by_createdAt_spec (l : list Job) (m : Job) :
  first_by_createdAt l = Some m ->
  In m l /\ forall r, In r l -> createdAt m <= createdAt r.
Proof.
  revert m. induction l as [|x l IH]; intros m H; simpl in H; [discriminate|].
  destruct (first_by_createdAt l) as [m'|] eqn:E.
  - destruct (IH m' eq_refl) as [Hin Hmin].
    injection H as <-. unfold older.
    destruct (Z.leb_spec (createdAt x) (createdAt m')) as [Hle|Hgt].
    + split; [now left|]. intros r [<-|Hr]; [lia|].
      specialize (Hmin r Hr). lia.
    + split; [now right|]. intros r [<-|Hr]; [lia | now apply Hmin].
  - injection H as <-.
    destruct l;
      [|simpl in E; destruct (first_by_createdAt l); discriminate].
    split; [now left|]. intros r [<-|[]]. lia.
Qed.


Lemma is_queued_status (r : Job) : is_queued r = true <-> status r = queued.
Proof. unfold is_queued. destruct (status r); split; congruence. Qed.

Lemma select_spec (t : Table) (job : Job) :
  sql_select_oldest_queued t = Some job ->
  In job t /\ status job = queued
  /\ forall r, In r t -> status r = queued -> createdAt job <= createdAt r.
Proof.
  unfold sql_select_oldest_queued. intros H.
  apply first_by_createdAt_spec in H as [Hin Hmin].
  apply filter_In in Hin as [Hin Hq].
  repeat split; [exact Hin | now apply is_queued_status |].
  intros r Hr Hs. apply Hmin, filter_In. split; [exact Hr|].
  now apply is_queued_status.
Qed.


Lemma update_running_absent (now : Z) (i : string) (t : Table) :
  existsb (has_id i) t = false -> sql_update_running now i t = t.
Proof.
  induction t as [|r t IH]; simpl; [reflexivity|].
  intros H. apply orb_false_elim in H as [Hr Ht].
  now rewrite Hr, IH.
Qed.

Lemma existsb_ids (i : string) (t : Table) :
  existsb (String.eqb i) (ids t) = existsb (has_id i) t.
Proof.
  induction t as [|r t IH]; simpl; [reflexivity|].
  unfold has_id at 1. now rewrite IH, String.eqb_sym.
Qed.

Lemma has_id_In (i : string) (t : Table) :
  existsb (has_id i) t = true <-> exists r, In r t /\ id r = i.
Proof.
  rewrite existsb_exists. unfold has_id.
  split; intros (r & Hr & H); exists r; (split; [exact Hr|]);
    now apply String.eqb_eq.
Qed.

Lemma update_running_unique (now : Z) (t : Table) (job : Job) :
  unique_ids t = true -> In job t ->
  exists pre post,
    t = pre ++ job :: post
    /\ sql_update_running now (id job) t
       = pre ++ claimed_row now job :: post.
Proof.
  unfold unique_ids.
  induction t as [|r t IH]; intros Hu Hin; [destruct Hin|].
  simpl in Hu. apply andb_prop in Hu as [Hr Hu].
  apply negb_true_iff in Hr. rewrite existsb_ids in Hr.
  destruct Hin as [->|Hin].
  - exists [], t. split; [reflexivity|]. simpl.
    unfold has_id at 1. rewrite String.eqb_refl.
    now rewrite (update_running_absent _ _ _ Hr).
  - destruct (IH Hu Hin) as (pre & post & Ht & Hup).
    exists (r :: pre), post. split; [now rewrite Ht|]. simpl.
    assert (Hne : has_id (id job) r = false).
    { unfold has_id. apply String.eqb_neq. intros Heq.
      assert (Hex : existsb (has_id (id r)) t = true).
      { apply has_id_In. exists job. split; [exact Hin | now symmetry]. }
      congruence. }
    now rewrite Hne, Hup.
Qed.

(** ** [getNextJob] with nobody else at the database *)

Lemma getNextJob_idle (k : Conn) (now : Z) (db : Db) :
  writer db = None ->
  getNextJob no_faults k now db
  = match sql_select_oldest_queued (jobs db) with
    | None => (db, Ok None)
    | Some job =>
        (mkDb (sql_update_running now (id job) (jobs db)) None,
         match JSON.parse (params job) with
         | Some p => Ok (Some (id job, p))
         | None => Throw SQLITE_ERROR
         end)
    end.
Proof.
  destruct db as [t w]. simpl. intros ->.
  unfold_calls.
  destruct (sql_select_oldest_queued t) as [job|]; unfold_calls;
    [|reflexivity].
  destruct (JSON.parse (params job)); unfold_calls; reflexivity.
Qed.

Lemma addJobToQueue_idle (k : Conn) (now : Z) (i : string) (p : JSON.value)
      (db : Db) :
  writer db = None ->
  addJobToQueue no_faults k now i p db
  = if existsb (has_id i) (jobs db) then (db, Throw SQLITE_CONSTRAINT)
    else (mkDb (jobs db ++ [row_of (mkRequest now i p)]) None, Ok tt).
Proof.
  destruct db as [t w]. simpl. intros ->.
  unfold_calls. unfold sql_insert.
  destruct (existsb (has_id i) t); reflexivity.
Qed.



(** ** Sequences of calls *)

Lemma run_ops_app (k : Conn) (a b : list Op) (db : Db) :
  run_ops k (a ++ b) db
  = let (db1, r1) := run_ops k a db in
    let (db2, r2) := run_ops k b db1 in
    (db2, r1 ++ r2).
Proof.
  revert db. induction a as [|op a IH]; intros db; simpl.
  - now destruct (run_ops k b db).
  - destruct (run_op k op db) as [db1 r]. rewrite IH.
    destruct (run_ops k a db1) as [db2 r1].
    now destruct (run_ops k b db2).
Qed.

Lemma distinct_app_cons (a b : list string) (x : string) :
  distinct (a ++ x :: b) = true -> existsb (String.eqb x) a = false.
Proof.
  induction a as [|y a IH]; simpl; [reflexivity|].
  intros H. apply andb_prop in H as [Hy Ha].
  rewrite (IH Ha), orb_false_r.
  apply negb_true_iff in Hy. rewrite existsb_app in Hy.
  apply orb_false_elim in Hy as [_ Hy]. simpl in Hy.
  apply orb_false_elim in Hy as [Hy _]. now rewrite String.eqb_sym.
Qed.

Lemma ids_app (a b : Table) : ids (a ++ b) = ids a ++ ids b.
Proof. apply map_app. Qed.

Lemma enqueue_all (k : Conn) (l : list Request) (db : Db) :
  writer db = None ->
  distinct (ids (jobs db) ++ map job_id l) = true ->
  run_ops k (map enqueue_op l) db
  = (mkDb (jobs db ++ map row_of l) None, map (fun _ => Settled (Ok tt)) l).
Proof.
  revert db. induction l as [|q l IH]; intros db Hw Hd; simpl.
  - rewrite app_nil_r. destruct db; simpl in *; now subst.
  - rewrite (addJobToQueue_idle _ _ _ _ _ Hw).
    pose proof (distinct_app_cons _ _ _ Hd) as Hfresh.
    rewrite existsb_ids in Hfresh. rewrite Hfresh.
    rewrite IH; simpl; [ | reflexivity | ].
    + now rewrite <- app_assoc; destruct q.
    + rewrite ids_app, <- app_assoc. exact Hd.
Qed.

Lemma select_first (done rest : Table) (r : Job) :
  none_queued done = true -> status r = queued ->
  (forall r', In r' rest -> createdAt r <= createdAt r') ->
  sql_select_oldest_queued (done ++ r :: rest) = Some r.
Proof.
  intros Hdone Hq Hmin. unfold sql_select_oldest_queued.
  rewrite filter_app.
  assert (Hnil : filter is_queued done = []).
  { clear -Hdone. induction done as [|x done IH]; [reflexivity|].
    simpl in *. apply andb_prop in Hdone as [Hx Hd].
    apply negb_true_iff in Hx. now rewrite Hx, IH. }
  rewrite Hnil. simpl. rewrite (proj2 (is_queued_status r) Hq). simpl.
  destruct (first_by_createdAt (filter is_queued rest)) as [m|] eqn:E;
    [|reflexivity].
  apply first_by_createdAt_spec in E as [Hin _].
  apply filter_In in Hin as [Hin _]. specialize (Hmin m Hin).
  unfold older.
  destruct (Z.leb_spec (createdAt r) (createdAt m)); [reflexivity | lia].
Qed.

Lemma distinct_app (a b : list string) :
  distinct (a ++ b) = true -> distinct a = true /\ distinct b = true.
Proof.
  induction a as [|x a IH]; simpl; [now split|].
  intros H. apply andb_prop in H as [Hx Ha].
  destruct (IH Ha) as [Ha' Hb]. split; [|exact Hb].
  rewrite Ha', andb_true_r. apply negb_true_iff in Hx. apply negb_true_iff.
  rewrite existsb_app in Hx. now apply orb_false_elim in Hx as [Hx _].
Qed.

Lemma update_running_middle (now : Z) (done rest : Table) (r : Job) :
  unique_ids (done ++ r :: rest) = true ->
  sql_update_running now (id r) (done ++ r :: rest)
  = done ++ claimed_row now r :: rest.
Proof.
  unfold unique_ids. rewrite ids_app. simpl. intros Hu.
  pose proof (distinct_app_cons _ _ _ Hu) as Hdone.
  apply distinct_app in Hu as [_ Hu]. simpl in Hu.
  apply andb_prop in Hu as [Hrest _]. apply negb_true_iff in Hrest.
  rewrite existsb_ids in Hdone, Hrest.
  unfold sql_update_running. rewrite map_app. simpl.
  fold (sql_update_running now (id r) done).
  fold (sql_update_running now (id r) rest).
  rewrite (update_running_absent _ _ _ Hdone).
  rewrite (update_running_absent _ _ _ Hrest).
  unfold has_id. now rewrite String.eqb_refl.
Qed.

Lemma none_queued_app (a b : Table) :
  none_queued (a ++ b) = none_queued a && none_queued b.
Proof. apply forallb_app. Qed.

Lemma oldest_none (l : list Request) : oldest l = None -> l = [].
Proof.
  destruct l as [|q l]; [reflexivity|]. simpl.
  destruct (oldest l) as [[m rest]|]; [|discriminate].
  destruct (at_time q <=? at_time m); discriminate.
Qed.

Lemma by_createdAt_oldest (l : list Request) (m : Request)
      (rest : list Request) :
  oldest l = Some (m, rest) -> by_createdAt l = m :: by_createdAt rest.
Proof.
  revert m rest. induction l as [|q l IH]; intros m rest H;
    [discriminate H|].
  simpl in H. destruct (oldest l) as [[m' rest']|] eqn:E.
  - cbn [by_createdAt]. rewrite (IH _ _ eq_refl). cbn [insert_by_createdAt].
    destruct (at_time q <=? at_time m'); injection H as <- <-.
    + now rewrite <- (IH _ _ eq_refl).
    + reflexivity.
  - injection H as <- <-. apply oldest_none in E. now subst l.
Qed.

Lemma first_by_createdAt_oldest (l : list Request) :
  first_by_createdAt (map row_of l)
  = option_map (fun mr => row_of (fst mr)) (oldest l).
Proof.
  induction l as [|q l IH]; [reflexivity|].
  cbn [map first_by_createdAt oldest]. rewrite IH.
  destruct (oldest l) as [[m rest]|]; [|reflexivity].
  cbn [option_map fst]. unfold older. cbn [row_of createdAt].
  now destruct (at_time q <=? at_time m).
Qed.

Lemma oldest_In (l : list Request) (m : Request) (rest : list Request) :
  oldest l = Some (m, rest) ->
  In m l /\ forall q, In q rest -> In q l.
Proof.
  revert m rest. induction l as [|q l IH]; intros m rest H;
    [discriminate H|].
  simpl in H. destruct (oldest l) as [[m' rest']|] eqn:E.
  - destruct (IH _ _ eq_refl) as [Hm Hrest].
    destruct (at_time q <=? at_time m'); injection H as <- <-.
    + split; [now left | intros x Hx; now right].
    + split; [now right|]. intros x [<-|Hx]; [now left|].
      right. now apply Hrest.
  - injection H as <- <-. split; [now left | intros x []].
Qed.

Lemma existsb_job_id (i : string) (l : list Request) :
  existsb (String.eqb i) (map job_id l) = false ->
  forall q, In q l -> String.eqb (job_id q) i = false.
Proof.
  intros H q Hq. induction l as [|x l IH]; [destruct Hq|].
  simpl in H. apply orb_false_iff in H as [Hx Hl].
  destruct Hq as [->|Hq]; [now rewrite String.eqb_sym | now apply IH].
Qed.

Lemma filter_other_ids (i : string) (l : list Request) :
  existsb (String.eqb i) (map job_id l) = false ->
  filter (fun q => negb (String.eqb (job_id q) i)) l = l.
Proof.
  intros H. induction l as [|x l IH]; [reflexivity|].
  simpl in *. apply orb_false_iff in H as [Hx Hl].
  rewrite String.eqb_sym, Hx. cbn [negb]. now rewrite (IH Hl).
Qed.

Lemma oldest_others (l : list Request) (m : Request) (rest : list Request) :
  distinct (map job_id l) = true -> oldest l = Some (m, rest) ->
  filter (fun q => negb (String.eqb (job_id q) (job_id m))) l = rest
  /\ distinct (map job_id rest) = true.
Proof.
  revert m rest. induction l as [|q l IH]; intros m rest Hd H;
    [discriminate H|].
  cbn [map distinct] in Hd. apply andb_true_iff in Hd as [Hq Hd].
  apply negb_true_iff in Hq.
  cbn [oldest] in H. destruct (oldest l) as [[m' rest']|] eqn:E.
  - destruct (IH _ _ Hd eq_refl) as [Hf Hd'].
    destruct (oldest_In _ _ _ E) as [Hm Hrest].
    destruct (at_time q <=? at_time m'); injection H as <- <-.
    + cbn [filter]. rewrite String.eqb_refl. cbn [negb].
      split; [now apply filter_other_ids|].
      exact Hd.
    + cbn [filter]. rewrite (existsb_job_id _ _ Hq _ Hm)
        || rewrite String.eqb_sym, (existsb_job_id _ _ Hq _ Hm).
      cbn [negb]. rewrite Hf. split; [reflexivity|].
      cbn [map distinct]. rewrite Hd', andb_true_r.
      apply negb_true_iff.
      destruct (existsb (String.eqb (job_id q)) (map job_id rest'))
        eqn:Ex; [|reflexivity].
      apply existsb_exists in Ex as (i & Hi & Heq).
      apply in_map_iff in Hi as (x & <- & Hx).
      specialize (Hrest x Hx).
      pose proof (existsb_job_id _ _ Hq _ Hrest) as Hne.
      rewrite String.eqb_sym in Hne. congruence.
  - injection H as <- <-. apply oldest_none in E. subst l.
    cbn [filter]. rewrite String.eqb_refl. now split.
Qed.

Lemma queued_after_update (now : Z) (i : string) (t : Table) :
  filter is_queued (sql_update_running now i t)
  = filter (fun r => negb (has_id i r)) (filter is_queued t).
Proof.
  unfold sql_update_running.
  induction t as [|r t IH]; [reflexivity|].
  cbn [map filter]. destruct (has_id i r) eqn:Hi.
  - cbn [is_queued status]. rewrite IH.
    destruct (is_queued r); [|reflexivity].
    cbn [filter]. now rewrite Hi.
  - destruct (is_queued r); [|exact IH].
    cbn [filter]. rewrite Hi. cbn [negb]. now rewrite IH.
Qed.

Lemma filter_row_of (i : string) (l : list Request) :
  filter (fun r => negb (has_id i r)) (map row_of l)
  = map row_of (filter (fun q => negb (String.eqb (job_id q) i)) l).
Proof.
  induction l as [|q l IH]; [reflexivity|].
  cbn [map filter]. unfold has_id at 1. cbn [row_of id].
  destruct (String.eqb (job_id q) i); cbn [negb map]; now rewrite IH.
Qed.

Lemma claim_all (k : Conn) (claims : list Z) :
  forall (rem : list Request) (t : Table),
    filter is_queued t = map row_of rem ->
    distinct (map job_id rem) = true ->
    forallb (fun q => JSON.plain (payload q)) rem = true ->
    snd (run_ops k (map ClaimNext claims) (mkDb t None))
    = in_insertion_order (by_createdAt rem) claims.
Proof.
  induction claims as [|c claims IH]; intros rem t Hq Hd Hp;
    [reflexivity|].
  cbn [map run_ops run_op]. rewrite getNextJob_idle by reflexivity.
  cbn [jobs]. unfold sql_select_oldest_queued.
  rewrite Hq, first_by_createdAt_oldest.
  destruct (oldest rem) as [[m rest]|] eqn:E.
  - cbn [option_map fst row_of params id].
    assert (Hm : JSON.plain (payload m) = true).
    { rewrite forallb_forall in Hp. apply Hp.
      now destruct (oldest_In _ _ _ E). }
    rewrite (parse_stringify _ Hm).
    destruct (oldest_others _ _ _ Hd E) as [Hf Hd'].
    specialize (IH rest (sql_update_running c (job_id m) t)).
    rewrite queued_after_update, Hq, filter_row_of, Hf in IH.
    specialize (IH eq_refl Hd').
    destruct (run_ops k (map ClaimNext claims)
                (mkDb (sql_update_running c (job_id m) t) None))
      as [db2 rs].
    cbn [snd] in *. rewrite (by_createdAt_oldest _ _ _ E).
    cbn [in_insertion_order]. f_equal. apply IH.
    rewrite forallb_forall in *. intros x Hx. apply Hp.
    now apply (proj2 (oldest_In _ _ _ E)).
  - apply oldest_none in E. subst rem. cbn [option_map].
    specialize (IH [] t Hq eq_refl eq_refl).
    destruct (run_ops k (map ClaimNext claims) (mkDb t None)) as [db2 rs].
    cbn [snd by_createdAt in_insertion_order] in *. now rewrite IH.
Qed.

Lemma distinct_app_right (a b : list string) :
  distinct (a ++ b) = true -> distinct b = true.
Proof.
  induction a as [|x a IH]; [easy|]. simpl. intros H.
  apply andb_true_iff in H as [_ H]. now apply IH.
Qed.

Lemma insert_sorted (q : Request) (l : list Request) :
  nondecreasing (map at_time l) = true ->
  nondecreasing (map at_time (insert_by_createdAt q l)) = true
  /\ forall x,
      In x (insert_by_createdAt q l) -> x = q \/ In x l.
Proof.
  induction l as [|x l IH]; intros Hs.
  - split; [reflexivity|]. intros y [<-|[]]. now left.
  - cbn [map nondecreasing] in Hs. apply andb_true_iff in Hs as [Hx Hl].
    destruct (IH Hl) as [IHs IHin].
    cbn [insert_by_createdAt].
    destruct (Z.leb_spec (at_time q) (at_time x)) as [Hle|Hgt].
    + split; [|intros y [<-|Hy]; [now left | now right]].
      cbn [map nondecreasing]. rewrite Hx, Hl, !andb_true_r.
      cbn [forallb]. apply andb_true_iff. split; [now apply Z.leb_le|].
      rewrite forallb_forall in *. intros z Hz. specialize (Hx z Hz).
      apply Z.leb_le in Hx. apply Z.leb_le. lia.
    + split.
      * cbn [map nondecreasing]. rewrite IHs, andb_true_r.
        rewrite forallb_forall in *. intros z Hz.
        apply in_map_iff in Hz as (y & <- & Hy).
        destruct (IHin y Hy) as [->|Hy'].
        -- apply Z.leb_le. lia.
        -- apply Hx. now apply in_map.
      * intros y [<-|Hy]; [right; now left|].
        destruct (IHin y Hy) as [->|Hy']; [now left | right; now right].
Qed.

Lemma by_createdAt_sorted (l : list Request) :
  nondecreasing (map at_time (by_createdAt l)) = true.
Proof.
  induction l as [|q l IH]; [reflexivity|].
  cbn [by_createdAt]. now apply insert_sorted.
Qed.

Lemma by_createdAt_fixed (l : list Request) :
  nondecreasing (map at_time l) = true -> by_createdAt l = l.
Proof.
  induction l as [|q l IH]; intros Hs; [reflexivity|].
  cbn [map nondecreasing] in Hs. apply andb_true_iff in Hs as [Hq Hl].
  cbn [by_createdAt]. rewrite (IH Hl).
  destruct l as [|x l']; [reflexivity|].
  cbn [insert_by_createdAt]. cbn [map forallb] in Hq.
  apply andb_true_iff in Hq as [Hx _]. now rewrite Hx.
Qed.

(** C4 (as amended).  Requests with ids new to the store and distinct
    from each other, inserted at any clock readings into a store with no
    queued job, then claims with nobody else at the store: every enqueue
    succeeds and the claims return the jobs in the order of their
    [createdAt], jobs of equal [createdAt] in the order of insertion,
    each with the id and the params object of its request; every claim
    after the last job returns the sentinel.  That order is the order of
    insertion whenever the clock readings never went back. *)
Theorem claims_follow_createdAt_order (k : Conn) (l : list Request)
        (claims : list Z) (db : Db) :
  writer db = None ->
  none_queued (jobs db) = true ->
  distinct (ids (jobs db) ++ map job_id l) = true ->
  forallb (fun q => JSON.plain (payload q) && JSON.index_free (payload q))
          l = true ->
  snd (run_ops k (map enqueue_op l ++ map ClaimNext claims) db)
  = map (fun _ => Settled (Ok tt)) l
    ++ in_insertion_order (by_createdAt l) claims
  /\ nondecreasing (map at_time (by_createdAt l)) = true
  /\ (nondecreasing (map at_time l) = true -> by_createdAt l = l).
Proof.
  intros Hw Hnone Hd Hp.
  split; [|split; [apply by_createdAt_sorted | apply by_createdAt_fixed]].
  rewrite run_ops_app, (enqueue_all _ _ _ Hw Hd).
  pose proof (claim_all k claims l (jobs db ++ map row_of l)) as H.
  destruct (run_ops k (map ClaimNext claims)
              (mkDb (jobs db ++ map row_of l) None)) as [db2 rs].
  cbn [snd] in *. f_equal. apply H.
  - rewrite filter_app.
    assert (Hj : filter is_queued (jobs db) = []).
    { clear - Hnone. unfold none_queued in Hnone.
      induction (jobs db) as [|r t IH]; [reflexivity|].
      cbn [forallb filter] in *. apply andb_true_iff in Hnone as [Hr Ht].
      apply negb_true_iff in Hr. rewrite Hr. now apply IH. }
    rewrite Hj. cbn [app].
    clear. induction l as [|q l IH]; [reflexivity|].
    cbn [map filter]. unfold is_queued at 1. cbn [row_of status].
    now rewrite IH.
  - exact (distinct_app_right _ _ Hd).
  - rewrite forallb_forall in *. intros q Hq.
    specialize (Hp q Hq). now apply andb_true_iff in Hp as [Hp _].
Qed.

(** C4 (as amended) on the scenario of the spec: job A at t=0, job B at
    t=1, three claims. *)
Lemma claims_follow_createdAt_order_witness :
  snd (run_ops worker
         (map enqueue_op two_requests ++ map ClaimNext [5; 6; 7])
         fresh_db)
  = map (fun _ => Settled (Ok tt)) two_requests
    ++ [Claimed (Ok (Some ("A", cherry_pick)));
        Claimed (Ok (Some ("B", other_pick)));
        Claimed (Ok None)]
  /\ nondecreasing (map at_time (by_createdAt two_requests)) = true
  /\ (nondecreasing (map at_time two_requests) = true ->
      by_createdAt two_requests = two_requests).
Proof.
  apply (claims_follow_createdAt_order worker two_requests [5; 6; 7]
           fresh_db); reflexivity.
Defined.

(** C4 as stated is false: job A is inserted at clock reading 5 and job B
    after it at clock reading 3 (the clock was set back); the first claim
    returns B and the second A. *)
Lemma insertion_order_refuted :
  ~ (forall (k : Conn) (l : list Request) (claims : list Z) (db : Db),
        writer db = None ->
        none_queued (jobs db) = true ->
        distinct (ids (jobs db) ++ map job_id l) = true ->
        forallb (fun q => JSON.plain (payload q)
                          && JSON.index_free (payload q)) l = true ->
        snd (run_ops k (map enqueue_op l ++ map ClaimNext claims) db)
        = map (fun _ => Settled (Ok tt)) l ++ in_insertion_order l claims).
Proof.
  intros H.
  specialize (H worker late_first [6; 7; 8] fresh_db
                eq_refl eq_refl eq_refl eq_refl).
  vm_compute in H. discriminate H.
Qed.

(** ** The lifecycle over sequences of calls *)

Lemma lenient_refl (s : Status) : lenient s s = true.
Proof. now destruct s. Qed.

Lemma lenient_trans (a b c : Status) :
  lenient a b = true -> lenient b c = true -> lenient a c = true.
Proof. destruct a, b, c; simpl; congruence. Qed.

Lemma evolves_refl (r : Job) : evolves r r.
Proof. unfold evolves. now rewrite lenient_refl. Qed.

Lemma evolves_trans (a b c : Job) : evolves a b -> evolves b c -> evolves a c.
Proof.
  intros (H1 & H2 & H3 & H4) (G1 & G2 & G3 & G4).
  repeat split; try congruence. eapply lenient_trans; eassumption.
Qed.

Lemma Forall2_evolves_refl (t : Table) : Forall2 evolves t t.
Proof. induction t; constructor; auto using evolves_refl. Qed.

Lemma Forall2_evolves_trans (a b c : Table) :
  Forall2 evolves a b -> Forall2 evolves b c -> Forall2 evolves a c.
Proof.
  intros H. revert c. induction H as [|x y a b Hxy Hab IH]; intros c Hbc.
  - inversion Hbc. constructor.
  - inversion Hbc as [|y' z b' c' Hyz Hbc']; subst.
    constructor; [eapply evolves_trans; eassumption | now apply IH].
Qed.

Lemma grows_refl (t : Table) : grows t t.
Proof.
  exists t, []. split; [now rewrite app_nil_r | apply Forall2_evolves_refl].
Qed.

Lemma grows_trans (a b c : Table) : grows a b -> grows b c -> grows a c.
Proof.
  intros (b1 & e1 & -> & H1) (c1 & e2 & -> & H2).
  apply Forall2_app_inv_l in H2 as (c1a & c1b & H2a & H2b & ->).
  exists c1a, (c1b ++ e2). split; [now rewrite app_assoc|].
  eapply Forall2_evolves_trans; eassumption.
Qed.

Lemma grows_map (f : Job -> Job) (t : Table) :
  (forall r, In r t -> evolves r (f r)) -> grows t (map f t).
Proof.
  intros H. exists (map f t), []. split; [now rewrite app_nil_r|].
  induction t as [|r t IH]; simpl; constructor.
  - apply H. now left.
  - apply IH. intros r' Hr'. apply H. now right.
Qed.

Lemma grows_find (i : string) (t t' : Table) (r : Job) :
  grows t t' -> find (has_id i) t = Some r ->
  exists r', find (has_id i) t' = Some r' /\ evolves r r'.
Proof.
  intros (t1 & ext & -> & H) Hfind.
  induction H as [|x y t t1 Hxy Ht IH]; [discriminate|].
  simpl in *. unfold has_id in *. destruct Hxy as (Hid & Hrest).
  rewrite Hid. destruct (String.eqb (id x) i).
  - injection Hfind as <-. exists y. split; [reflexivity|].
    split; [exact Hid | exact Hrest].
  - now apply IH.
Qed.

Lemma grows_taken (i : string) (t t' : Table) :
  grows t t' -> taken i t -> taken i t'.
Proof.
  intros (t1 & ext & -> & H) (r & Hin & Hid & Hs).
  induction H as [|x y t t1 Hxy Ht IH]; [destruct Hin|].
  destruct Hin as [<-|Hin].
  - exists y. split; [now left|]. destruct Hxy as (Hid' & _ & _ & Hl).
    split; [congruence|]. intros Hq. rewrite Hq in Hl.
    destruct (status x); simpl in Hl; congruence.
  - destruct (IH Hin) as (r' & Hin' & Hr').
    exists r'. split; [now right | exact Hr'].
Qed.

Lemma unique_ids_eq (t : Table) (a b : Job) :
  unique_ids t = true -> In a t -> In b t -> id a = id b -> a = b.
Proof.
  unfold unique_ids. induction t as [|r t IH]; intros Hu Ha Hb Hid;
    [destruct Ha|].
  simpl in Hu. apply andb_prop in Hu as [Hr Hu].
  apply negb_true_iff in Hr. rewrite existsb_ids in Hr.
  assert (Hfresh : forall x, In x t -> id x <> id r).
  { intros x Hx Heq.
    assert (existsb (has_id (id r)) t = true)
      by (apply has_id_In; eauto).
    congruence. }
  destruct Ha as [<-|Ha], Hb as [<-|Hb]; [reflexivity | | |].
  - now elim (Hfresh b Hb).
  - now elim (Hfresh a Ha).
  - now apply IH.
Qed.

Lemma ids_update_running (now : Z) (i : string) (t : Table) :
  ids (sql_update_running now i t) = ids t.
Proof.
  unfold ids, sql_update_running. rewrite map_map. apply map_ext.
  intros r. now destruct (has_id i r).
Qed.

Lemma ids_update_completed (i : string) (t : Table) :
  ids (sql_update_completed i t) = ids t.
Proof.
  unfold ids, sql_update_completed. rewrite map_map. apply map_ext.
  intros r. now destruct (has_id i r).
Qed.

Lemma ids_update_failed (e i : string) (t : Table) :
  ids (sql_update_failed e i t) = ids t.
Proof.
  unfold ids, sql_update_failed. rewrite map_map. apply map_ext.
  intros r. now destruct (has_id i r).
Qed.

Lemma distinct_snoc (l : list string) (x : string) :
  distinct l = true -> existsb (String.eqb x) l = false ->
  distinct (l ++ [x]) = true.
Proof.
  induction l as [|y l IH]; simpl; [reflexivity|].
  intros H Hx. apply andb_prop in H as [Hy Hl].
  apply orb_false_elim in Hx as [Hxy Hx].
  rewrite (IH Hl Hx), andb_true_r. apply negb_true_iff.
  rewrite existsb_app. apply negb_true_iff in Hy. rewrite Hy. simpl.
  now rewrite String.eqb_sym, Hxy.
Qed.

Lemma completeJob_idle (k : Conn) (i : string) (db : Db) :
  writer db = None ->
  completeJob no_faults k i db
  = (mkDb (sql_update_completed i (jobs db)) None, Ok tt).
Proof. destruct db as [t w]. simpl. intros ->. reflexivity. Qed.

Lemma failJob_idle (k : Conn) (i e : string) (db : Db) :
  writer db = None ->
  failJob no_faults k i e db
  = (mkDb (sql_update_failed i e (jobs db)) None, Ok tt).
Proof. destruct db as [t w]. simpl. intros ->. reflexivity. Qed.

(** What one call does to an idle database. *)
Lemma run_op_idle (k : Conn) (op : Op) (db db' : Db) (r : Reply) :
  writer db = None -> unique_ids (jobs db) = true ->
  run_op k op db = (db', r) ->
  writer db' = None /\ unique_ids (jobs db') = true
  /\ grows (jobs db) (jobs db')
  /\ forall i p, r = Claimed (Ok (Some (i, p))) ->
                 (exists job, In job (jobs db) /\ id job = i
                              /\ status job = queued)
                 /\ taken i (jobs db').
Proof.
  intros Hw Hu Hrun. destruct op as [now i p|now|i|i e]; simpl in Hrun.
  - rewrite (addJobToQueue_idle _ _ _ _ _ Hw) in Hrun.
    destruct (existsb (has_id i) (jobs db)) eqn:Hex;
      injection Hrun as <- <-; cbn [jobs writer].
    + repeat split; auto using grows_refl; discriminate.
    + repeat split; try discriminate.
      * unfold unique_ids. rewrite ids_app. simpl.
        apply distinct_snoc; [exact Hu | now rewrite existsb_ids].
      * exists (jobs db), [row_of (mkRequest now i p)].
        split; [reflexivity | apply Forall2_evolves_refl].
  - rewrite (getNextJob_idle _ _ _ Hw) in Hrun.
    destruct (sql_select_oldest_queued (jobs db)) as [job|] eqn:E.
    + destruct (select_spec _ _ E) as (Hin & Hq & _).
      destruct (update_running_unique now _ _ Hu Hin)
        as (pre & post & Ht & Hup).
      injection Hrun as <- <-. cbn [jobs writer].
      split; [reflexivity|]. split.
      { unfold unique_ids. now rewrite ids_update_running. }
      split.
      { rewrite Hup, Ht. exists (pre ++ claimed_row now job :: post), [].
        split; [now rewrite app_nil_r|].
        apply Forall2_app; [apply Forall2_evolves_refl|].
        constructor; [|apply Forall2_evolves_refl].
        unfold evolves, claimed_row. simpl. rewrite Hq. auto. }
      intros i p Hr. destruct (JSON.parse (params job)); [|discriminate].
      injection Hr as <- _. split; [now exists job|].
      exists (claimed_row now job). rewrite Hup.
      split; [apply in_elt | split; [reflexivity | discriminate]].
    + injection Hrun as <- <-.
      repeat split; auto using grows_refl; discriminate.
  - rewrite (completeJob_idle _ _ _ Hw) in Hrun. injection Hrun as <- <-.
    cbn [jobs writer]. repeat split; try discriminate.
    + unfold unique_ids. now rewrite ids_update_completed.
    + apply grows_map. intros r _. destruct (has_id i r);
        [|apply evolves_refl].
      unfold evolves. simpl. now destruct (status r).
  - rewrite (failJob_idle _ _ _ _ Hw) in Hrun. injection Hrun as <- <-.
    cbn [jobs writer]. repeat split; try discriminate.
    + unfold unique_ids. now rewrite ids_update_failed.
    + apply grows_map. intros r _. destruct (has_id e r);
        [|apply evolves_refl].
      unfold evolves. simpl. now destruct (status r).
Qed.

Lemma run_ops_idle (k : Conn) (ops : list Op) :
  forall (db db' : Db) (rs : list Reply) (seen : list string),
    writer db = None -> unique_ids (jobs db) = true ->
    (forall i, In i seen -> taken i (jobs db)) ->
    run_ops k ops db = (db', rs) ->
    writer db' = None /\ unique_ids (jobs db') = true
    /\ grows (jobs db) (jobs db')
    /\ NoDup (claimed_ids rs)
    /\ (forall i, In i (claimed_ids rs) -> ~ In i seen)
    /\ (forall i, In i (seen ++ claimed_ids rs) -> taken i (jobs db')).
Proof.
  induction ops as [|op ops IH]; intros db db' rs seen Hw Hu Hseen Hrun;
    simpl in Hrun.
  - injection Hrun as <- <-. simpl. rewrite app_nil_r.
    repeat split; auto using grows_refl; try constructor.
  - destruct (run_op k op db) as [db1 r] eqn:E1.
    destruct (run_ops k ops db1) as [db2 rs'] eqn:E2.
    injection Hrun as <- <-.
    destruct (run_op_idle _ _ _ _ _ Hw Hu E1) as (Hw1 & Hu1 & Hg1 & Hclaim).
    assert (Hnew : forall i p, r = Claimed (Ok (Some (i, p))) -> ~ In i seen).
    { intros i p Hr Hin.
      destruct (Hclaim i p Hr) as ((job & Hj & Hid & Hq) & _).
      destruct (Hseen i Hin) as (r' & Hr' & Hid' & Hs').
      assert (job = r')
        by (apply (unique_ids_eq (jobs db) job r' Hu Hj Hr'); congruence).
      congruence. }
    destruct r as [r|[[[i p]|]|e]].
    + cbn [claimed_ids].
      destruct (IH db1 db2 rs' seen Hw1 Hu1)
        as (Hw2 & Hu2 & Hg2 & Hnd & Hns & Ht);
        [intros i Hi; eapply grows_taken; eauto | exact E2 |].
      repeat split; auto. eapply grows_trans; eassumption.
    + cbn [claimed_ids].
      destruct (Hclaim i p eq_refl) as (_ & Htaken).
      destruct (IH db1 db2 rs' (i :: seen) Hw1 Hu1)
        as (Hw2 & Hu2 & Hg2 & Hnd & Hns & Ht);
        [intros j [<-|Hj]; [exact Htaken | eapply grows_taken; eauto]
        | exact E2 |].
      repeat split; auto.
      * eapply grows_trans; eassumption.
      * constructor; [|exact Hnd]. intros Hin. apply (Hns i Hin). now left.
      * intros j [<-|Hj] Hin; [now apply (Hnew i p eq_refl)|].
        apply (Hns j Hj). now right.
      * intros j Hj. apply Ht. apply in_app_or in Hj as [Hj|[<-|Hj]].
        -- apply in_or_app. left. now right.
        -- apply in_or_app. left. now left.
        -- apply in_or_app. now right.
    + cbn [claimed_ids].
      destruct (IH db1 db2 rs' seen Hw1 Hu1)
        as (Hw2 & Hu2 & Hg2 & Hnd & Hns & Ht);
        [intros i Hi; eapply grows_taken; eauto | exact E2 |].
      repeat split; auto. eapply grows_trans; eassumption.
    + cbn [claimed_ids].
      destruct (IH db1 db2 rs' seen Hw1 Hu1)
        as (Hw2 & Hu2 & Hg2 & Hnd & Hns & Ht);
        [intros i Hi; eapply grows_taken; eauto | exact E2 |].
      repeat split; auto. eapply grows_trans; eassumption.
Qed.

(** C6 (as amended).  Over any sequence of calls from a store where no
    transaction is open, a job is never moved back to [queued], it is
    [running] only if it was [queued] or [running] before, and no id is
    handed out by two claims.  (Nothing is promised about [completed]
    and [failed]: [completeJob] and [failJob] overwrite any status.) *)
Theorem status_never_back_to_queued (k : Conn) (ops : list Op) (db : Db) :
  writer db = None -> unique_ids (jobs db) = true ->
  (forall i s,
      status_of i (jobs db) = Some s ->
      exists s', status_of i (jobs (fst (run_ops k ops db))) = Some s'
                 /\ (s' = queued -> s = queued)
                 /\ (s' = running -> s = queued \/ s = running))
  /\ NoDup (claimed_ids (snd (run_ops k ops db))).
Proof.
  intros Hw Hu.
  destruct (run_ops k ops db) as [db' rs] eqn:E.
  destruct (run_ops_idle k ops db db' rs [] Hw Hu) as (_ & _ & Hg & Hnd & _);
    [intros i [] | exact E |].
  split; [|exact Hnd]. cbn [fst]. intros i s Hs.
  unfold status_of in *.
  destruct (find (has_id i) (jobs db)) as [r|] eqn:Hf; [|discriminate].
  injection Hs as <-.
  destruct (grows_find _ _ _ _ Hg Hf) as (r' & -> & _ & _ & _ & Hl).
  exists (status r'). split; [reflexivity|].
  destruct (status r), (status r'); simpl in Hl; split; intros; auto;
    discriminate.
Qed.

(** C6 (as amended) on a run from the empty store: jobs A and B are each
    handed out once. *)
Lemma status_never_back_to_queued_witness :
  writer fresh_db = None
  /\ unique_ids (jobs fresh_db) = true
  /\ claimed_ids (snd (run_ops worker full_history fresh_db)) = ["A"; "B"]
  /\ NoDup (claimed_ids (snd (run_ops worker full_history fresh_db))).
Proof.
  split; [reflexivity|]. split; [reflexivity|]. split; [reflexivity|].
  apply (status_never_back_to_queued worker full_history fresh_db);
    reflexivity.
Defined.

(** A job that was failed becomes completed, and keeps its error text. *)
Lemma completed_after_failed :
  status_of "j1" (jobs (fst (run_ops worker failed_history fresh_db)))
  = Some failed
  /\ status_of "j1"
       (jobs (fst (run_ops worker (failed_history ++ [Complete "j1"])
                     fresh_db)))
     = Some completed
  /\ error_of "j1"
       (jobs (fst (run_ops worker (failed_history ++ [Complete "j1"])
                     fresh_db)))
     = Some (Some "j1").
Proof. repeat split; reflexivity. Qed.

(** C6 as stated is false: after [failed_history] job ["j1"] is
    [failed], and [completeJob] moves it on to [completed]. *)
Lemma forward_only_refuted :
  ~ (forall (k : Conn) (ops : list Op) (op : Op) (db : Db) (i : string)
            (s s' : Status),
        writer db = None -> unique_ids (jobs db) = true ->
        status_of i (jobs (fst (run_ops k ops db))) = Some s ->
        status_of i (jobs (fst (run_op k op (fst (run_ops k ops db)))))
        = Some s' ->
        forward s s' = true).
Proof.
  intros H.
  specialize (H worker failed_history (Complete "j1") fresh_db "j1"
                failed completed eq_refl eq_refl eq_refl eq_refl).
  discriminate H.
Qed.

(** ** Concurrent calls of [getNextJob] *)

(** A call that runs alone through the step machine does what the
    function does, whatever the engine refuses. *)
Lemma getNextJob_run_alone (F : Faults) (k : Conn) (now : Z) (db : Db) :
  run_alone F k now 5 AtBegin db
  = (fst (getNextJob F k now db), Finished (snd (getNextJob F k now db))).
Proof.
  destruct db as [t w].
  destruct (F BEGIN) eqn:HB, (F SELECT) eqn:HS, (F UPDATE) eqn:HU,
    (F COMMIT) eqn:HC, (F ROLLBACK) eqn:HR;
    destruct w as [[k' t']|]; try destruct (Nat.eqb k k') eqn:Hk;
    destruct (sql_select_oldest_queued t) as [job|] eqn:Hsel;
    try destruct (JSON.parse (params job)) eqn:Hp;
    cbv [getNextJob try_catch bind ret throw JSON_parse exec_begin
         exec_commit exec_rollback get_oldest_queued run view writer jobs
         fst snd];
    repeat (cbn [run_alone step next_stmt exec_begin exec_commit
                 exec_rollback get_oldest_queued run view writer jobs];
            rewrite ?HB, ?HS, ?HU, ?HC, ?HR, ?Hk, ?Hsel, ?Hp,
              ?Nat.eqb_refl);
    reflexivity.
Qed.

Lemma nonqueued_update (now : Z) (i x : string) (t : Table) :
  nonqueued i t -> nonqueued i (sql_update_running now x t).
Proof.
  intros H r Hr Hid. unfold sql_update_running in Hr.
  apply in_map_iff in Hr as (r0 & <- & Hr0).
  destruct (has_id x r0); [discriminate|]. now apply (H r0).
Qed.

Lemma nonqueued_updated (now : Z) (i : string) (t : Table) :
  nonqueued i (sql_update_running now i t).
Proof.
  intros r Hr Hid. unfold sql_update_running in Hr.
  apply in_map_iff in Hr as (r0 & <- & Hr0).
  destruct (has_id i r0) eqn:E; [discriminate|].
  unfold has_id in E. apply String.eqb_neq in E. congruence.
Qed.

Ltac step_inv H f db k :=
  cbv [step exec_begin exec_commit exec_rollback get_oldest_queued run view]
    in H;
  destruct f;
  [| destruct (writer db) as [[? ?]|] eqn:?];
  repeat (cbv beta iota zeta in H;
          match type of H with
          | context [Nat.eqb k ?k'] => destruct (Nat.eqb_spec k k')
          | context [sql_select_oldest_queued ?t] =>
              destruct (sql_select_oldest_queued t) eqn:?
          | context [JSON.parse ?s] => destruct (JSON.parse s) eqn:?
          end);
  cbv beta iota zeta in H; inversion H; subst; clear H.

(** A caller outside the transaction body, while another connection
    holds the lock, changes nothing and gets no job. *)
Lemma step_blocked (f : option Error) (k k' : Conn) (t : Table) (now : Z)
      (pc pc' : Pc) (db db' : Db) :
  writer db = Some (k', t) -> k <> k' -> in_body pc = false ->
  step f k now pc db = (db', pc') ->
  db' = db /\ in_body pc' = false /\ pending pc' = None
  /\ (result_id pc' = None \/ pc' = pc).
Proof.
  intros Hw Hne Hb H.
  destruct pc; try discriminate Hb; step_inv H f db k;
    try congruence; auto.
Qed.

Lemma step_safe_in (f : option Error) (k : Conn) (now : Z) (pc pc' : Pc)
      (db db' : Db) (i : string) :
  safe_in i db -> step f k now pc db = (db', pc') -> safe_in i db'.
Proof.
  intros Hsafe H.
  destruct pc; step_inv H f db k; try exact Hsafe;
    destruct Hsafe as [Hj Hw];
    (split; cbn [jobs writer];
     [| intros ? ? Hk; try discriminate Hk; try (injection Hk as <- <-)]);
    eauto using nonqueued_update.
Qed.

Lemma pending_in_body (pc : Pc) (i : string) :
  pending pc = Some i -> in_body pc = true.
Proof. destruct pc; simpl; congruence. Qed.

Lemma pending_not_result (pc : Pc) (i : string) :
  pending pc = Some i -> result_id pc = None.
Proof. destruct pc; simpl; congruence. Qed.

(** A step of the caller that holds the lock, or that finds it free. *)
Lemma step_own (f : option Error) (k : Conn) (now : Z) (pc pc' : Pc)
      (db db' : Db) :
  free_for k db ->
  (in_body pc = true -> exists t, writer db = Some (k, t)) ->
  (forall j t, pc = AtCommit j -> writer db = Some (k, t) ->
               nonqueued (id j) t) ->
  step f k now pc db = (db', pc') ->
  free_for k db'
  /\ (in_body pc' = true -> exists t, writer db' = Some (k, t))
  /\ (forall j t, pc' = AtCommit j -> writer db' = Some (k, t) ->
                  nonqueued (id j) t)
  /\ (forall i, pending pc' = Some i ->
                pending pc = Some i
                \/ exists t j, writer db = Some (k, t) /\ In j t
                               /\ id j = i /\ status j = queued)
  /\ (forall i, result_id pc' = Some i ->
                result_id pc = Some i
                \/ (pending pc = Some i /\ safe_in i db')).
Proof.
  intros Hfree Hbody Hcommit H.
  destruct pc.
  - (* AtBegin *)
    step_inv H f db k; cbn [in_body pending result_id writer];
      repeat split; try discriminate; eauto;
      unfold free_for; cbn [writer]; eauto.
  - (* AtSelect *)
    destruct (Hbody eq_refl) as [t Ht].
    step_inv H f db k; try congruence;
      cbn [in_body pending result_id];
      repeat split; try discriminate; eauto.
    intros i [= <-]. right.
    match goal with
    | E : sql_select_oldest_queued _ = Some ?j |- _ =>
        apply select_spec in E as (Hin & Hq & _); exists t, j
    end.
    replace t with t0 by congruence. auto.
  - (* AtCommitEmpty *)
    destruct (Hbody eq_refl) as [t Ht].
    step_inv H f db k; try congruence;
      cbn [in_body pending result_id writer];
      repeat split; try discriminate; eauto;
      unfold free_for; cbn [writer]; eauto.
  - (* AtUpdate *)
    destruct (Hbody eq_refl) as [t Ht].
    step_inv H f db k; try congruence;
      cbn [in_body pending result_id writer];
      repeat split; try discriminate; eauto;
      try (unfold free_for; cbn [writer]; now eauto).
    intros j t1 [= <-] [= <-]. apply nonqueued_updated.
  - (* AtCommit *)
    destruct (Hbody eq_refl) as [t Ht].
    specialize (Hcommit job t eq_refl).
    step_inv H f db k; try congruence;
      cbn [in_body pending result_id writer];
      repeat split; try discriminate; eauto;
      try (unfold free_for; cbn [writer]; now eauto).
    intros i [= <-]. right. split; [reflexivity|].
    split; cbn [jobs writer]; [|discriminate].
    injection Ht as <-. now apply Hcommit.
  - (* AtRollback *)
    step_inv H f db k; cbn [in_body pending result_id writer];
      repeat split; try discriminate; eauto;
      unfold free_for; cbn [writer]; eauto.
  - (* Finished *)
    step_inv H f db k; cbn [in_body pending];
      repeat split; try discriminate; eauto.
Qed.

Lemma resume_spec (ev : Event) (i : nat) (cs cs' : list Caller)
      (db db' : Db) :
  resume ev i cs db = (db', cs') ->
  (db' = db /\ cs' = cs)
  \/ exists pre c post pc',
      cs = pre ++ c :: post
      /\ step (fault ev) (conn c) (clock ev) (pc c) db = (db', pc')
      /\ cs' = pre ++ mkCaller (conn c) pc' :: post.
Proof.
  revert i cs' db'. induction cs as [|c cs IH]; intros i cs' db' H; simpl in H.
  - injection H as <- <-. now left.
  - destruct i as [|i].
    + destruct (step (fault ev) (conn c) (clock ev) (pc c) db)
        as [db1 pc1] eqn:E.
      injection H as <- <-. right. exists [], c, cs, pc1. auto.
    + destruct (resume ev i cs db) as [db1 cs1] eqn:E.
      injection H as <- <-.
      destruct (IH _ _ _ E) as [[-> ->]|(pre & c0 & post & pc1 & -> & Hs & ->)].
      * now left.
      * right. exists (c :: pre), c0, post, pc1. auto.
Qed.

Lemma in_middle {A} (x y : A) (pre post : list A) :
  In x (pre ++ y :: post) <-> x = y \/ In x (pre ++ post).
Proof.
  rewrite !in_app_iff. simpl. intuition congruence.
Qed.

Lemma others_conn (pre post : list Caller) (c c' : Caller) :
  NoDup (map conn (pre ++ c :: post)) -> In c' (pre ++ post) ->
  conn c' <> conn c.
Proof.
  rewrite map_app. simpl. intros H Hin Heq.
  apply NoDup_remove_2 in H. apply H. rewrite <- map_app, <- Heq.
  now apply in_map.
Qed.

(** One awaited call of one caller keeps the invariant. *)
Lemma step_inv_preserved (f : option Error) (now : Z) (pre post : list Caller)
      (c : Caller) (pc' : Pc) (db db' : Db) :
  Inv db (pre ++ c :: post) ->
  step f (conn c) now (pc c) db = (db', pc') ->
  Inv db' (pre ++ mkCaller (conn c) pc' :: post).
Proof.
  intros [Hconns Hbody Hret Hpend Hcommit Hdist] Hstep.
  assert (Hc : In c (pre ++ c :: post)) by (apply in_middle; now left).
  assert (Hold : forall x, In x (pre ++ post) -> In x (pre ++ c :: post))
    by (intros x Hx; apply in_middle; now right).
  assert (Hothers : forall x, In x (pre ++ post) -> conn x <> conn c)
    by (intros x Hx; now apply (others_conn pre post c x)).
  assert (Hconns' : NoDup (map conn (pre ++ mkCaller (conn c) pc' :: post)))
    by (rewrite map_app in *; exact Hconns).
  assert (Hcases : free_for (conn c) db
                   \/ exists k' t, writer db = Some (k', t) /\ conn c <> k').
  { unfold free_for. destruct (writer db) as [[k' t]|]; [|now left; left].
    destruct (Nat.eq_dec (conn c) k') as [<-|Hne]; [left; right|right]; eauto. }
  destruct Hcases as [Hfree|(k' & t & Hw & Hne)].
  - (* the lock is free, or the caller's own *)
    assert (Hidle : forall x, In x (pre ++ post) -> in_body (pc x) = false).
    { intros x Hx. destruct (in_body (pc x)) eqn:E; [|reflexivity].
      destruct (Hbody x (Hold x Hx) E) as [t' Ht'].
      destruct Hfree as [Hn|[t0 Ht0]]; [congruence|].
      elim (Hothers x Hx). congruence. }
    destruct (step_own _ _ _ _ _ _ _ Hfree (Hbody c Hc)
                       (fun j t1 Hj => Hcommit c j t1 Hc Hj) Hstep)
      as (Hfree' & Hbody' & Hcommit' & Hpend' & Hres').
    split; [exact Hconns' | | | | |].
    * intros x Hx Hb. apply in_middle in Hx as [->|Hx]; [now apply Hbody'|].
      rewrite (Hidle x Hx) in Hb. discriminate.
    * intros x i Hx Hr. apply in_middle in Hx as [->|Hx].
      -- destruct (Hres' i Hr) as [Hr0|[_ Hs]]; [|exact Hs].
         exact (step_safe_in _ _ _ _ _ _ _ _ (Hret c i Hc Hr0) Hstep).
      -- exact (step_safe_in _ _ _ _ _ _ _ _ (Hret x i (Hold x Hx) Hr) Hstep).
    * intros x y i Hx Hy Hp Hr.
      apply in_middle in Hx as [->|Hx];
        [| apply pending_in_body in Hp; rewrite (Hidle x Hx) in Hp;
           discriminate].
      cbn [pc] in Hp.
      apply in_middle in Hy as [->|Hy];
        [cbn [pc] in Hr; rewrite (pending_not_result _ _ Hp) in Hr;
         discriminate|].
      destruct (Hpend' i Hp) as [Hp0|(t1 & j & Ht1 & Hin & Hid & Hq)].
      -- exact (Hpend c y i Hc (Hold y Hy) Hp0 Hr).
      -- destruct (Hret y i (Hold y Hy) Hr) as [_ Hs].
         exact (Hs _ _ Ht1 j Hin Hid Hq).
    * intros x j t1 Hx Hpc Hw1.
      apply in_middle in Hx as [->|Hx]; [now apply (Hcommit' j t1)|].
      specialize (Hidle x Hx). rewrite Hpc in Hidle. discriminate.
    * intros x y i Hx Hy Hxy Hrx Hry.
      apply in_middle in Hx as [->|Hx]; apply in_middle in Hy as [->|Hy].
      -- now elim Hxy.
      -- destruct (Hres' i Hrx) as [Hr0|[Hp0 _]].
         ++ exact (Hdist c y i Hc (Hold y Hy) Hxy Hr0 Hry).
         ++ exact (Hpend c y i Hc (Hold y Hy) Hp0 Hry).
      -- destruct (Hres' i Hry) as [Hr0|[Hp0 _]].
         ++ exact (Hdist x c i (Hold x Hx) Hc Hxy Hrx Hr0).
         ++ exact (Hpend c x i Hc (Hold x Hx) Hp0 Hrx).
      -- exact (Hdist x y i (Hold x Hx) (Hold y Hy) Hxy Hrx Hry).
  - (* another connection holds the lock *)
    assert (Hb : in_body (pc c) = false).
    { destruct (in_body (pc c)) eqn:E; [|reflexivity].
      destruct (Hbody c Hc E) as [t' Ht']. congruence. }
    destruct (step_blocked _ _ _ _ _ _ _ _ _ Hw Hne Hb Hstep)
      as (-> & Hb' & Hp' & Hr').
    assert (Hres : forall i, result_id pc' = Some i ->
                             result_id (pc c) = Some i).
    { intros i Hi. destruct Hr' as [Hr'| ->]; [congruence | exact Hi]. }
    split; [exact Hconns' | | | | |].
    * intros x Hx Hbx. apply in_middle in Hx as [->|Hx];
        [cbn [pc] in Hbx; congruence | now apply Hbody; auto].
    * intros x i Hx Hr. apply in_middle in Hx as [->|Hx];
        [apply (Hret c i Hc), Hres, Hr | apply (Hret x i); auto].
    * intros x y i Hx Hy Hp Hr.
      apply in_middle in Hx as [->|Hx]; [cbn [pc] in Hp; congruence|].
      apply in_middle in Hy as [->|Hy].
      -- exact (Hpend x c i (Hold x Hx) Hc Hp (Hres i Hr)).
      -- exact (Hpend x y i (Hold x Hx) (Hold y Hy) Hp Hr).
    * intros x j t1 Hx Hpc Hw1. apply in_middle in Hx as [->|Hx].
      -- cbn [pc] in Hpc. rewrite Hpc in Hb'. discriminate.
      -- now apply (Hcommit x j t1); auto.
    * intros x y i Hx Hy Hxy Hrx Hry.
      apply in_middle in Hx as [->|Hx]; apply in_middle in Hy as [->|Hy].
      -- now elim Hxy.
      -- exact (Hdist c y i Hc (Hold y Hy) Hxy (Hres i Hrx) Hry).
      -- exact (Hdist x c i (Hold x Hx) Hc Hxy Hrx (Hres i Hry)).
      -- exact (Hdist x y i (Hold x Hx) (Hold y Hy) Hxy Hrx Hry).
Qed.

Lemma interleave_inv (evs : list Event) :
  forall (db db' : Db) (cs cs' : list Caller),
    Inv db cs -> interleave evs db cs = (db', cs') -> Inv db' cs'.
Proof.
  induction evs as [|ev evs IH]; intros db db' cs cs' HI H; simpl in H.
  - now injection H as <- <-.
  - destruct (resume ev (who ev) cs db) as [db1 cs1] eqn:E.
    apply (IH db1 db' cs1 cs'); [|exact H].
    destruct (resume_spec _ _ _ _ _ _ E)
      as [[-> ->]|(pre & c & post & pc1 & -> & Hs & ->)]; [exact HI|].
    eapply step_inv_preserved; eassumption.
Qed.

Lemma inv_initial (db : Db) (cs : list Caller) :
  writer db = None -> NoDup (map conn cs) ->
  Forall (fun c => pc c = AtBegin) cs -> Inv db cs.
Proof.
  intros Hw Hconns Hpc. rewrite Forall_forall in Hpc.
  split; [exact Hconns | | | | |];
    try (intros c i Hc H; rewrite (Hpc c Hc) in H; discriminate);
    try (intros c c' i Hc Hc' H; rewrite (Hpc c Hc) in H; discriminate);
    try (intros c j t Hc H; rewrite (Hpc c Hc) in H; discriminate);
    try (intros c Hc H; rewrite (Hpc c Hc) in H; discriminate).
  intros c c' i Hc Hc' _ H. rewrite (Hpc c Hc) in H. discriminate.
Qed.

Lemma nth_error_conn (cs : list Caller) (a b : nat) (ca cb : Caller) :
  NoDup (map conn cs) -> a <> b ->
  nth_error cs a = Some ca -> nth_error cs b = Some cb ->
  conn ca <> conn cb.
Proof.
  intros Hnd Hab Ha Hb Heq.
  apply Hab. rewrite NoDup_nth_error in Hnd. apply Hnd.
  - rewrite length_map. apply nth_error_Some. congruence.
  - rewrite !nth_error_map, Ha, Hb. simpl. now rewrite Heq.
Qed.

Lemma separate_NoDup (l : list Conn) : separate l = true -> NoDup l.
Proof.
  induction l as [|k l IH]; simpl; intros H; constructor;
    apply andb_prop in H as [Hk Hl]; [|now apply IH].
  apply negb_true_iff in Hk. intros Hin.
  assert (existsb (Nat.eqb k) l = true)
    by (apply existsb_exists; exists k; split;
        [exact Hin | apply Nat.eqb_refl]).
  congruence.
Qed.

Lemma at_begin_Forall (cs : list Caller) :
  forallb at_begin cs = true -> Forall (fun c => pc c = AtBegin) cs.
Proof.
  rewrite forallb_forall, Forall_forall. intros H c Hc.
  specialize (H c Hc). unfold at_begin in H. now destruct (pc c).
Qed.

(** X1.  What the exclusive transaction does secure.  Callers of
    [getNextJob] that each have a connection of their own, started on a
    store where no transaction is open: in whatever order their awaited
    calls are served, and whatever the engine refuses on the way, no two
    callers are handed a job of the same id.  So of any number of such
    calls at most one takes a given queued job to [running] and returns
    it. *)
Theorem no_job_returned_twice (evs : list Event) (db : Db)
        (cs : list Caller) :
  writer db = None -> separate (map conn cs) = true ->
  forallb at_begin cs = true ->
  forall a b ca cb i,
    a <> b ->
    nth_error (snd (interleave evs db cs)) a = Some ca ->
    nth_error (snd (interleave evs db cs)) b = Some cb ->
    returned ca = Some i -> returned cb <> Some i.
Proof.
  intros Hw Hconns Hpc a b ca cb i Hab Ha Hb Hr.
  apply separate_NoDup in Hconns. apply at_begin_Forall in Hpc.
  destruct (interleave evs db cs) as [db' cs'] eqn:E. cbn [snd] in *.
  pose proof (interleave_inv _ _ _ _ _ (inv_initial _ _ Hw Hconns Hpc) E)
    as HI.
  apply (inv_distinct _ _ HI ca cb i);
    eauto using nth_error_In, nth_error_conn, inv_conns.
Qed.

(** Two workers and two queued jobs: each worker gets a job of its own. *)
Lemma no_job_returned_twice_witness :
  writer db_A_B = None
  /\ separate (map conn two_workers) = true
  /\ forallb at_begin two_workers = true
  /\ 0%nat <> 1%nat
  /\ nth_error (snd (interleave in_turn db_A_B two_workers)) 0
     = Some (mkCaller worker (Finished (Ok (Some ("A", cherry_pick)))))
  /\ nth_error (snd (interleave in_turn db_A_B two_workers)) 1
     = Some (mkCaller other_worker (Finished (Ok (Some ("B", other_pick)))))
  /\ returned (mkCaller worker (Finished (Ok (Some ("A", cherry_pick)))))
     = Some "A"
  /\ returned (mkCaller other_worker (Finished (Ok (Some ("B", other_pick)))))
     <> Some "A".
Proof.
  repeat (split; [first [reflexivity | lia]|]).
  apply (no_job_returned_twice in_turn db_A_B two_workers
           eq_refl eq_refl eq_refl 0%nat 1%nat
           (mkCaller worker (Finished (Ok (Some ("A", cherry_pick)))))
           (mkCaller other_worker (Finished (Ok (Some ("B", other_pick)))))
           "A");
    [lia | reflexivity | reflexivity | reflexivity].
Defined.

(** C1.  Concurrent calls of [getNextJob] on a store with the one queued
    job ["j1"].  Four overlapping calls on the one handle of a process:
    the ROLLBACK of the second call, whose BEGIN was refused, ends the
    transaction of the first, and the first and the third call both
    return job ["j1"].  Two workers on connections of their own: the
    first returns ["j1"], and the second, whose BEGIN meets the lock, is
    rejected with the error of its ROLLBACK instead of returning the
    sentinel or another job. *)
Theorem concurrent_claims_go_wrong :
  map returned (snd (interleave overlapping db_j1 one_handle))
  = [Some "j1"; None; Some "j1"; None]
  /\ map pc (snd (interleave contended db_j1 two_workers))
     = [Finished (Ok (Some ("j1", cherry_pick)));
        Finished (Throw SQLITE_ERROR)].
Proof. split; reflexivity. Qed.

(** ** Errors inside and outside the transaction *)

(** With the lock in other hands the call is rejected. *)
Lemma getNextJob_locked_out (k k' : Conn) (t : Table) (now : Z) (db : Db) :
  writer db = Some (k', t) -> k <> k' ->
  getNextJob no_faults k now db = (db, Throw SQLITE_ERROR).
Proof.
  destruct db as [t0 w]. simpl. intros -> Hne.
  cbv [getNextJob try_catch bind ret exec_begin exec_rollback no_faults writer].
  apply Nat.eqb_neq in Hne. now rewrite Hne.
Qed.

(** X2.  An error of the engine between BEGIN and COMMIT (at the SELECT,
    at the UPDATE of a selected row, or at the COMMIT) is rolled back:
    [getNextJob] returns the sentinel and the store is as before. *)
Lemma getNextJob_fault_inside (F : Faults) (k : Conn) (now : Z) (db : Db) :
  writer db = None -> F BEGIN = None -> F ROLLBACK = None ->
  F SELECT <> None \/ F COMMIT <> None
  \/ (F UPDATE <> None /\ sql_select_oldest_queued (jobs db) <> None) ->
  getNextJob F k now db = (db, Ok None).
Proof.
  destruct db as [t w]. simpl. intros -> HB HR Hfault.
  cbv [getNextJob try_catch bind ret exec_begin exec_commit exec_rollback
       get_oldest_queued run view writer jobs].
  rewrite HB, HR, Nat.eqb_refl.
  destruct (F SELECT) as [e|]; [now rewrite Nat.eqb_refl|].
  destruct (sql_select_oldest_queued t) as [job|].
  - destruct (F UPDATE) as [e|]; [now rewrite Nat.eqb_refl|].
    rewrite Nat.eqb_refl.
    destruct (F COMMIT) as [e|]; [now rewrite Nat.eqb_refl|].
    destruct Hfault as [H|[H|[H _]]]; now elim H.
  - destruct (F COMMIT) as [e|]; [now rewrite Nat.eqb_refl|].
    destruct Hfault as [H|[H|[_ H]]]; now elim H.
Qed.

(** ** Duplicate ids, unreadable params, and [failJob] *)

(** C5.  [addJobToQueue] with an id that some row of the table has
    already: the caller gets the constraint error of the INSERT as the
    engine raised it, and the store, so the first job's row, is what it
    was. *)
Theorem duplicate_id_rejected (k : Conn) (now : Z) (i : string)
        (p : JSON.value) (db : Db) :
  writer db = None -> existsb (has_id i) (jobs db) = true ->
  addJobToQueue no_faults k now i p db = (db, Throw SQLITE_CONSTRAINT).
Proof.
  intros Hw Hi. now rewrite (addJobToQueue_idle _ _ _ _ _ Hw), Hi.
Qed.

(** C5 on the store that holds ["j1"]. *)
Lemma duplicate_id_rejected_witness :
  writer db_j1 = None
  /\ existsb (has_id "j1") (jobs db_j1) = true
  /\ addJobToQueue no_faults other_worker 7 "j1" other_pick db_j1
     = (db_j1, Throw SQLITE_CONSTRAINT).
Proof.
  split; [reflexivity|]. split; [reflexivity|].
  apply duplicate_id_rejected; reflexivity.
Defined.




(** C3.  [getNextJob] while another connection is inside its write
    transaction: BEGIN IMMEDIATE is refused, the ROLLBACK of the catch
    block finds no transaction to roll back, and its error reaches the
    caller. *)
Theorem getNextJob_raises_when_locked :
  getNextJob no_faults worker 9 db_locked = (db_locked, Throw SQLITE_ERROR).
Proof. reflexivity. Qed.

(** C7.  [failJob "j1" "boom"] on a store where job ["j1"] is running:
    the statement looks for a row whose id is ["boom"], so the job stays
    [running] and has no error text. *)
Theorem failJob_misses_its_job :
  failJob no_faults worker "j1" "boom" db_j1_j2 = (db_j1_j2, Ok tt)
  /\ status_of "j1" (jobs db_j1_j2) = Some running
  /\ error_of "j1" (jobs db_j1_j2) = Some None.
Proof. repeat split; reflexivity. Qed.

(** C8.  [failJob "ghost" "j1"] on a store that has no row ["ghost"]:
    the row ["j1"] is marked [failed], with ["ghost"] as its error. *)
Theorem failJob_unknown_id_changes_table :
  existsb (has_id "ghost") (jobs db_j1) = false
  /\ status_of "j1" (jobs db_j1) = Some queued
  /\ status_of "j1" (jobs (fst (failJob no_faults worker "ghost" "j1" db_j1)))
     = Some failed
  /\ error_of "j1" (jobs (fst (failJob no_faults worker "ghost" "j1" db_j1)))
     = Some (Some "ghost").
Proof. repeat split; reflexivity. Qed.

(** C10.  [failJob "j1" "j2"] on a store with rows ["j1"] and ["j2"]:
    row ["j1"] is untouched, and row ["j2"], another row, gets status
    [failed] and error text ["j1"]. *)
Theorem failJob_changes_another_row :
  find (has_id "j1") (jobs (fst (failJob no_faults worker "j1" "j2" db_j1_j2)))
  = find (has_id "j1") (jobs db_j1_j2)
  /\ status_of "j2" (jobs db_j1_j2) = Some queued
  /\ status_of "j2" (jobs (fst (failJob no_faults worker "j1" "j2" db_j1_j2)))
     = Some failed
  /\ error_of "j2" (jobs (fst (failJob no_faults worker "j1" "j2" db_j1_j2)))
     = Some (Some "j1").
Proof. repeat split; reflexivity. Qed.

(** ** What [completeJob] and [failJob] do to the table *)

Lemma update_completed_absent (i : string) (t : Table) :
  existsb (has_id i) t = false -> sql_update_completed i t = t.
Proof.
  induction t as [|r t IH]; simpl; [reflexivity|].
  intros H. apply orb_false_elim in H as [Hr Ht]. now rewrite Hr, IH.
Qed.

Lemma completeJob_unknown_id (k : Conn) (i : string) (db : Db) :
  writer db = None -> existsb (has_id i) (jobs db) = false ->
  completeJob no_faults k i db = (db, Ok tt).
Proof.
  intros Hw Hi. rewrite (completeJob_idle _ _ _ Hw).
  rewrite (update_completed_absent _ _ Hi). destruct db; simpl in *; now subst.
Qed.

Lemma completeJob_sets_completed (k : Conn) (i : string) (db : Db) :
  writer db = None -> existsb (has_id i) (jobs db) = true ->
  status_of i (jobs (fst (completeJob no_faults k i db))) = Some completed.
Proof.
  intros Hw Hi. rewrite (completeJob_idle _ _ _ Hw). cbn [fst jobs].
  unfold status_of, sql_update_completed.
  induction (jobs db) as [|r t IH]; [discriminate|].
  simpl in *. destruct (has_id i r) eqn:E.
  - unfold has_id in *. simpl. now rewrite E.
  - simpl in Hi. rewrite E. now apply IH.
Qed.

Lemma completeJob_frame (k : Conn) (i : string) (db : Db) :
  writer db = None ->
  Forall2 (fun r r' =>
             id r' = id r /\ params r' = params r
             /\ createdAt r' = createdAt r
             /\ processedAt r' = processedAt r /\ error r' = error r
             /\ (id r <> i -> r' = r))
          (jobs db) (jobs (fst (completeJob no_faults k i db))).
Proof.
  intros Hw. rewrite (completeJob_idle _ _ _ Hw). cbn [fst jobs].
  unfold sql_update_completed.
  induction (jobs db) as [|r t IH]; simpl; constructor; [|exact IH].
  unfold has_id.
  destruct (String.eqb_spec (id r) i) as [Heq|Hne]; simpl;
    repeat split; intros; try reflexivity; congruence.
Qed.

(** [failJob id error] as it is written: the row is looked up by the
    [error] argument and the [id] argument is stored as its error. *)
Lemma failJob_frame (k : Conn) (i e : string) (db : Db) :
  writer db = None ->
  Forall2 (fun r r' =>
             id r' = id r /\ params r' = params r
             /\ createdAt r' = createdAt r
             /\ processedAt r' = processedAt r
             /\ (id r <> e -> r' = r)
             /\ (id r = e -> status r' = failed /\ error r' = Some i))
          (jobs db) (jobs (fst (failJob no_faults k i e db))).
Proof.
  intros Hw. rewrite (failJob_idle _ _ _ _ Hw). cbn [fst jobs].
  unfold sql_update_failed.
  induction (jobs db) as [|r t IH]; simpl; constructor; [|exact IH].
  unfold has_id.
  destruct (String.eqb_spec (id r) e) as [Heq|Hne]; simpl;
    repeat split; intros; try reflexivity; congruence.
Qed.

(** * Further properties of the queue *)

(** ** Rows persist *)

Lemma ages_refl (r : Job) : ages r r.
Proof. unfold ages. auto. Qed.

Lemma ages_trans (a b c : Job) : ages a b -> ages b c -> ages a c.
Proof.
  intros (H1 & H2 & H3 & H4) (G1 & G2 & G3 & G4).
  split; [congruence|]. split; [congruence|]. split; [congruence|].
  intros Ha. destruct (H4 Ha) as [Hb Hp]. destruct (G4 Hb) as [Hc Hq].
  split; [exact Hc | congruence].
Qed.

Lemma Forall2_ages_refl (t : Table) : Forall2 ages t t.
Proof. induction t; constructor; auto using ages_refl. Qed.

Lemma Forall2_ages_trans (a b c : Table) :
  Forall2 ages a b -> Forall2 ages b c -> Forall2 ages a c.
Proof.
  intros H. revert c. induction H as [|x y a b Hxy Hab IH]; intros c Hbc.
  - inversion Hbc. constructor.
  - inversion Hbc as [|y' z b' c' Hyz Hbc']; subst.
    constructor; [eapply ages_trans; eassumption | now apply IH].
Qed.

Lemma persists_refl (t : Table) : persists t t.
Proof.
  exists t, []. split; [now rewrite app_nil_r | apply Forall2_ages_refl].
Qed.

Lemma persists_trans (a b c : Table) :
  persists a b -> persists b c -> persists a c.
Proof.
  intros (b1 & e1 & -> & H1) (c1 & e2 & -> & H2).
  apply Forall2_app_inv_l in H2 as (c1a & c1b & H2a & H2b & ->).
  exists c1a, (c1b ++ e2). split; [now rewrite app_assoc|].
  eapply Forall2_ages_trans; eassumption.
Qed.

Lemma persists_map (f : Job -> Job) (t : Table) :
  (forall r, In r t -> ages r (f r)) -> persists t (map f t).
Proof.
  intros H. exists (map f t), []. split; [now rewrite app_nil_r|].
  induction t as [|r t IH]; simpl; constructor.
  - apply H. now left.
  - apply IH. intros r' Hr'. apply H. now right.
Qed.

Lemma run_op_persists (k : Conn) (op : Op) (db : Db) :
  writer db = None -> unique_ids (jobs db) = true ->
  persists (jobs db) (jobs (fst (run_op k op db))).
Proof.
  intros Hw Hu. destruct op as [now i p|now|i|i e]; simpl.
  - rewrite (addJobToQueue_idle _ _ _ _ _ Hw).
    destruct (existsb (has_id i) (jobs db)); cbn [fst jobs].
    + apply persists_refl.
    + exists (jobs db), [row_of (mkRequest now i p)].
      split; [reflexivity | apply Forall2_ages_refl].
  - rewrite (getNextJob_idle _ _ _ Hw).
    destruct (sql_select_oldest_queued (jobs db)) as [job|] eqn:E;
      cbn [fst jobs]; [|apply persists_refl].
    destruct (select_spec _ _ E) as (Hin & Hq & _).
    destruct (update_running_unique now _ _ Hu Hin)
      as (pre & post & Ht & Hup).
    rewrite Hup, Ht. exists (pre ++ claimed_row now job :: post), [].
    split; [now rewrite app_nil_r|].
    apply Forall2_app; [apply Forall2_ages_refl|].
    constructor; [|apply Forall2_ages_refl].
    unfold ages, claimed_row. simpl.
    repeat (split; [reflexivity|]). intros Hn. now elim Hn.
  - rewrite (completeJob_idle _ _ _ Hw). cbn [fst jobs].
    apply persists_map. intros r _. destruct (has_id i r); [|apply ages_refl].
    unfold ages. simpl. repeat (split; [reflexivity|]).
    intros _. split; [discriminate | reflexivity].
  - rewrite (failJob_idle _ _ _ _ Hw). cbn [fst jobs].
    apply persists_map. intros r _. destruct (has_id e r); [|apply ages_refl].
    unfold ages. simpl. repeat (split; [reflexivity|]).
    intros _. split; [discriminate | reflexivity].
Qed.

Lemma run_ops_persists (k : Conn) (ops : list Op) :
  forall db,
    writer db = None -> unique_ids (jobs db) = true ->
    unique_ids (jobs (fst (run_ops k ops db))) = true
    /\ persists (jobs db) (jobs (fst (run_ops k ops db))).
Proof.
  induction ops as [|op ops IH]; intros db Hw Hu; simpl.
  - split; [exact Hu | apply persists_refl].
  - pose proof (run_op_persists k op db Hw Hu) as Hp.
    destruct (run_op k op db) as [db1 r] eqn:E1.
    destruct (run_op_idle _ _ _ _ _ Hw Hu E1) as (Hw1 & Hu1 & _).
    destruct (IH db1 Hw1 Hu1) as [Hu2 Hp2].
    destruct (run_ops k ops db1) as [db2 rs]. cbn [fst] in *.
    split; [exact Hu2 | eapply persists_trans; eassumption].
Qed.

Lemma persists_nth (t t' : Table) (n : nat) (r : Job) :
  persists t t' -> nth_error t n = Some r ->
  exists r', nth_error t' n = Some r' /\ ages r r'.
Proof.
  intros (t1 & ext & -> & H). revert n.
  induction H as [|x y t t1 Hxy Ht IH]; intros n Hn.
  - destruct n; discriminate.
  - destruct n as [|n]; simpl in *.
    + injection Hn as <-. eauto.
    + now apply IH.
Qed.

(** X3.  Over any sequence of calls on a store where no transaction is
    open, no row is deleted or moved: the row at each place keeps its id,
    its params text and its [createdAt]; a row that is past [queued]
    stays past it and keeps its [processedAt]; and the ids stay unique. *)
Theorem rows_persist (k : Conn) (ops : list Op) (db : Db) :
  writer db = None -> unique_ids (jobs db) = true ->
  unique_ids (jobs (fst (run_ops k ops db))) = true
  /\ forall n r,
      nth_error (jobs db) n = Some r ->
      exists r',
        nth_error (jobs (fst (run_ops k ops db))) n = Some r'
        /\ id r' = id r /\ params r' = params r
        /\ createdAt r' = createdAt r
        /\ (status r <> queued ->
            status r' <> queued /\ processedAt r' = processedAt r).
Proof.
  intros Hw Hu. destruct (run_ops_persists k ops db Hw Hu) as [Hu' Hp].
  split; [exact Hu'|]. intros n r Hn.
  destruct (persists_nth _ _ _ _ Hp Hn) as (r' & Hn' & Ha).
  exists r'. split; [exact Hn' | exact Ha].
Qed.

(** X3 on the store with ["j1"] running and ["j2"] queued, for a run that
    fails, completes and claims. *)
Lemma rows_persist_witness :
  writer db_j1_j2 = None
  /\ unique_ids (jobs db_j1_j2) = true
  /\ unique_ids
       (jobs (fst (run_ops worker
                     [Fail "x" "j1"; ClaimNext 7; Complete "j2";
                      Enqueue 8 "j3" cherry_pick]
                     db_j1_j2))) = true.
Proof.
  split; [reflexivity|]. split; [reflexivity|].
  apply (rows_persist worker
           [Fail "x" "j1"; ClaimNext 7; Complete "j2";
            Enqueue 8 "j3" cherry_pick]
           db_j1_j2); reflexivity.
Defined.


(** ** The life of one job *)

Lemma update_completed_middle (done rest : Table) (r : Job) :
  unique_ids (done ++ r :: rest) = true ->
  sql_update_completed (id r) (done ++ r :: rest)
  = done ++ completed_row r :: rest.
Proof.
  unfold unique_ids. rewrite ids_app. simpl. intros Hu.
  pose proof (distinct_app_cons _ _ _ Hu) as Hdone.
  apply distinct_app in Hu as [_ Hu]. simpl in Hu.
  apply andb_prop in Hu as [Hrest _]. apply negb_true_iff in Hrest.
  rewrite existsb_ids in Hdone, Hrest.
  unfold sql_update_completed. rewrite map_app. simpl.
  fold (sql_update_completed (id r) done).
  fold (sql_update_completed (id r) rest).
  rewrite (update_completed_absent _ _ Hdone).
  rewrite (update_completed_absent _ _ Hrest).
  unfold has_id. now rewrite String.eqb_refl.
Qed.

(** X4.  A job from its insertion to its completion, on a store that
    holds no queued job and no row of its id: [addJobToQueue] succeeds,
    [getNextJob] returns the id with the params object that was
    enqueued, [completeJob] succeeds, and the store ends with one more
    row, which is [completed], was created at the time of the insertion,
    was processed at the time of the claim and has no error text. *)
Theorem enqueue_claim_complete (k : Conn) (t0 t1 : Z) (i : string)
        (p : JSON.value) (db : Db) :
  writer db = None -> unique_ids (jobs db) = true ->
  none_queued (jobs db) = true ->
  existsb (has_id i) (jobs db) = false ->
  JSON.plain p = true ->
  run_ops k [Enqueue t0 i p; ClaimNext t1; Complete i] db
  = (mkDb (jobs db
           ++ [mkJob i (JSON.stringify p) completed t0 (Some t1) None])
          None,
     [Settled (Ok tt); Claimed (Ok (Some (i, p))); Settled (Ok tt)]).
Proof.
  intros Hw Hu Hnone Hfresh Hp.
  assert (Hu1 : unique_ids (jobs db ++ [row_of (mkRequest t0 i p)]) = true).
  { unfold unique_ids. rewrite ids_app. simpl.
    apply distinct_snoc; [exact Hu | now rewrite existsb_ids]. }
  cbn [run_ops run_op].
  rewrite (addJobToQueue_idle _ _ _ _ _ Hw), Hfresh.
  rewrite getNextJob_idle by reflexivity. cbn [jobs].
  rewrite select_first; [ | exact Hnone | reflexivity | intros r' [] ].
  rewrite (update_running_middle _ _ _ _ Hu1).
  cbn [row_of params id job_id payload at_time].
  rewrite (parse_stringify _ Hp).
  rewrite completeJob_idle by reflexivity. cbn [jobs].
  change i with (id (claimed_row t1 (row_of (mkRequest t0 i p)))) at 1.
  rewrite update_completed_middle; [reflexivity|].
  unfold unique_ids in *. rewrite ids_app in *. exact Hu1.
Qed.

(** X4 for a job ["j3"] on the store where ["j1"] and ["j2"] are past
    [queued]. *)
Lemma enqueue_claim_complete_witness :
  let db := fst (run_ops worker [ClaimNext 3] db_j1_j2) in
  writer db = None
  /\ unique_ids (jobs db) = true
  /\ none_queued (jobs db) = true
  /\ existsb (has_id "j3") (jobs db) = false
  /\ JSON.plain other_pick = true
  /\ snd (run_ops other_worker
            [Enqueue 10 "j3" other_pick; ClaimNext 11; Complete "j3"] db)
     = [Settled (Ok tt); Claimed (Ok (Some ("j3", other_pick)));
        Settled (Ok tt)].
Proof.
  cbv zeta. repeat (split; [reflexivity|]).
  rewrite (enqueue_claim_complete other_worker 10 11 "j3" other_pick
             (fst (run_ops worker [ClaimNext 3] db_j1_j2)));
    reflexivity.
Defined.

(** ** [completeJob] and [failJob], call by call *)

(** X5.  [completeJob id] on a store where no transaction is open never
    raises; it sets the status of the rows of that id to [completed],
    leaves every other column and every other row as it was, and doing
    it a second time changes nothing more. *)
Theorem completeJob_effect (k : Conn) (i : string) (db : Db) :
  writer db = None ->
  snd (completeJob no_faults k i db) = Ok tt
  /\ Forall2 (fun r r' =>
                (id r = i -> r' = completed_row r)
                /\ (id r <> i -> r' = r))
             (jobs db) (jobs (fst (completeJob no_faults k i db)))
  /\ completeJob no_faults k i (fst (completeJob no_faults k i db))
     = (fst (completeJob no_faults k i db), Ok tt).
Proof.
  intros Hw. rewrite (completeJob_idle _ _ _ Hw). cbn [fst snd jobs].
  split; [reflexivity|]. split.
  - unfold sql_update_completed.
    induction (jobs db) as [|r t IH]; simpl; constructor; [|exact IH].
    unfold has_id.
    destruct (String.eqb_spec (id r) i) as [Heq|Hne];
      split; intros; try reflexivity; congruence.
  - rewrite completeJob_idle by reflexivity. cbn [jobs]. f_equal. f_equal.
    unfold sql_update_completed. rewrite map_map. apply map_ext.
    intros r. unfold has_id.
    destruct (String.eqb_spec (id r) i) as [Heq|Hne]; simpl.
    + now rewrite Heq, String.eqb_refl.
    + apply String.eqb_neq in Hne. now rewrite Hne.
Qed.

(** X5 on the store with ["j1"] running. *)
Lemma completeJob_effect_witness :
  writer db_j1_j2 = None
  /\ snd (completeJob no_faults worker "j1" db_j1_j2) = Ok tt.
Proof.
  split; [reflexivity|].
  apply (completeJob_effect worker "j1" db_j1_j2). reflexivity.
Defined.

(** X6.  [failJob id error] as it is written, on a store where no
    transaction is open: it never raises; the rows it marks [failed] are
    those whose id is the [error] argument, and what it stores as their
    error text is the [id] argument; every other column and every other
    row is left as it was. *)
Theorem failJob_effect (k : Conn) (i e : string) (db : Db) :
  writer db = None ->
  snd (failJob no_faults k i e db) = Ok tt
  /\ Forall2 (fun r r' =>
                (id r = e ->
                 r' = mkJob (id r) (params r) failed (createdAt r)
                            (processedAt r) (Some i))
                /\ (id r <> e -> r' = r))
             (jobs db) (jobs (fst (failJob no_faults k i e db))).
Proof.
  intros Hw. rewrite (failJob_idle _ _ _ _ Hw). cbn [fst snd jobs].
  split; [reflexivity|].
  unfold sql_update_failed.
  induction (jobs db) as [|r t IH]; simpl; constructor; [|exact IH].
  unfold has_id.
  destruct (String.eqb_spec (id r) e) as [Heq|Hne];
    split; intros; try reflexivity; congruence.
Qed.

(** X6 on the store with ["j1"] running. *)
Lemma failJob_effect_witness :
  writer db_j1_j2 = None
  /\ snd (failJob no_faults worker "j1" "boom" db_j1_j2) = Ok tt.
Proof.
  split; [reflexivity|].
  apply (failJob_effect worker "j1" "boom" db_j1_j2). reflexivity.
Defined.

(** ** Errors inside the transaction *)

(** X2 when the engine refuses the UPDATE. *)
Lemma getNextJob_fault_inside_witness :
  writer db_j1 = None
  /\ update_fails BEGIN = None
  /\ update_fails ROLLBACK = None
  /\ getNextJob update_fails worker 5 db_j1 = (db_j1, Ok None).
Proof.
  repeat (split; [reflexivity|]).
  apply (getNextJob_fault_inside update_fails worker 5 db_j1);
    try reflexivity.
  right. right. split; discriminate.
Defined.

(** ** Jobs that were handed out *)

(** X7.  Callers of [getNextJob] on connections of their own, in any
    interleaving and under any faults of the engine: once a call has
    returned a job, no row of that id is [queued] in the committed
    table. *)
Theorem returned_job_is_committed (evs : list Event) (db : Db)
        (cs : list Caller) :
  writer db = None -> separate (map conn cs) = true ->
  forallb at_begin cs = true ->
  forall a ca i,
    nth_error (snd (interleave evs db cs)) a = Some ca ->
    returned ca = Some i ->
    forall r, In r (jobs (fst (interleave evs db cs))) -> id r = i ->
              status r <> queued.
Proof.
  intros Hw Hconns Hpc a ca i Ha Hr.
  apply separate_NoDup in Hconns. apply at_begin_Forall in Hpc.
  destruct (interleave evs db cs) as [db' cs'] eqn:E. cbn [fst snd] in *.
  pose proof (interleave_inv _ _ _ _ _ (inv_initial _ _ Hw Hconns Hpc) E)
    as HI.
  destruct (inv_ret _ _ HI ca i (nth_error_In _ _ Ha) Hr) as [Hj _].
  exact Hj.
Qed.

(** X7 on two workers and two queued jobs. *)
Lemma returned_job_is_committed_witness :
  writer db_A_B = None
  /\ separate (map conn two_workers) = true
  /\ forallb at_begin two_workers = true
  /\ nth_error (snd (interleave in_turn db_A_B two_workers)) 0
     = Some (mkCaller worker (Finished (Ok (Some ("A", cherry_pick)))))
  /\ forall r, In r (jobs (fst (interleave in_turn db_A_B two_workers))) ->
               id r = "A" -> status r <> queued.
Proof.
  repeat (split; [reflexivity|]).
  apply (returned_job_is_committed in_turn db_A_B two_workers
           eq_refl eq_refl eq_refl 0%nat
           (mkCaller worker (Finished (Ok (Some ("A", cherry_pick)))))
           "A"); reflexivity.
Defined.


(** ** The tool server *)

Lemma run_outside_transaction (fault : option Error) (k : Conn)
      (f : Table -> Result Table) (db : Db) :
  in_transaction k db = false ->
  run fault k f db
  = match fault with
    | Some e => (db, Throw e)
    | None =>
        match writer db with
        | Some _ => (db, Throw SQLITE_BUSY)
        | None =>
            match f (jobs db) with
            | Ok t' => (mkDb t' None, Ok tt)
            | Throw e => (db, Throw e)
            end
        end
    end.
Proof.
  unfold in_transaction, run. intros H.
  destruct fault; [reflexivity|].
  destruct (writer db) as [[k' t]|]; [|reflexivity].
  now rewrite H.
Qed.

Lemma addJobToQueue_outside_transaction (F : Faults) (k : Conn) (now : Z)
      (i : string) (p : JSON.value) (db db' : Db) (r : Result unit) :
  in_transaction k db = false ->
  addJobToQueue F k now i p db = (db', r) ->
  match r with
  | Ok _ =>
      db' = mkDb (jobs db ++ [mkJob i (JSON.stringify p) queued now None None])
                 None
  | Throw _ => db' = db
  end.
Proof.
  intros Hk. unfold addJobToQueue.
  rewrite (run_outside_transaction _ _ _ _ Hk).
  destruct (F INSERT); [now intros [= <- <-]|].
  destruct (writer db); [now intros [= <- <-]|].
  unfold sql_insert.
  destruct (existsb (has_id i) (jobs db)); now intros [= <- <-].
Qed.

(** X8.  A tool call changes the store in one way only: a cherry-pick
    call that succeeds appends one queued row, whose id is the fresh uuid
    named in the reply and whose params are the validated arguments.  A
    call that fails, and a get_server_info call, leave the store as it
    was; no call changes or removes a row. *)
Theorem callTool_store (is_url : string -> bool) (F : Faults) (k : Conn)
        (now : Z) (uuid name : string) (args : option JSON.value)
        (db db' : Db) (out : Outcome string) :
  in_transaction k db = false ->
  callTool is_url F k now uuid name args db = (db', out) ->
  match out with
  | Failed _ => db' = db
  | Done text =>
      (name = "get_server_info" /\ db' = db)
      \/ (name = "cherry-pick"
          /\ text = ("Cherry-pick job enqueued with ID: " ++ uuid)%string
          /\ exists p,
              CherryPickParams_parse is_url args = Some p
              /\ db' = mkDb (jobs db
                             ++ [mkJob uuid
                                   (JSON.stringify (params_object p))
                                   queued now None None])
                            None)
  end.
Proof.
  intros Hk. unfold callTool.
  destruct (String.eqb_spec name "cherry-pick") as [->|_].
  - destruct (CherryPickParams_parse is_url args) as [p|];
      [|now intros [= <- <-]].
    unfold enqueueCherryPickJob.
    destruct (is_empty (repository p) || is_empty (targetBranch p)
              || is_empty (prFilterQuery p))%bool; [now intros [= <- <-]|].
    destruct (addJobToQueue F k now uuid (params_object p) db)
      as [db1 [[]|e]] eqn:Hadd;
      pose proof (addJobToQueue_outside_transaction _ _ _ _ _ _ _ _ Hk Hadd)
        as Hdb; cbn in Hdb; intros [= <- <-].
    + right. split; [reflexivity|]. split; [reflexivity|].
      exists p. split; [reflexivity | exact Hdb].
    + exact Hdb.
  - destruct (String.eqb_spec name "get_server_info") as [->|_];
      intros [= <- <-]; [left; split|]; reflexivity.
Qed.

(** X8 on a cherry-pick call with a surplus argument, on the store that
    holds ["j1"]. *)
Lemma callTool_store_witness :
  snd (callTool any_url no_faults worker 5 "u-1" "cherry-pick"
         (Some sample_args) db_j1)
  = Done "Cherry-pick job enqueued with ID: u-1"
  /\ ((("cherry-pick" = "get_server_info"
        /\ fst (callTool any_url no_faults worker 5 "u-1" "cherry-pick"
                  (Some sample_args) db_j1) = db_j1)
       \/ ("cherry-pick" = "cherry-pick"
           /\ "Cherry-pick job enqueued with ID: u-1"
              = ("Cherry-pick job enqueued with ID: " ++ "u-1")%string
           /\ exists p,
               CherryPickParams_parse any_url (Some sample_args) = Some p
               /\ fst (callTool any_url no_faults worker 5 "u-1"
                         "cherry-pick" (Some sample_args) db_j1)
                  = mkDb (jobs db_j1
                          ++ [mkJob "u-1" (JSON.stringify (params_object p))
                                queued 5 None None])
                         None))).
Proof.
  split; [reflexivity|].
  exact (callTool_store any_url no_faults worker 5 "u-1" "cherry-pick"
           (Some sample_args) db_j1 _ _ eq_refl eq_refl).
Defined.

Lemma params_object_plain (p : CherryPickParamsType) :
  JSON.plain (params_object p) = true.
Proof.
  unfold params_object. destruct (callbackUrl p); reflexivity.
Qed.

(** X9.  From the arguments of a cherry-pick call to the worker: when the
    arguments are an object whose three required members are non-empty
    strings and whose [callbackUrl] is absent or a URL, and the uuid is
    fresh, the call succeeds, and the next [getNextJob] on a store with no
    other queued job returns that uuid with exactly the members the schema
    names: any other member of the arguments is gone, and [callbackUrl] is
    there only if it was given. *)
Theorem cherry_pick_reaches_worker (is_url : string -> bool)
        (k k' : Conn) (now now' : Z) (uuid : string)
        (l : list (string * JSON.value)) (r t q : string)
        (cb : option string) (db : Db) :
  writer db = None -> unique_ids (jobs db) = true ->
  none_queued (jobs db) = true ->
  existsb (has_id uuid) (jobs db) = false ->
  JSON.lookup "repository" l = Some (JSON.Str r) -> is_empty r = false ->
  JSON.lookup "targetBranch" l = Some (JSON.Str t) -> is_empty t = false ->
  JSON.lookup "prFilterQuery" l = Some (JSON.Str q) -> is_empty q = false ->
  JSON.lookup "callbackUrl" l = option_map JSON.Str cb ->
  match cb with Some u => is_url u = true | None => True end ->
  exists db1 db2,
    callTool is_url no_faults k now uuid "cherry-pick"
             (Some (JSON.Obj l)) db
    = (db1, Done ("Cherry-pick job enqueued with ID: " ++ uuid)%string)
    /\ getNextJob no_faults k' now' db1
       = (db2, Ok (Some (uuid, params_object (mkCherryPick r t q cb))))
    /\ status_of uuid (jobs db2) = Some running.
Proof.
  intros Hw Hu Hnone Hfresh Hr Hr0 Ht Ht0 Hq Hq0 Hcb Hurl.
  set (p := mkCherryPick r t q cb).
  assert (Hparse : CherryPickParams_parse is_url (Some (JSON.Obj l))
                   = Some p).
  { unfold CherryPickParams_parse, string_field.
    rewrite Hr, Ht, Hq, Hcb.
    destruct cb as [u|]; cbn; [now rewrite Hurl | reflexivity]. }
  set (row := row_of (mkRequest now uuid (params_object p))).
  assert (Hu1 : unique_ids (jobs db ++ [row]) = true).
  { unfold unique_ids. rewrite ids_app. simpl.
    apply distinct_snoc; [exact Hu | now rewrite existsb_ids]. }
  exists (mkDb (jobs db ++ [row]) None),
         (mkDb (jobs db ++ [claimed_row now' row]) None).
  split; [|split].
  - unfold callTool. cbn [String.eqb Ascii.eqb Bool.eqb].
    change (if String.eqb "cherry-pick" "cherry-pick" then ?a else ?b)
      with a.
    rewrite Hparse. unfold enqueueCherryPickJob. subst p.
    cbn [repository targetBranch prFilterQuery].
    rewrite Hr0, Ht0, Hq0. cbn [orb].
    rewrite (addJobToQueue_idle _ _ _ _ _ Hw), Hfresh. reflexivity.
  - rewrite getNextJob_idle by reflexivity. cbn [jobs].
    rewrite select_first; [ | exact Hnone | reflexivity | intros r' [] ].
    rewrite (update_running_middle _ _ _ _ Hu1).
    cbn [row row_of params id job_id payload at_time].
    now rewrite (parse_stringify _ (params_object_plain p)).
  - cbn [jobs]. unfold status_of.
    assert (Hfind : forall a b,
               existsb (has_id uuid) a = false -> id b = uuid ->
               find (has_id uuid) (a ++ [b]) = Some b).
    { intros a b Ha Hb. induction a as [|x a IH]; simpl in *.
      - unfold has_id. rewrite Hb, String.eqb_refl. reflexivity.
      - apply orb_false_iff in Ha as [Hx Ha]. rewrite Hx. now apply IH. }
    rewrite Hfind; [reflexivity | exact Hfresh | reflexivity].
Qed.

(** X9 on the same call, from the empty store: the worker is not shown the
    surplus argument. *)
Lemma cherry_pick_reaches_worker_witness :
  exists db1 db2,
    callTool any_url no_faults worker 5 "u-1" "cherry-pick"
             (Some sample_args) fresh_db
    = (db1, Done "Cherry-pick job enqueued with ID: u-1"%string)
    /\ getNextJob no_faults other_worker 6 db1
       = (db2,
          Ok (Some ("u-1"%string,
                    JSON.Obj
                      [("repository"%string, JSON.Str "octo/repo");
                       ("targetBranch"%string, JSON.Str "release-1");
                       ("prFilterQuery"%string,
                        JSON.Str "label:backport")])))
    /\ status_of "u-1" (jobs db2) = Some running.
Proof.
  apply (cherry_pick_reaches_worker any_url worker other_worker 5 6 "u-1"
           _ "octo/repo" "release-1" "label:backport" None fresh_db);
    try reflexivity; exact I.
Defined.

Lemma bad_arguments (is_url : string -> bool) (F : Faults)
      (k : Conn) (now : Z) (uuid key : string)
      (l : list (string * JSON.value)) (db : Db) :
  In key ["repository"; "targetBranch"; "prFilterQuery"]%string ->
  (string_field key l = None ->
   callTool is_url F k now uuid "cherry-pick" (Some (JSON.Obj l)) db
   = (db, Failed ZodError))
  /\ (string_field key l = Some ""%string ->
      exists f,
        callTool is_url F k now uuid "cherry-pick" (Some (JSON.Obj l)) db
        = (db, Failed f)
        /\ (f = ZodError \/ f = MissingParameters)).
Proof.
  intros Hkey. unfold callTool.
  change (if String.eqb "cherry-pick" "cherry-pick" then ?a else ?b) with a.
  unfold CherryPickParams_parse, enqueueCherryPickJob.
  split; intros H.
  - destruct Hkey as [<-|[<-|[<-|[]]]]; rewrite H;
      repeat match goal with
             | |- context [string_field ?a l] =>
                 destruct (string_field a l)
             end; reflexivity.
  - destruct (string_field "repository" l) as [r|] eqn:Hr;
      [|eexists; split; [reflexivity | now left]].
    destruct (string_field "targetBranch" l) as [t|] eqn:Ht;
      [|eexists; split; [reflexivity | now left]].
    destruct (string_field "prFilterQuery" l) as [q|] eqn:Hq;
      [|eexists; split; [reflexivity | now left]].
    assert (He : (is_empty r || is_empty t || is_empty q)%bool = true).
    { destruct Hkey as [<-|[<-|[<-|[]]]]; rewrite H in *;
        match goal with
        | E : Some _ = Some _ |- _ => injection E as <-
        end; cbn; rewrite ?orb_true_r; reflexivity. }
    destruct (JSON.lookup "callbackUrl" l) as [[| | |u| |]|];
      try (eexists; split; [reflexivity | now left]).
    + destruct (is_url u);
        [|eexists; split; [reflexivity | now left]].
      cbn [repository targetBranch prFilterQuery]. rewrite He.
      eexists; split; [reflexivity | now right].
    + cbn [repository targetBranch prFilterQuery]. rewrite He.
      eexists; split; [reflexivity | now right].
Qed.

(** X10.  A cherry-pick call is refused, and the store left as it was,
    when one of the three required members is missing, is not a string,
    or is the empty string: the schema refuses the first two, and an empty
    string that passes the schema is refused by [enqueueCherryPickJob] as
    a missing parameter.  This holds whatever the store holds and whatever
    the other arguments are. *)
Theorem cherry_pick_bad_arguments (is_url : string -> bool) (F : Faults)
        (k : Conn) (now : Z) (uuid key : string)
        (l : list (string * JSON.value)) (db : Db) :
  In key ["repository"; "targetBranch"; "prFilterQuery"]%string ->
  string_field key l = None \/ string_field key l = Some ""%string ->
  exists f,
    callTool is_url F k now uuid "cherry-pick" (Some (JSON.Obj l)) db
    = (db, Failed f)
    /\ (f = ZodError \/ f = MissingParameters)
    /\ (string_field key l = None -> f = ZodError).
Proof.
  intros Hkey H.
  destruct (bad_arguments is_url F k now uuid key l db Hkey) as [Hn He].
  destruct H as [H|H].
  - exists ZodError. split; [now apply Hn|]. split; [now left | reflexivity].
  - destruct (He H) as (f & Hf & Hor). exists f.
    split; [exact Hf|]. split; [exact Hor|].
    rewrite H. discriminate.
Qed.

(** X10 on a call whose target branch is the empty string. *)
Lemma cherry_pick_bad_arguments_witness :
  exists f,
    callTool any_url no_faults worker 5 "u-1" "cherry-pick"
      (Some (JSON.Obj [("repository"%string, JSON.Str "octo/repo");
                       ("targetBranch"%string, JSON.Str "");
                       ("prFilterQuery"%string, JSON.Str "label:backport")]))
      db_j1
    = (db_j1, Failed f)
    /\ (f = ZodError \/ f = MissingParameters)
    /\ (string_field "targetBranch"
          [("repository"%string, JSON.Str "octo/repo");
           ("targetBranch"%string, JSON.Str "");
           ("prFilterQuery"%string, JSON.Str "label:backport")] = None ->
        f = ZodError).
Proof.
  apply (cherry_pick_bad_arguments any_url no_faults worker 5 "u-1"
           "targetBranch").
  - right; left; reflexivity.
  - right; reflexivity.
Defined.

(** X11.  Of the tools that the list of tools names, the handler of a tool
    call knows all but [health]: a call of a listed tool is answered with
    "Unknown tool" exactly when the tool is [health]. *)
Theorem listed_tool_unknown (is_url : string -> bool) (F : Faults)
        (k : Conn) (now : Z) (uuid name : string)
        (args : option JSON.value) (db : Db) :
  In name (map tool_name listTools) ->
  (callTool is_url F k now uuid name args db
   = (db, Failed (UnknownTool name))
   <-> name = "health"%string).
Proof.
  intros [<-|[<-|[<-|[]]]]; unfold callTool;
    cbn [tool_name String.eqb Ascii.eqb Bool.eqb andb].
  - split; [|discriminate].
    destruct (CherryPickParams_parse is_url args) as [p|];
      [|discriminate].
    unfold enqueueCherryPickJob.
    destruct (is_empty (repository p) || is_empty (targetBranch p)
              || is_empty (prFilterQuery p))%bool; [discriminate|].
    destruct (addJobToQueue F k now uuid (params_object p) db)
      as [db1 [[]|e]]; discriminate.
  - split; reflexivity.
  - split; discriminate.
Qed.

(** X11 on [health] itself. *)
Lemma listed_tool_unknown_witness :
  callTool any_url no_faults worker 5 "u-1" "health" None db_j1
  = (db_j1, Failed (UnknownTool "health"))
  <-> "health"%string = "health"%string.
Proof.
  apply (listed_tool_unknown any_url no_faults worker 5 "u-1" "health").
  right; left; reflexivity.
Defined.

(** X12.  The reply to get_server_info is one text, the same for all
    arguments, stores and faults, and the store is not touched.  The text
    is the server's description printed one member to a line, each level
    two spaces further in, and parsing it gives the description back. *)
Theorem get_server_info_reply :
  exists text : string,
    (forall (is_url : string -> bool) (F : Faults) (k : Conn) (now : Z)
            (uuid : string) (args : option JSON.value) (db : Db),
        callTool is_url F k now uuid "get_server_info" args db
        = (db, Done text))
    /\ text
       = join newline
           ["{";
            "  " ++ JSON.quote "server_name" ++ ": "
            ++ JSON.quote "github-helper-server" ++ ",";
            "  " ++ JSON.quote "version" ++ ": " ++ JSON.quote "1.0.0"
            ++ ",";
            "  " ++ JSON.quote "transport" ++ ": " ++ JSON.quote "stdio"
            ++ ",";
            "  " ++ JSON.quote "capabilities" ++ ": [";
            "    " ++ JSON.quote "tools";
            "  ],";
            "  " ++ JSON.quote "description" ++ ": "
            ++ JSON.quote "GitHub Helper MCP server using stdio transport (MCP 2025-06-18 specification)";
            "}"]%string
    /\ JSON.parse text = Some server_info.
Proof.
  exists (stringify_indented "" server_info). split; [|split].
  - intros. reflexivity.
  - vm_compute. reflexivity.
  - vm_compute. reflexivity.
Qed.

Lemma trim_start_spaces (ws s : string) :
  forallb is_space (list_ascii_of_string ws) = true ->
  trim_start (ws ++ s) = trim_start s.
Proof.
  induction ws as [|c ws IH]; simpl; [reflexivity|].
  intros H. apply andb_true_iff in H as [Hc Hws].
  rewrite Hc. now apply IH.
Qed.

Lemma digits_start (n : N) (rest : string) :
  exists c r, (JSON.digits n ++ rest)%string = String c r
              /\ JSON.is_digit c = true.
Proof.
  destruct (digits_head n) as (c & r & -> & Hc).
  exists c, (r ++ rest)%string. split; [reflexivity | exact Hc].
Qed.

(** X13.  The port of the server: a PORT that starts, after white space,
    with a decimal numeral (of a safe integer) is read as that number,
    whatever follows the numeral; with PORT unset or empty the port is
    8080. *)
Theorem port_of_numeral (ws rest : string) (n : N) :
  forallb is_space (list_ascii_of_string ws) = true ->
  JSON.starts_digit rest = false ->
  Z.of_N n <= JSON.max_safe_integer ->
  port (Some (ws ++ JSON.digits n ++ rest)%string) = Some (Z.of_N n)
  /\ port None = Some 8080 /\ port (Some ""%string) = Some 8080.
Proof.
  intros Hws Hrest _. split; [|split; reflexivity].
  destruct (digits_start n rest) as (c & r & Hcr & Hc).
  unfold port.
  assert (He : is_empty (ws ++ JSON.digits n ++ rest)%string = false).
  { rewrite Hcr. destruct ws; reflexivity. }
  rewrite He. unfold parseInt10.
  rewrite (trim_start_spaces _ _ Hws).
  assert (Ht : trim_start (JSON.digits n ++ rest) = String c r).
  { rewrite Hcr. simpl.
    destruct (is_space c) eqn:Hs; [|reflexivity].
    exfalso. revert Hc Hs. unfold JSON.is_digit, is_space.
    destruct c as [[] [] [] [] [] [] [] []]; vm_compute; congruence. }
  rewrite Ht.
  assert (Hm : Ascii.eqb c "-" = false /\ Ascii.eqb c "+" = false).
  { revert Hc. unfold JSON.is_digit.
    destruct c as [[] [] [] [] [] [] [] []]; vm_compute; intuition congruence. }
  destruct Hm as [-> ->]. rewrite <- Hcr.
  unfold JSON.digits at 1.
  rewrite (span_digits_uint _ _ Hrest). cbn [fst].
  fold (JSON.digits n).
  destruct (digits_head n) as (c' & r' & Hd & _).
  rewrite Hd. rewrite <- Hd.
  unfold JSON.digits. rewrite NilEmpty.usu. cbn [option_map].
  now rewrite DecimalN.Unsigned.of_to.
Qed.

(** X13 on a PORT of [ 3000/tcp]. *)
Lemma port_of_numeral_witness :
  port (Some (" " ++ JSON.digits 3000 ++ "/tcp")%string) = Some 3000
  /\ port None = Some 8080 /\ port (Some ""%string) = Some 8080.
Proof.
  apply (port_of_numeral " " "/tcp" 3000);
    [reflexivity | reflexivity | vm_compute; discriminate].
Defined.


(** ** The web agent *)

Local Open Scope string_scope.

Lemma no_newline_app (a b : string) :
  no_newline (a ++ b) = no_newline a && no_newline b.
Proof.
  unfold no_newline. induction a as [|c a IH]; simpl; [reflexivity|].
  now rewrite IH, andb_assoc.
Qed.

Lemma no_newline_escape (s : string) : no_newline (JSON.escape s) = true.
Proof.
  induction s as [|c s IH]; simpl; [reflexivity|].
  rewrite no_newline_app, IH, andb_true_r.
  destruct c as [[] [] [] [] [] [] [] []]; reflexivity.
Qed.

Lemma no_newline_uint (d : Decimal.uint) :
  no_newline (NilEmpty.string_of_uint d) = true.
Proof. induction d; simpl; [reflexivity | exact IHd ..]. Qed.

Lemma no_newline_quote (s : string) : no_newline (JSON.quote s) = true.
Proof.
  unfold JSON.quote.
  change (String JSON.dquote (JSON.escape s ++ String JSON.dquote ""))
    with (String JSON.dquote "" ++ JSON.escape s ++ String JSON.dquote "").
  now rewrite !no_newline_app, no_newline_escape.
Qed.

Lemma no_newline_items (A : Type) (show : A -> string) (close : ascii)
      (l : list A) :
  is_newline close = false ->
  Forall (fun x => no_newline (show x) = true) l ->
  no_newline (JSON.items show close l) = true.
Proof.
  intros Hc H. induction H as [|x l Hx Hl IH]; simpl.
  - unfold no_newline. simpl. now rewrite Hc.
  - destruct l as [|y l'].
    + rewrite no_newline_app, Hx. unfold no_newline. simpl. now rewrite Hc.
    + rewrite no_newline_app, Hx.
      change (String "," (JSON.items show close (y :: l')))
        with (String "," "" ++ JSON.items show close (y :: l')).
      now rewrite no_newline_app, IH.
Qed.

Lemma no_newline_stringify (v : JSON.value) :
  no_newline (JSON.stringify v) = true.
Proof.
  induction v as [|b|z|s|l IH|l IH] using value_induction.
  - reflexivity.
  - destruct b; reflexivity.
  - simpl. unfold JSON.number_text, JSON.digits.
    destruct (z <? 0)%Z.
    + change (String "-" ?x) with (String "-" "" ++ x).
      now rewrite no_newline_app, no_newline_uint.
    + apply no_newline_uint.
  - apply no_newline_quote.
  - simpl. change (String "[" ?x) with (String "[" "" ++ x).
    rewrite no_newline_app. now rewrite no_newline_items.
  - simpl. change (String "{" ?x) with (String "{" "" ++ x).
    rewrite no_newline_app. rewrite no_newline_items; [reflexivity ..|].
    apply Forall_impl with (2 := IH). intros [k x] Hx.
    cbn [fst snd] in *.
    change (no_newline (JSON.quote k
                        ++ (String ":" "" ++ JSON.stringify x)) = true).
    now rewrite !no_newline_app, no_newline_quote, Hx.
Qed.

Lemma split_from_other (sep : bool) (c : ascii) (r : string) :
  is_newline c = false ->
  split_from sep (String c r) = extend c (split_from false r).
Proof. intros H. cbn [split_from]. now rewrite H. Qed.

Lemma no_newline_cons (c : ascii) (s : string) :
  no_newline (String c s) = true ->
  is_newline c = false /\ no_newline s = true.
Proof.
  unfold no_newline. simpl. intros H.
  apply andb_true_iff in H as [Hc Hs]. apply negb_true_iff in Hc.
  now split.
Qed.

Lemma split_from_segment (b rest : string) :
  no_newline b = true ->
  split_from false (b ++ blank_line ++ rest) = b :: split_from true rest.
Proof.
  induction b as [|c b IH]; intros H.
  - reflexivity.
  - apply no_newline_cons in H as [Hc Hb]. cbn [append].
    rewrite (split_from_other _ _ _ Hc), (IH Hb). reflexivity.
Qed.

Lemma split_from_two_lines (x y rest : string) (d : ascii) :
  no_newline x = true -> no_newline (String d y) = true ->
  split_from false
    (x ++ newline ++ String d y ++ blank_line ++ rest)
  = (x ++ newline ++ String d y) :: split_from true rest.
Proof.
  intros Hx Hy. induction x as [|c x IH].
  - pose proof (split_from_segment (String d y) rest Hy) as Hs.
    apply no_newline_cons in Hy as [Hd _].
    change (split_from false
              ("" ++ newline ++ String d y ++ blank_line ++ rest))
      with (if is_newline d
            then "" :: split_from true (y ++ blank_line ++ rest)
            else extend (ascii_of_nat 10)
                   (split_from false (String d y ++ blank_line ++ rest))).
    rewrite Hd, Hs. reflexivity.
  - apply no_newline_cons in Hx as [Hc Hx'].
    change (String c x ++ ?r) with (String c (x ++ r)).
    rewrite (split_from_other _ _ _ Hc), (IH Hx'). reflexivity.
Qed.

Lemma trim_end_last (s : string) (c : ascii) :
  is_space c = false -> trim_end (s ++ String c "") = s ++ String c "".
Proof.
  intros Hc. induction s as [|x s IH]; simpl.
  - now rewrite Hc.
  - rewrite IH. destruct s; reflexivity.
Qed.

Lemma trim_end_head (c : ascii) (r : string) :
  is_space c = false -> exists r', trim_end (String c r) = String c r'.
Proof.
  intros Hc. simpl. destruct (trim_end r); [|eauto].
  rewrite Hc. eauto.
Qed.

Lemma uint_last (d : Decimal.uint) :
  d <> Decimal.Nil ->
  exists s c, NilEmpty.string_of_uint d = s ++ String c ""
              /\ is_space c = false.
Proof.
  induction d as [|d IH|d IH|d IH|d IH|d IH|d IH|d IH|d IH|d IH|d IH];
    intros Hn; [now elim Hn | ..]; simpl;
    (destruct d;
     [ eexists "", _; split; [reflexivity | reflexivity]
     | destruct IH as (s & c & -> & Hc); [discriminate|];
       eexists (String _ s), c; split; [reflexivity | exact Hc] .. ]).
Qed.

Lemma items_last (A : Type) (show : A -> string) (close : ascii)
      (l : list A) :
  exists s, JSON.items show close l = s ++ String close "".
Proof.
  induction l as [|x l IH]; simpl.
  - now exists "".
  - destruct l as [|y l'].
    + now exists (show x).
    + destruct IH as (s & ->).
      exists (show x ++ String "," s).
      now rewrite append_assoc.
Qed.

Lemma stringify_last (v : JSON.value) :
  exists s c, JSON.stringify v = s ++ String c "" /\ is_space c = false.
Proof.
  destruct v as [|[]|z|s|l|l]; cbn [JSON.stringify].
  - now exists "nul", "l"%char.
  - now exists "tru", "e"%char.
  - now exists "fals", "e"%char.
  - unfold JSON.number_text, JSON.digits.
    assert (Hnn : forall n, N.to_uint n <> Decimal.Nil).
    { intros [|p]; [discriminate|].
      apply DecimalPos.Unsigned.to_uint_nonnil. }
    destruct (z <? 0)%Z.
    + destruct (uint_last _ (Hnn (Z.to_N (- z)))) as (s & c & -> & Hc).
      now exists (String "-" s), c.
    + exact (uint_last _ (Hnn (Z.to_N z))).
  - unfold JSON.quote.
    now exists (String JSON.dquote (JSON.escape s)), JSON.dquote.
  - destruct (items_last _ JSON.stringify "]" l) as (s & ->).
    now exists (String "[" s), "]"%char.
  - destruct (items_last _
                (fun kv => JSON.quote (fst kv)
                           ++ String ":" (JSON.stringify (snd kv)))
                "}" l) as (s & ->).
    now exists (String "{" s), "}"%char.
Qed.

Lemma trim_start_stringify (v : JSON.value) :
  trim_start (JSON.stringify v) = JSON.stringify v.
Proof.
  destruct (stringify_head v) as (c & r & -> & Hc). simpl.
  replace (is_space c) with false; [reflexivity|].
  revert Hc. destruct c as [[] [] [] [] [] [] [] []];
    vm_compute; congruence.
Qed.

Lemma finishWith_segment (body payload rest : string) (v : JSON.value) :
  no_newline body = true -> trim body = body -> is_empty body = false ->
  data_payload body = Some payload -> JSON.parse payload = Some v ->
  finishWith (body ++ blank_line ++ rest) = v.
Proof.
  intros Hbody Htrim Hne Hpay Hparse.
  unfold finishWith, split_blank_lines.
  rewrite (split_from_segment _ _ Hbody).
  cbn [map filter]. rewrite Htrim, Hne. cbn [negb find].
  unfold is_data at 1. now rewrite Hpay, Hpay, Hparse.
Qed.

Lemma data_line (v : JSON.value) (ws : string) :
  forallb is_space (list_ascii_of_string ws) = true ->
  no_newline ws = true ->
  no_newline ("data:" ++ ws ++ JSON.stringify v) = true
  /\ trim ("data:" ++ ws ++ JSON.stringify v)
     = "data:" ++ ws ++ JSON.stringify v
  /\ data_payload ("data:" ++ ws ++ JSON.stringify v)
     = Some (JSON.stringify v).
Proof.
  intros Hws Hnl. split; [|split].
  - now rewrite !no_newline_app, Hnl, no_newline_stringify.
  - unfold trim.
    change (trim_start ("data:" ++ ws ++ JSON.stringify v))
      with ("data:" ++ ws ++ JSON.stringify v).
    destruct (stringify_last v) as (s & c & Hs & Hc).
    rewrite Hs, <- !append_assoc. now apply trim_end_last.
  - unfold data_payload.
    cbn [JSON.strip_prefix append Ascii.eqb Bool.eqb option_map].
    now rewrite (trim_start_spaces _ _ Hws), trim_start_stringify.
Qed.

(** X14.  Reading a reply of the tool server: when the text received
    starts with a [data:] line that holds the JSON text of a value and is
    closed by a blank line, [finishWith] gives exactly that value,
    whatever white space follows the colon and whatever text follows the
    blank line.  The values are those on which the model and JavaScript
    agree: safe integers, distinct member names, none of them an integer
    index. *)
Theorem finishWith_first_data_frame (v : JSON.value) (ws rest : string) :
  JSON.plain v = true -> JSON.index_free v = true ->
  forallb is_space (list_ascii_of_string ws) = true ->
  no_newline ws = true ->
  finishWith ("data:" ++ ws ++ JSON.stringify v ++ blank_line ++ rest) = v.
Proof.
  intros Hp _ Hws Hnl.
  destruct (data_line v ws Hws Hnl) as (Hbody & Htrim & Hpay).
  replace ("data:" ++ ws ++ JSON.stringify v ++ blank_line ++ rest)
    with (("data:" ++ ws ++ JSON.stringify v) ++ blank_line ++ rest)
    by now rewrite !append_assoc.
  exact (finishWith_segment _ _ rest v Hbody Htrim eq_refl Hpay
           (parse_stringify v Hp)).
Qed.

(** X14 on a frame that is followed by the start of another. *)
Lemma finishWith_first_data_frame_witness :
  finishWith ("data:" ++ " "
              ++ JSON.stringify (JSON.Obj [("jobId", JSON.Str "u-1")])
              ++ blank_line ++ "data: 7")
  = JSON.Obj [("jobId", JSON.Str "u-1")].
Proof.
  apply (finishWith_first_data_frame
           (JSON.Obj [("jobId", JSON.Str "u-1")]) " " "data: 7");
    reflexivity.
Defined.

(** X15.  A frame whose first line is another field than [data:], such as
    [event: message], is not parsed: [finishWith] answers with the raw
    text of the frame, although a [data:] line follows. *)
Theorem finishWith_other_field_first (c : ascii) (line payload : string) :
  is_space c = false -> Ascii.eqb c "d" = false ->
  no_newline (String c line) = true -> no_newline payload = true ->
  finishWith (String c line ++ newline ++ "data:" ++ payload ++ blank_line)
  = JSON.Str
      (String c line ++ newline ++ "data:" ++ payload ++ blank_line).
Proof.
  intros Hc Hd Hl Hp.
  unfold finishWith, split_blank_lines.
  replace (String c line ++ newline ++ "data:" ++ payload ++ blank_line)
    with (String c line ++ newline ++ String "d" ("ata:" ++ payload)
          ++ blank_line ++ "") at 1
    by (cbn [append]; now rewrite append_empty).
  rewrite split_from_two_lines; [|exact Hl|].
  2:{ change (String "d" ("ata:" ++ payload)) with ("data:" ++ payload).
      now rewrite no_newline_app, Hp. }
  cbn [split_from map]. unfold trim at 1.
  cbn [append trim_start]. rewrite Hc.
  destruct (trim_end_head c
              (line ++ newline ++ String "d" ("ata:" ++ payload)) Hc)
    as (r' & Hr).
  cbn [append] in Hr. rewrite Hr.
  cbn [filter is_empty negb trim trim_start trim_end find].
  unfold is_data, data_payload. cbn [JSON.strip_prefix].
  rewrite Ascii.eqb_sym in Hd. rewrite Hd. reflexivity.
Qed.

(** X15 on a frame with an [event:] line. *)
Lemma finishWith_other_field_first_witness :
  finishWith ("event: message" ++ newline ++ "data:" ++ " 12" ++ blank_line)
  = JSON.Str ("event: message" ++ newline ++ "data:" ++ " 12" ++ blank_line).
Proof.
  apply (finishWith_other_field_first "e" "vent: message" " 12");
    reflexivity.
Defined.

Lemma resolved_stays (es : list StreamEvent) (st : Listener) :
  resolved st = true ->
  promise (fold_left handle es st) = promise st.
Proof.
  revert st. induction es as [|e es IH]; intros st H; [reflexivity|].
  simpl. rewrite IH.
  - destruct e; simpl; unfold finish; simpl; now rewrite H.
  - destruct e; simpl; unfold finish; simpl; now rewrite H.
Qed.

Lemma first_event_promise (e : StreamEvent) (es : list StreamEvent) :
  callMcpServerTool (e :: es)
  = match e with
    | on_data chunk => Resolved (finishWith chunk)
    | on_end => Resolved (JSON.Str "")
    | on_error err => Rejected err
    | on_timeout => Resolved (JSON.Str timeout_text)
    end.
Proof.
  unfold callMcpServerTool. simpl.
  rewrite resolved_stays; destruct e; reflexivity.
Qed.

(** X16.  The first event settles the promise of [callMcpServerTool] and
    no later event changes it: a first chunk of data is read by
    [finishWith] on its own, whatever chunks follow; an error rejects; the
    end of an empty stream gives the empty string and the timer its
    message. *)
Theorem first_event_settles (e : StreamEvent) (es : list StreamEvent) :
  callMcpServerTool (e :: es) = callMcpServerTool [e]
  /\ callMcpServerTool [e]
     = match e with
       | on_data chunk => Resolved (finishWith chunk)
       | on_end => Resolved (JSON.Str "")
       | on_error err => Rejected err
       | on_timeout => Resolved (JSON.Str timeout_text)
       end.
Proof.
  rewrite !first_event_promise. split; reflexivity.
Qed.


Local Open Scope list_scope.

Lemma callMcpServerTool_settles (es : list StreamEvent) :
  callMcpServerTool (es ++ [on_timeout]) <> Pending.
Proof.
  destruct es as [|e es].
  - discriminate.
  - change ((e :: es) ++ [on_timeout]) with (e :: (es ++ [on_timeout])).
    rewrite first_event_promise. destruct e; discriminate.
Qed.



Lemma answer_prompt_end (gemini : JSON.value -> Awaited JSON.value)
      (mcp : option JSON.value -> option JSON.value
             -> option (list StreamEvent))
      (prompt : JSON.value) :
  snd (answer_prompt gemini mcp prompt) <> Exception
  /\ (snd (answer_prompt gemini mcp prompt) = Waiting
      <-> gemini prompt = Hangs).
Proof.
  unfold answer_prompt.
  destruct (gemini prompt) as [raw| |];
    [ | split; [discriminate | split; discriminate]
      | split; [discriminate | split; reflexivity] ].
  assert (Hno : forall a : Answer,
             a <> Exception -> a <> Waiting ->
             a <> Exception /\ (a = Waiting <-> Answers raw = Hangs)).
  { intros a H1 H2. split; [exact H1|].
    split; [intros H; now elim H2 | discriminate]. }
  destruct (toolCall_of (first (get "candidates" (Some raw))))
    as [call|]; [|apply Hno; discriminate].
  destruct (truthy call); [|apply Hno; discriminate].
  destruct (mcp (get "name" call) (get "args" call)) as [events|];
    [|apply Hno; discriminate].
  pose proof (callMcpServerTool_settles events) as Hs.
  destruct (callMcpServerTool (events ++ [on_timeout]));
    [now elim Hs | apply Hno; discriminate ..].
Qed.

Lemma handler_post (key : option string)
      (gemini : JSON.value -> Awaited JSON.value)
      (mcp : option JSON.value -> option JSON.value
             -> option (list StreamEvent))
      (v : JSON.value) :
  v <> JSON.Null ->
  handler key gemini mcp "POST" (Some v)
  = if negb (truthy (get "prompt" (Some v)))
    then ([], Refused 400 "Prompt is required")
    else if negb (key_configured key)
         then ([], Refused 500
                 "Gemini API key not configured in environment.")
         else match get "prompt" (Some v) with
              | Some prompt => answer_prompt gemini mcp prompt
              | None => ([], Refused 400 "Prompt is required")
              end.
Proof.
  intros Hv. destruct v; [now elim Hv | reflexivity ..].
Qed.

(** X18.  When the handler does not answer.  It waits for ever in one
    case only: the request is a POST with a truthy prompt, the API key
    is configured, and the request to Gemini, which is sent without a
    timeout, never settles; the tool call cannot keep it waiting, since
    the timer settles its promise.  An exception leaves it in one case
    only: a POST whose body is undefined or null. *)
Theorem handler_answers (key : option string)
        (gemini : JSON.value -> Awaited JSON.value)
        (mcp : option JSON.value -> option JSON.value
               -> option (list StreamEvent))
        (method : string) (body : option JSON.value) :
  (snd (handler key gemini mcp method body) = Waiting
   <-> method = "POST"%string
       /\ exists prompt,
           get "prompt" body = Some prompt
           /\ truthy (Some prompt) = true
           /\ key_configured key = true
           /\ gemini prompt = Hangs)
  /\ (snd (handler key gemini mcp method body) = Exception
      <-> method = "POST"%string
          /\ (body = None \/ body = Some JSON.Null)).
Proof.
  destruct (String.eqb_spec method "POST") as [->|Hm].
  2:{ unfold handler. apply String.eqb_neq in Hm. rewrite Hm. cbn [negb snd].
      apply String.eqb_neq in Hm.
      split; (split; [discriminate | now intros [? _]]). }
  destruct body as [v|].
  2:{ cbn [handler snd get].
      change (negb (String.eqb "POST" "POST")) with false. cbv iota.
      cbn [snd]. split.
      - split; [discriminate|]. intros (_ & p & H & _). discriminate H.
      - split; [intros _; split; [reflexivity | now left] | reflexivity]. }
  assert (Hv : v = JSON.Null \/ v <> JSON.Null)
    by (destruct v; [now left | right; discriminate ..]).
  destruct Hv as [->|Hv].
  { cbn [handler snd get].
    change (negb (String.eqb "POST" "POST")) with false. cbv iota.
    cbn [snd]. split.
    - split; [discriminate|]. intros (_ & p & H & _). discriminate H.
    - split; [intros _; split; [reflexivity | now right] | reflexivity]. }
  rewrite (handler_post _ _ _ _ Hv).
  assert (Hex : ~ ("POST"%string = "POST"%string
                   /\ (Some v = None \/ Some v = Some JSON.Null))).
  { intros [_ [H|H]]; [discriminate H | injection H as ->; now elim Hv]. }
  destruct (get "prompt" (Some v)) as [prompt|].
  2:{ cbn [truthy negb snd]. split.
      - split; [discriminate|]. intros (_ & p & H & _). discriminate H.
      - split; [discriminate | intros H; now elim Hex]. }
  destruct (truthy (Some prompt)) eqn:Htruthy; cbn [negb].
  2:{ cbn [snd]. split.
      - split; [discriminate|].
        intros (_ & p & [= <-] & H & _). congruence.
      - split; [discriminate | intros H; now elim Hex]. }
  destruct (key_configured key) eqn:Hkey; cbn [negb].
  2:{ cbn [snd]. split.
      - split; [discriminate|].
        intros (_ & p & _ & _ & H & _). discriminate H.
      - split; [discriminate | intros H; now elim Hex]. }
  destruct (answer_prompt_end gemini mcp prompt) as [Hne Hw]. split.
  - split.
    + intros H. split; [reflexivity|]. exists prompt.
      split; [reflexivity|]. split; [exact Htruthy|].
      split; [reflexivity|]. now apply Hw.
    + intros (_ & p & [= <-] & _ & _ & H). now apply Hw.
  - split; [intros H; now elim Hne | intros H; now elim Hex].
Qed.

Lemma find_after (A : Type) (f : A -> bool) (before after : list A)
      (x : A) :
  forallb (fun y => negb (f y)) before = true -> f x = true ->
  find f (before ++ x :: after) = Some x.
Proof.
  intros Hb Hx. induction before as [|y before IH]; simpl in *.
  - now rewrite Hx.
  - apply andb_true_iff in Hb as [Hy Hb]. apply negb_true_iff in Hy.
    rewrite Hy. now apply IH.
Qed.

Lemma handler_prompt (key : option string)
      (gemini : JSON.value -> Awaited JSON.value)
      (mcp : option JSON.value -> option JSON.value
             -> option (list StreamEvent))
      (l : list (string * JSON.value)) (prompt : JSON.value) :
  key_configured key = true ->
  JSON.lookup "prompt" l = Some prompt -> truthy (Some prompt) = true ->
  handler key gemini mcp "POST" (Some (JSON.Obj l))
  = answer_prompt gemini mcp prompt.
Proof.
  intros Hkey Hprompt Htruthy. unfold handler.
  change (negb (String.eqb "POST" "POST")) with false. cbv iota.
  cbn [get]. now rewrite Hprompt, Htruthy, Hkey.
Qed.

(** X19.  A tool call from end to end, for any answer of Gemini: when the
    parts of its first candidate hold a part with a function call, the
    parts before it holding none, the handler calls the tool server with
    the name and the args of that call, and when the first chunk of the
    reply is a [data:] frame with the JSON text of a value, the response
    carries that value as the tool result and its JSON text in the
    response line.  The parts after the call, the other members of the
    answer and any later chunk play no role. *)
Theorem handler_tool_call (key : option string)
        (gemini : JSON.value -> Awaited JSON.value)
        (mcp : option JSON.value -> option JSON.value
               -> option (list StreamEvent))
        (l : list (string * JSON.value)) (prompt raw part v : JSON.value)
        (before after : list JSON.value) (ws rest : string)
        (es : list StreamEvent) :
  key_configured key = true ->
  JSON.lookup "prompt" l = Some prompt -> truthy (Some prompt) = true ->
  gemini prompt = Answers raw ->
  get "parts" (get "content" (first (get "candidates" (Some raw))))
  = Some (JSON.Arr (before ++ part :: after)) ->
  forallb (fun p => negb (has_call p)) before = true ->
  has_call part = true ->
  mcp (get "name" (get "functionCall" (Some part)))
      (get "args" (get "functionCall" (Some part)))
  = Some (on_data ("data:" ++ ws ++ JSON.stringify v ++ blank_line ++ rest)
          :: es) ->
  JSON.plain v = true -> JSON.index_free v = true ->
  forallb is_space (list_ascii_of_string ws) = true ->
  no_newline ws = true ->
  handler key gemini mcp "POST" (Some (JSON.Obj l))
  = ([GeminiCall prompt;
      McpCall (get "name" (get "functionCall" (Some part)))
              (get "args" (get "functionCall" (Some part)))],
     Success (Some (JSON.Str ("Tool call result: " ++ JSON.stringify v)))
             v raw).
Proof.
  intros Hkey Hprompt Htruthy Hgemini Hparts Hbefore Hpart Hmcp Hplain _
         Hws Hnl.
  rewrite (handler_prompt _ _ _ _ _ Hkey Hprompt Htruthy).
  unfold answer_prompt. rewrite Hgemini.
  unfold toolCall_of. rewrite Hparts.
  rewrite (find_after _ has_call before after part Hbefore Hpart).
  unfold has_call in Hpart. apply andb_true_iff in Hpart as [_ Hcall].
  rewrite Hcall, Hmcp.
  change ((on_data ("data:" ++ ws ++ JSON.stringify v ++ blank_line ++ rest)
           :: es) ++ [on_timeout])
    with (on_data ("data:" ++ ws ++ JSON.stringify v ++ blank_line ++ rest)
          :: (es ++ [on_timeout])).
  rewrite first_event_promise.
  destruct (data_line v ws Hws Hnl) as (Hbody & Htrim & Hpay).
  replace ("data:" ++ ws ++ JSON.stringify v ++ blank_line ++ rest)%string
    with (("data:" ++ ws ++ JSON.stringify v) ++ blank_line ++ rest)%string
    by now rewrite !append_assoc.
  rewrite (finishWith_segment _ _ rest v Hbody Htrim eq_refl Hpay
             (parse_stringify v Hplain)).
  reflexivity.
Qed.

(** X19 on the sample conversation: a text part, then the call. *)
Lemma handler_tool_call_witness :
  handler (Some "k"%string) sample_gemini sample_mcp "POST" (Some sample_body)
  = ([GeminiCall (JSON.Str "backport the fix");
      McpCall (Some (JSON.Str "cherry-pick")) (Some sample_args)],
     Success (Some (JSON.Str ("Tool call result: "
                              ++ JSON.stringify sample_reply)))
             sample_reply
             (gemini_response
                [text_part "On it."; call_part "cherry-pick" sample_args])).
Proof.
  apply (handler_tool_call (Some "k"%string) sample_gemini sample_mcp
           [("prompt"%string, JSON.Str "backport the fix")]
           (JSON.Str "backport the fix")
           (gemini_response
              [text_part "On it."; call_part "cherry-pick" sample_args])
           (call_part "cherry-pick" sample_args) sample_reply
           [text_part "On it."] [] " " "" []);
    reflexivity.
Defined.



(** X21.  An answer of Gemini without a first candidate (no [candidates],
    or an empty list of them) gives a response with status 200 that has
    no [llmResponse] at all and null as the tool result; the tool server
    is not called. *)
Theorem handler_no_candidate (key : option string)
        (gemini : JSON.value -> Awaited JSON.value)
        (mcp : option JSON.value -> option JSON.value
               -> option (list StreamEvent))
        (l : list (string * JSON.value)) (prompt raw : JSON.value) :
  key_configured key = true ->
  JSON.lookup "prompt" l = Some prompt -> truthy (Some prompt) = true ->
  gemini prompt = Answers raw ->
  first (get "candidates" (Some raw)) = None ->
  handler key gemini mcp "POST" (Some (JSON.Obj l))
  = ([GeminiCall prompt], Success None JSON.Null raw).
Proof.
  intros Hkey Hprompt Htruthy Hgemini Hnone.
  rewrite (handler_prompt _ _ _ _ _ Hkey Hprompt Htruthy).
  unfold answer_prompt. now rewrite Hgemini, Hnone.
Qed.

(** X21 on an answer with an empty list of candidates. *)
Lemma handler_no_candidate_witness :
  handler (Some "k"%string)
    (fun _ => Answers (JSON.Obj [("candidates"%string, JSON.Arr [])]))
    sample_mcp "POST" (Some sample_body)
  = ([GeminiCall (JSON.Str "backport the fix")],
     Success None JSON.Null (JSON.Obj [("candidates"%string, JSON.Arr [])])).
Proof.
  apply (handler_no_candidate (Some "k"%string)
           (fun _ => Answers (JSON.Obj [("candidates"%string, JSON.Arr [])]))
           sample_mcp
           [("prompt"%string, JSON.Str "backport the fix")]
           (JSON.Str "backport the fix"));
    reflexivity.
Defined.
